(** * pyaleph: message admission, content resolution and the pending jobs

    A shallow embedding of [aleph/network.py], [aleph/storage.py] and
    [aleph/jobs.py].  Coroutines are embedded as functions in an error monad
    (network) or a state-and-error monad (storage, jobs); [await] is a bind and
    [asyncio.sleep(0)] is a no-op.  The two jobs, which hand their tasks to
    [asyncio.gather], are embedded a second time as steps of an event loop,
    where a task is suspended at its [await] and the gather returns at the
    first exception.  Collaborators that live outside these three modules
    (the verifier register, the item type classifier, the hashing helper,
    the peer overlay, the IPFS client, [incoming], the chain data extractor)
    are section variables. *)

From stdpp Require Import gmap strings list fin_maps sorting.
From Stdlib Require Import ZArith Lia.

Set Warnings "-register-all".
Open Scope Z_scope.

(** ** Python values and exceptions *)

(** [aleph.types.ItemType]. *)
Inductive ItemType := Inline | Storage | IPFS.

#[global] Instance ItemType_eq_dec : EqDecision ItemType.
Proof. solve_decision. Defined.

(** The values a decoded JSON document can hold, the byte strings handled by
    the storage module, and the enum members that [check_message] writes into
    a message. *)
Inductive pyval :=
  | PNone
  | PBool (b : bool)
  | PInt (z : Z)
  | PFloat (mantissa exponent : Z)
  | PStr (s : string)
  | PBytes (b : list Byte.byte)
  | PList (l : list pyval)
  | PDict (d : list (string * pyval))
  | PItem (t : ItemType).

(** The exceptions that cross the functions embedded here.  [ValueError]
    stands for the class together with its subclasses; [OtherError] is any
    exception raised below an adapter boundary (I/O, driver, ...). *)
Inductive exc :=
  | KeyError (key : string)
  | TypeError
  | ValueError
  | TimeoutError
  | InvalidContent
  | ContentCurrentlyUnavailable
  | OtherError (what : string).

#[global] Instance exc_eq_dec : EqDecision exc.
Proof. solve_decision. Defined.

(** A message is a [dict] with string keys. *)
Abbreviation msg := (gmap string pyval).

(** ** The error monad of a coroutine without shared state *)

Module Res.
Definition t (A : Type) : Type := exc + A.
Definition ok {A} (a : A) : t A := inr a.
Definition raise {A} (e : exc) : t A := inl e.
Definition bind {A B} (m : t A) (k : A → t B) : t B :=
  match m with inl e => inl e | inr a => k a end.
End Res.

Notation "'let?' x := m 'in' k" := (Res.bind m (fun x => k))
  (at level 10, x name, m at level 100, k at level 200).

(** [d[k]] on a dict: [KeyError] when the key is absent. *)
Definition getitem (d : msg) (k : string) : Res.t pyval :=
  match d !! k with
  | Some v => Res.ok v
  | None => Res.raise (KeyError k)
  end.

(** [d.get(k, None)]. *)
Definition get_or_none (d : msg) (k : string) : pyval :=
  default PNone (d !! k).

(** [isinstance(v, str)], giving the string when it holds. *)
Definition as_str (v : pyval) : option string :=
  match v with PStr s => Some s | _ => None end.

(** [v == s] for a string literal [s]. *)
Definition py_eq_str (v : pyval) (s : string) : bool :=
  match v with PStr s' => bool_decide (s' = s) | _ => false end.

(** [v is not None]. *)
Definition is_not_none (v : pyval) : bool :=
  match v with PNone => false | _ => true end.

(** A [str] is held as its UTF-8 encoding.  [len] of a [str] counts its
    characters (code points), not its bytes: every byte of the encoding but
    the continuation bytes [10xxxxxx] opens one. *)
Definition is_continuation_byte (a : Ascii.ascii) : bool :=
  match a with Ascii.Ascii _ _ _ _ _ _ b6 b7 => b7 && negb b6 end.

Fixpoint str_len (s : string) : nat :=
  match s with
  | EmptyString => 0%nat
  | String a s' =>
      ((if is_continuation_byte a then 0 else 1) + str_len s')%nat
  end.

(** [len(v)]: defined on sized values, [TypeError] otherwise. *)
Definition py_len (v : pyval) : Res.t Z :=
  match v with
  | PStr s => Res.ok (Z.of_nat (str_len s))
  | PBytes b => Res.ok (Z.of_nat (length b))
  | PList l => Res.ok (Z.of_nat (length l))
  | PDict d => Res.ok (Z.of_nat (length d))
  | _ => Res.raise TypeError
  end.

(** ** aleph/network.py *)

Definition MAX_INLINE_SIZE : Z := 200000.

Definition INCOMING_MESSAGE_AUTHORIZED_FIELDS : list string :=
  [ "item_hash"; "item_content"; "item_type"; "chain"; "channel";
    "sender"; "type"; "time"; "signature" ]%string.

(** A chain verifier: truthy, falsy, or an exception. *)
Definition verifier : Type := msg → Res.t bool.

Section network.
(** [aleph.chains.register.VERIFIER_REGISTER]. *)
Variable VERIFIER_REGISTER : gmap string verifier.
(** [aleph.types.ItemType.from_hash]; [None] is its [ValueError]. *)
Variable from_hash : string → option ItemType.
(** [aleph.utils.get_sha256]. *)
Variable get_sha256 : pyval → Res.t string.

(** The [else] branch of [if trusted:] at the end of [check_message]:
    projection on the authorized fields, then the chain's verifier. *)
Definition verify_untrusted (message : msg) : Res.t (option msg) :=
  let message : msg :=
    filter (λ kv, kv.1 ∈ INCOMING_MESSAGE_AUTHORIZED_FIELDS) message in
  let chain := get_or_none message "chain" in
  match as_str chain ≫= (VERIFIER_REGISTER !!.) with
  | None => Res.ok None
  | Some signer =>
      match signer message with
      | inr true => Res.ok (Some message)
      | inr false => Res.ok None
      | inl ValueError => Res.ok None
      | inl e => Res.raise e
      end
  end.

(** Lines 110-129: what is returned once [item_type] has been settled. *)
Definition finish_check (message : msg) (trusted : bool)
  : Res.t (option msg) :=
  if trusted then Res.ok (Some message) else verify_untrusted message.

(** Lines 82-108: the inline content checks and the item type.  The
    assignment to [message["item_type"]] is made on the caller's dict; the
    embedding keeps the dict as it is returned. *)
Definition check_content (message : msg) (item_hash : string)
    (trusted : bool) : Res.t (option msg) :=
  if is_not_none (get_or_none message "item_content") then
    let? content := getitem message "item_content" in
    let? n := py_len content in
    if MAX_INLINE_SIZE <? n then Res.ok None else
    if py_eq_str (default (PStr "sha256") (message !! "hash_type")) "sha256"
    then
      if trusted then
        finish_check (<["item_type" := PItem Inline]> message) trusted
      else
        let? computed := get_sha256 content in
        if bool_decide (item_hash ≠ computed) then Res.ok None
        else finish_check (<["item_type" := PItem Inline]> message) trusted
    else Res.ok None
  else
    match from_hash item_hash with
    | Some t => finish_check (<["item_type" := PItem t]> message) trusted
    | None => finish_check message trusted
    end.

Definition check_message (message : msg)
    (from_chain from_network trusted : bool) : Res.t (option msg) :=
  let? v := getitem message "item_hash" in
  match as_str v with
  | None => Res.ok None
  | Some item_hash =>
  let? v := getitem message "chain" in
  match as_str v with
  | None => Res.ok None
  | Some _ =>
  if is_not_none (get_or_none message "channel")
     && negb (bool_decide (is_Some (as_str (get_or_none message "channel"))))
  then Res.ok None else
  let? v := getitem message "sender" in
  match as_str v with
  | None => Res.ok None
  | Some _ =>
  let? v := getitem message "signature" in
  match as_str v with
  | None => Res.ok None
  | Some _ => check_content message item_hash trusted
  end end end end.

End network.

(** ** aleph/storage.py *)

Inductive ContentSource := DB | P2P | SRC_IPFS | INLINE.

#[global] Instance ContentSource_eq_dec : EqDecision ContentSource.
Proof. solve_decision. Defined.

(** [RawContent(StoredContent)]. *)
Record RawContent := mkRawContent {
  hash : string;
  source : option ContentSource;
  value : list Byte.byte;
}.

(** The calls that leave the module, in the order they are made. *)
Inductive call :=
  | CallGetValue (h : string)
  | CallSetValue (h : string) (content : list Byte.byte)
  | CallStreamRequestHash (h : string)
  | CallHttpRequestHash (h : string) (timeout : Z)
  | CallGetIpfsContent (h : string) (timeout tries : Z)
  | CallAddIpfsBytes (content : list Byte.byte) (cid_version : Z).

(** What a coroutine of the storage module can observe and change: the
    local file store and the log of outgoing calls. *)
Record world := mkWorld {
  filestore : gmap string (list Byte.byte);
  calls : list call;
}.

(** State-and-error monad of the coroutines that share mutable objects.
    An exception keeps the state reached when it was raised. *)
Module St.
Definition t (S A : Type) : Type := S → Res.t A * S.
Definition ret {S A} (a : A) : t S A := λ s, (Res.ok a, s).
Definition raise {S A} (e : exc) : t S A := λ s, (Res.raise e, s).
Definition bind {S A B} (m : t S A) (k : A → t S B) : t S B :=
  λ s, match m s with
       | (inl e, s') => (inl e, s')
       | (inr a, s') => k a s'
       end.
(** [try: m  except cls: h], with the class given as a predicate. *)
Definition try_except {S A} (m : t S A) (cls : exc → bool) (h : t S A)
  : t S A :=
  λ s, match m s with
       | (inl e, s') => if cls e then h s' else (inl e, s')
       | r => r
       end.
Definition lift {S A} (r : Res.t A) : t S A := λ s, (r, s).
Definition gets {S A} (f : S → A) : t S A := λ s, (Res.ok (f s), s).
Definition modify {S} (f : S → S) : t S unit := λ s, (Res.ok tt, f s).
End St.

Notation "'do' x <- m ; k" := (St.bind m (fun x => k))
  (at level 10, x name, m at level 100, k at level 200).
Notation "'do' ' pat <- m ; k" :=
  (St.bind m (fun x => match x with pat => k end))
  (at level 10, pat pattern, m at level 100, k at level 200).
Notation "'do_' m ; k" := (St.bind m (fun _ => k))
  (at level 10, m at level 100, k at level 200).

Definition log_call (c : call) : St.t world unit :=
  St.modify (λ w, mkWorld (filestore w) (calls w ++ [c])).

Section storage.
(** [app["config"].ipfs.enabled.value] and [app["config"].p2p.clients.value]. *)
Variable ipfs_enabled : bool.
Variable enabled_clients : list string.
(** [get_streamer().request_hash], [aleph.services.p2p.http.request_hash],
    [aleph.services.ipfs.storage.get_ipfs_content] and [add_bytes]. *)
Variable streamer_request_hash : string → Res.t (option (list Byte.byte)).
Variable p2p_http_request_hash : string → Z → Res.t (option (list Byte.byte)).
Variable ipfs_get_content : string → Z → Z → Res.t (option (list Byte.byte)).
Variable add_ipfs_bytes : list Byte.byte → Z → Res.t string.
(** [aleph.utils.get_sha256]. *)
Variable get_sha256 : pyval → Res.t string.
(** The writes of the file store that fail, and with what. *)
Variable set_value_error : string → list Byte.byte → option exc.

(** Modelled from the spec: [aleph.services.filestore.get_value] is not in
    the sources; section 4.2 gives [get(H) -> bytes?], never throwing for
    a missing key. *)
Definition get_value (h : string) : St.t world (option (list Byte.byte)) :=
  do_ log_call (CallGetValue h);
  St.gets (λ w, filestore w !! h).

(** Modelled from the spec: [aleph.services.filestore.set_value] is not in
    the sources; section 4.2 gives [set(H, bytes)], durable on return.  A
    write that fails raises and leaves the store as it was. *)
Definition set_value (h : string) (content : list Byte.byte) : St.t world unit :=
  do_ log_call (CallSetValue h content);
  match set_value_error h content with
  | Some e => St.raise e
  | None => St.modify (λ w, mkWorld (<[h := content]> (filestore w)) (calls w))
  end.

Definition request_hash (h : string) : St.t world (option (list Byte.byte)) :=
  do_ log_call (CallStreamRequestHash h);
  St.lift (streamer_request_hash h).

Definition http_request_hash (h : string) (timeout : Z)
  : St.t world (option (list Byte.byte)) :=
  do_ log_call (CallHttpRequestHash h timeout);
  St.lift (p2p_http_request_hash h timeout).

Definition get_ipfs_content (h : string) (timeout tries : Z)
  : St.t world (option (list Byte.byte)) :=
  do_ log_call (CallGetIpfsContent h timeout tries);
  St.lift (ipfs_get_content h timeout tries).

Definition add_bytes (content : list Byte.byte) (cid_version : Z)
  : St.t world string :=
  do_ log_call (CallAddIpfsBytes content cid_version);
  St.lift (add_ipfs_bytes content cid_version).

Definition is_timeout (e : exc) : bool := bool_decide (e = TimeoutError).

Definition compute_content_hash_ipfs (content : list Byte.byte)
    (expected_hash : string) : St.t world (option string) :=
  St.try_except
    (let cid_version :=
       if 58 <=? Z.of_nat (str_len expected_hash) then 1 else 0 in
     do computed_hash <- add_bytes content cid_version;
     St.ret (Some computed_hash))
    is_timeout
    (St.ret None).

Definition compute_content_hash_sha256 (content : list Byte.byte)
    (expected_hash : string) : St.t world (option string) :=
  do h <- St.lift (get_sha256 (PBytes content));
  St.ret (Some h).

Definition verify_content_hash (content : list Byte.byte)
    (engine : ItemType) (expected_hash : string) : St.t world unit :=
  do compute_hash <-
    (if bool_decide (engine = IPFS) && ipfs_enabled
     then St.ret compute_content_hash_ipfs
     else if bool_decide (engine = Storage)
     then St.ret compute_content_hash_sha256
     else St.raise ValueError);
  do computed_hash <- compute_hash content expected_hash;
  match computed_hash with
  | None => St.raise ContentCurrentlyUnavailable
  | Some computed_hash =>
      if bool_decide (computed_hash ≠ expected_hash)
      then St.raise InvalidContent
      else St.ret tt
  end.

Definition fetch_content_from_network (content_hash : string)
    (engine : ItemType) (timeout : Z) : St.t world (option (list Byte.byte)) :=
  do content <-
    (if bool_decide ("protocol"%string ∈ enabled_clients)
     then request_hash content_hash
     else St.ret None);
  do content <-
    (match content with
     | None =>
         if bool_decide ("http"%string ∈ enabled_clients)
         then http_request_hash content_hash timeout
         else St.ret content
     | Some _ => St.ret content
     end);
  do_ (match content with
       | Some c => verify_content_hash c engine content_hash
       | None => St.ret tt
       end);
  St.ret content.

Definition get_hash_content (content_hash : string) (engine : ItemType)
    (timeout tries : Z) (use_network use_ipfs store_value : bool)
  : St.t world RawContent :=
  let source : option ContentSource := None in
  do content <- get_value content_hash;
  let source := if content is Some _ then Some DB else source in
  do '(content, source) <-
    (match content with
     | None =>
         if use_network then
           do content <- fetch_content_from_network content_hash engine timeout;
           St.ret (content, Some P2P)
         else St.ret (content, source)
     | Some _ => St.ret (content, source)
     end);
  do '(content, source) <-
    (match content with
     | None =>
         if ipfs_enabled && bool_decide (engine = IPFS) && use_ipfs then
           do content <- get_ipfs_content content_hash timeout tries;
           St.ret (content, Some SRC_IPFS)
         else St.ret (content, source)
     | Some _ => St.ret (content, source)
     end);
  match content with
  | None => St.raise ContentCurrentlyUnavailable
  | Some content =>
      do_ (if store_value && bool_decide (source ≠ Some DB)
           then set_value content_hash content
           else St.ret tt);
      St.ret (mkRawContent content_hash source content)
  end.

End storage.

(** ** aleph/jobs.py *)

(** A document identifier ([_id]). *)
Abbreviation oid := N.

(** [pending['source']], read with [.get]: every field may be missing. *)
Record message_source := mkSource {
  src_chain_name : option string;
  src_tx_hash : option string;
  src_height : option Z;
  src_check_message : option bool;
}.

(** A document of the pending message collection, without its [_id]. *)
Record pending_message := mkPendingMessage {
  pm_time : option Z;
  pm_message : msg;
  pm_source : message_source;
}.

(** [pending['context']] of a pending transaction. *)
Record tx_context := mkContext {
  ctx_chain_name : string;
  ctx_tx_hash : string;
  ctx_height : Z;
  ctx_time : pyval;
}.

(** A document of the pending transaction collection, without its [_id]. *)
Record pending_tx := mkPendingTX {
  ptx_time : option Z;
  ptx_content : pyval;
  ptx_context : tx_context;
}.

(** [pymongo.InsertOne] and [pymongo.DeleteOne({'_id': id})]. *)
Inductive write_op (D : Type) :=
  | InsertOne (doc : D)
  | DeleteOne (id : oid).
Arguments InsertOne {D} doc.
Arguments DeleteOne {D} id.

(** A collection: its documents with their identifiers. *)
Abbreviation collection D := (list (oid * D)).

Definition fresh_id {D} (c : collection D) : oid :=
  N.succ (foldr N.max 0%N (c.*1)).

Fixpoint delete_one {D} (id : oid) (c : collection D) : collection D :=
  match c with
  | [] => []
  | d :: c' => if bool_decide (d.1 = id) then c' else d :: delete_one id c'
  end.

Definition apply_op {D} (c : collection D) (op : write_op D) : collection D :=
  match op with
  | InsertOne doc => c ++ [(fresh_id c, doc)]
  | DeleteOne id => delete_one id c
  end.

(** [collection.bulk_write(ops)]: the operations in the order of the list. *)
Definition bulk_write {D} (ops : list (write_op D)) (c : collection D)
  : collection D :=
  foldl apply_op c ops.

(** The order of [sort([('time', 1)])]: a missing time comes first. *)
Definition time_le (a b : option Z) : Prop :=
  match a, b with
  | None, _ => True
  | Some _, None => False
  | Some x, Some y => x ≤ y
  end.

#[global] Instance time_le_dec a b : Decision (time_le a b).
Proof. destruct a, b; simpl; apply _. Defined.

(** [collection.find().sort([('time', 1)]).limit(n)]: the documents the
    cursor yields are those of the collection when it is opened. *)
Definition find_sorted_limit {D} (time : D → option Z) (n : nat)
    (c : collection D) : collection D :=
  take n (merge_sort (λ x y, time_le (time x.2) (time y.2)) c).

(** The persistent queues, and what the jobs were seen doing: the number
    of tasks handed to each [asyncio.gather], and the messages handed to
    [incoming]. *)
Record node := mkNode {
  PendingMessage : collection pending_message;
  PendingTX : collection pending_tx;
  gathered : list nat;
  incoming_calls : list msg;
}.

(** The objects shared by the tasks of one [retry_messages_job]. *)
Record retry_state := mkRetry {
  seen_ids : gmap string (list pyval);
  actions : list (write_op pending_message);
  retry_node : node;
}.

(** The objects shared by the tasks of one [handle_txs_job]. *)
Record txs_state := mkTxs {
  tx_actions : list (write_op pending_tx);
  txs_node : node;
}.

(** What [get_chaindata_messages] returns when it is not [None]. *)
Inductive chaindata :=
  | Messages (l : list msg)
  | Sentinel (v : pyval).

(** [asyncio.gather] awaited on tasks none of which is suspended when the
    gather is over: each task runs to its end, in the order of the list,
    and the first exception is the one raised.  This is the run of the
    event loop in which every task ends before the next one starts; what
    the jobs do when tasks are suspended while others run, and while the
    job itself goes on, is embedded further down, on the event loop. *)
Fixpoint run_all {S} (tasks : list (St.t S unit)) : St.t S unit :=
  match tasks with
  | [] => St.ret tt
  | task :: tasks' =>
      λ s, let '(r, s') := task s in
           let '(r', s'') := run_all tasks' s' in
           (match r with inl e => inl e | inr _ => r' end, s'')
  end.

(** [note] records the number of tasks handed over. *)
Definition asyncio_gather {S} (note : nat → S → S)
    (tasks : list (St.t S unit)) : St.t S unit :=
  do_ St.modify (note (length tasks));
  run_all tasks.

Definition note_gather (n : nat) (nd : node) : node :=
  mkNode (PendingMessage nd) (PendingTX nd) (gathered nd ++ [n])
         (incoming_calls nd).

(** [repr] of a dict key that was not found. *)
Definition key_repr (k : option string) : string :=
  default "None"%string k.

Section jobs.
(** [aleph.chains.common.incoming]: its result, and the list it was given
    as [seen_ids] as it leaves it. *)
Variable incoming :
  msg → option string → option string → option Z → list pyval →
  bool → bool → Res.t pyval * list pyval.
(** [aleph.chains.common.get_chaindata_messages]. *)
Variable get_chaindata_messages :
  pyval → tx_context → Res.t (option chaindata).

Definition handle_pending_message (pending : oid * pending_message)
  : St.t retry_state unit :=
  let src := pm_source pending.2 in
  do ids <- St.gets seen_ids;
  match src_chain_name src ≫= (λ k, (k,.) <$> ids !! k) with
  | None => St.raise (KeyError (key_repr (src_chain_name src)))
  | Some (chain, seen) =>
      let '(result, seen') :=
        incoming (pm_message pending.2) (src_chain_name src)
                 (src_tx_hash src) (src_height src) seen
                 (default true (src_check_message src)) true in
      do_ St.modify (λ st,
            mkRetry (<[chain := seen']> (seen_ids st))
                    (actions st)
                    (mkNode (PendingMessage (retry_node st))
                            (PendingTX (retry_node st))
                            (gathered (retry_node st))
                            (incoming_calls (retry_node st)
                               ++ [pm_message pending.2])));
      do result <- St.lift result;
      match result with
      | PBool true =>
          St.modify (λ st,
            mkRetry (seen_ids st) (actions st ++ [DeleteOne pending.1])
                    (retry_node st))
      | _ => St.ret tt
      end
  end.

Definition join_pending_message_tasks
    (tasks : list (St.t retry_state unit)) : St.t retry_state unit :=
  do_ St.try_except
        (asyncio_gather
           (λ n st, mkRetry (seen_ids st) (actions st)
                            (note_gather n (retry_node st)))
           tasks)
        (λ _, true)
        (St.ret tt);
  do acts <- St.gets actions;
  if bool_decide (length acts ≠ 0%nat) then
    St.modify (λ st,
      mkRetry (seen_ids st) []
              (mkNode (bulk_write acts (PendingMessage (retry_node st)))
                      (PendingTX (retry_node st))
                      (gathered (retry_node st))
                      (incoming_calls (retry_node st))))
  else St.ret tt.

(** The [async for] of [retry_messages_job]; [join] clears [tasks], so the
    loop goes on with the empty list.  The tasks not yet joined are
    returned. *)
Fixpoint retry_messages_loop (cursor : collection pending_message)
    (tasks : list (St.t retry_state unit)) (i : Z)
  : St.t retry_state (list (St.t retry_state unit)) :=
  match cursor with
  | [] => St.ret tasks
  | pending :: cursor' =>
      let i := i + 1 in
      let tasks := tasks ++ [handle_pending_message pending] in
      if 200 <? i then
        do_ join_pending_message_tasks tasks;
        retry_messages_loop cursor' [] 0
      else retry_messages_loop cursor' tasks i
  end.

Definition retry_messages_job : St.t node unit :=
  λ nd,
    let st :=
      mkRetry (<["NULS" := []]> (<["ETH" := []]> (<["BNB" := []]> ∅)))%string
              [] nd in
    let cursor := find_sorted_limit pm_time 1000 (PendingMessage nd) in
    let '(r, st') :=
      (do tasks <- retry_messages_loop cursor [] 0;
       join_pending_message_tasks tasks) st in
    (r, retry_node st').

Definition handle_pending_tx (pending : oid * pending_tx)
  : St.t txs_state unit :=
  let context := ptx_context pending.2 in
  do messages <- St.lift (get_chaindata_messages (ptx_content pending.2) context);
  do_ (match messages with
       | Some (Messages l) =>
           let message_actions :=
             map (λ message : msg,
                    InsertOne
                      (mkPendingMessage None
                         (<["time" := ctx_time context]> message)
                         (mkSource (Some (ctx_chain_name context))
                                   (Some (ctx_tx_hash context))
                                   (Some (ctx_height context))
                                   (Some true)))) l in
           if bool_decide (message_actions ≠ []) then
             St.modify (λ st,
               mkTxs (tx_actions st)
                     (mkNode (bulk_write message_actions
                                         (PendingMessage (txs_node st)))
                             (PendingTX (txs_node st))
                             (gathered (txs_node st))
                             (incoming_calls (txs_node st))))
           else St.ret tt
       | _ => St.ret tt
       end);
  match messages with
  | Some _ =>
      St.modify (λ st,
        mkTxs (tx_actions st ++ [DeleteOne pending.1]) (txs_node st))
  | None => St.ret tt
  end.

Definition join_pending_txs_tasks
    (tasks : list (St.t txs_state unit)) : St.t txs_state unit :=
  do_ St.try_except
        (asyncio_gather
           (λ n st, mkTxs (tx_actions st) (note_gather n (txs_node st)))
           tasks)
        (λ _, true)
        (St.ret tt);
  do acts <- St.gets tx_actions;
  if bool_decide (length acts ≠ 0%nat) then
    St.modify (λ st,
      mkTxs []
            (mkNode (PendingMessage (txs_node st))
                    (bulk_write acts (PendingTX (txs_node st)))
                    (gathered (txs_node st))
                    (incoming_calls (txs_node st))))
  else St.ret tt.

Fixpoint handle_txs_loop (cursor : collection pending_tx)
    (tasks : list (St.t txs_state unit)) (i : Z)
  : St.t txs_state (list (St.t txs_state unit)) :=
  match cursor with
  | [] => St.ret tasks
  | pending :: cursor' =>
      let i := i + 1 in
      let tasks := tasks ++ [handle_pending_tx pending] in
      if 100 <? i then
        do_ join_pending_txs_tasks tasks;
        handle_txs_loop cursor' [] 0
      else handle_txs_loop cursor' tasks i
  end.

Definition handle_txs_job : St.t node unit :=
  λ nd,
    let st := mkTxs [] nd in
    let cursor := find_sorted_limit ptx_time 1000 (PendingTX nd) in
    let '(r, st') :=
      (do tasks <- handle_txs_loop cursor [] 0;
       join_pending_txs_tasks tasks) st in
    (r, txs_node st').

End jobs.

(** ** aleph/jobs.py on the event loop

    The jobs once more, with tasks that suspend: [asyncio.gather] schedules
    its coroutines as tasks of the event loop and its [await] returns when
    they have all ended or, at once, when one of them raises; the tasks
    that have not ended then stay in the loop and go on running while the
    job does.  The order in which the loop resumes the job and the
    suspended tasks is given as a schedule. *)

(** What a step of a coroutine leaves: its result when it has ended, or the
    coroutine suspended at an [await].  Resuming a suspended coroutine runs
    it, on the shared objects [S] as they are then, up to its next
    suspension or to its end. *)
Inductive coro (S : Type) : Type :=
  | Ret (r : Res.t unit)
  | Await (resume : S → S * coro S).
Arguments Ret {S} r.
Arguments Await {S} resume.

(** A coroutine object: not yet started, or suspended. *)
Abbreviation routine S := (S → S * coro S).

(** The coroutine run from where it stands to its end, nothing else running
    in between. *)
Fixpoint complete {S} (c : coro S) : St.t S unit :=
  λ s, match c with
       | Ret r => (r, s)
       | Await resume => let '(s', c') := resume s in complete c' s'
       end.

Definition run_routine {S} (f : routine S) : St.t S unit :=
  λ s, let '(s', c) := f s in complete c s'.

(** A task of the event loop that has not ended: whether the [gather] that
    the job awaits holds it, whether it has made its first step, and the
    coroutine where it stands. *)
Record task (S : Type) := mkTask {
  awaited : bool;
  started : bool;
  body : routine S;
}.
Arguments mkTask {S} awaited started body.
Arguments awaited {S} t.
Arguments started {S} t.
Arguments body {S} t.

(** The event loop while a job runs: the objects that the job shares with
    its tasks; the tasks in flight, that is scheduled and not ended, in the
    order they were scheduled; whether a task of the gather under way has
    raised; the exceptions with which tasks have ended so far; and the
    place [P] where the job stands. *)
Record event_loop (S P : Type) := mkLoop {
  shared : S;
  in_flight : list (task S);
  raised : bool;
  exceptions : list exc;
  job : P;
}.
Arguments mkLoop {S P} shared in_flight raised exceptions job.
Arguments shared {S P} e.
Arguments in_flight {S P} e.
Arguments raised {S P} e.
Arguments exceptions {S P} e.
Arguments job {S P} e.

Definition is_exception {A} (r : Res.t A) : bool :=
  match r with inl _ => true | inr _ => false end.

Definition exception_of {A} (r : Res.t A) : list exc :=
  match r with inl e => [e] | inr _ => [] end.

(** The loop runs the task at position [n]: one step.  A task that ends is
    dropped from the loop; when it ends with an exception and the gather
    under way holds it, the gather is over with that exception. *)
Definition task_turn {S P} (n : nat) (l : event_loop S P) : event_loop S P :=
  match in_flight l !! n with
  | Some t =>
      let '(s, c) := body t (shared l) in
      match c with
      | Ret r =>
          mkLoop s (delete n (in_flight l))
                 (raised l || awaited t && is_exception r)
                 (exceptions l ++ exception_of r) (job l)
      | Await resume =>
          mkLoop s (<[n := mkTask (awaited t) true resume]> (in_flight l))
                 (raised l) (exceptions l) (job l)
      end
  | None => l
  end.

(** [asyncio.gather] on [tasks]: every coroutine becomes a task of the loop,
    scheduled behind those already there; the job goes to [next], where it
    awaits the outcome. *)
Definition gather {S P} (tasks : list (routine S)) (next : P)
    (l : event_loop S P) : event_loop S P :=
  mkLoop (shared l) (in_flight l ++ map (mkTask true false) tasks) false
         (exceptions l) next.

(** The [await] of the gather returns: every task of the gather has made
    its first step, and one of them has raised or all have ended. *)
Definition gather_over {S P} (l : event_loop S P) : bool :=
  forallb (λ t, negb (awaited t) || started t) (in_flight l)
  && (raised l || forallb (λ t, negb (awaited t)) (in_flight l)).

(** The gather is left behind: its tasks that have not ended stay in the
    loop, nobody awaits them. *)
Definition orphan {S} (t : task S) : task S :=
  mkTask false (started t) (body t).

(** Where the coroutine of a job stands: in its [async for] with the
    records that the cursor has yet to yield, in the [await] of a gather, or
    in the [await] of the bulk write that follows, both with what is left of
    the cursor ([None] for the join after the loop); or it has returned. *)
Inductive job_at (R S : Type) :=
  | Iterating (cursor : list R) (tasks : list (routine S)) (i : Z)
  | Gathering (rest : option (list R))
  | Writing (rest : option (list R))
  | Returned.
Arguments Iterating {R S} cursor tasks i.
Arguments Gathering {R S} rest.
Arguments Writing {R S} rest.
Arguments Returned {R S}.

(** Who runs next: the job, or the task at a position of the loop. *)
Inductive turn := JobTurn | TaskTurn (n : nat).

Section sweep.
Context {R S : Type}.
(** [retry_messages_job] and [handle_txs_job] are the same loop: they
    differ in the bound of [i], in the handler, and in the collection that
    the actions are written to. *)
Variable bound : Z.
Variable handler : R → routine S.
(** [note] records the number of coroutines handed to a gather. *)
Variable note : nat → S → S.
(** [len(actions_list)]; the [bulk_write] of the actions as they are when
    it is called; and [actions_list.clear()], once the write has
    returned. *)
Variable has_actions : S → bool.
Variable write_actions : S → S.
Variable clear_actions : S → S.

(** After a join: [tasks] has been cleared, and in the loop [i] is
    reset. *)
Definition after_join (rest : option (list R)) : job_at R S :=
  match rest with
  | Some cursor => Iterating cursor [] 0
  | None => Returned
  end.

(** The job runs up to its next [await]: one iteration of the [async for],
    the launch of a gather, what follows the gather up to the bulk write,
    or what follows the bulk write.  A job whose gather is not over stays
    where it is. *)
Definition job_turn (l : event_loop S (job_at R S))
  : event_loop S (job_at R S) :=
  match job l with
  | Iterating [] tasks i =>
      gather tasks (Gathering None)
        (mkLoop (note (length tasks) (shared l)) (in_flight l) (raised l)
                (exceptions l) (job l))
  | Iterating (pending :: cursor) tasks i =>
      let i := i + 1 in
      let tasks := tasks ++ [handler pending] in
      if bound <? i then
        gather tasks (Gathering (Some cursor))
          (mkLoop (note (length tasks) (shared l)) (in_flight l) (raised l)
                  (exceptions l) (job l))
      else mkLoop (shared l) (in_flight l) (raised l) (exceptions l)
                  (Iterating cursor tasks i)
  | Gathering rest =>
      if gather_over l then
        if has_actions (shared l) then
          mkLoop (write_actions (shared l)) (map orphan (in_flight l)) false
                 (exceptions l) (Writing rest)
        else
          mkLoop (shared l) (map orphan (in_flight l)) false (exceptions l)
                 (after_join rest)
      else l
  | Writing rest =>
      mkLoop (clear_actions (shared l)) (in_flight l) (raised l)
             (exceptions l) (after_join rest)
  | Returned => l
  end.

End sweep.

(** One turn of the loop, and the loop after the turns of a schedule. *)
Definition loop_turn {S P} (job_turn : event_loop S P → event_loop S P)
    (l : event_loop S P) (t : turn) : event_loop S P :=
  match t with
  | JobTurn => job_turn l
  | TaskTurn n => task_turn n l
  end.

Definition run_loop {S P} (job_turn : event_loop S P → event_loop S P)
    (schedule : list turn) (l : event_loop S P) : event_loop S P :=
  foldl (loop_turn job_turn) l schedule.

Section jobs_on_the_loop.
Variable incoming :
  msg → option string → option string → option Z → list pyval →
  bool → bool → Res.t pyval * list pyval.
Variable get_chaindata_messages :
  pyval → tx_context → Res.t (option chaindata).

(** [handle_pending_message], resumed when [incoming] has its result: the
    list under [chain] is the one that [incoming] was given, as it is by
    then. *)
Definition incoming_returns (pending : oid * pending_message)
    (chain : string) : routine retry_state :=
  λ st,
    let src := pm_source pending.2 in
    let '(result, seen') :=
      incoming (pm_message pending.2) (src_chain_name src)
               (src_tx_hash src) (src_height src)
               (default [] (seen_ids st !! chain))
               (default true (src_check_message src)) true in
    let st := mkRetry (<[chain := seen']> (seen_ids st)) (actions st)
                      (retry_node st) in
    match result with
    | inl e => (st, Ret (inl e))
    | inr (PBool true) =>
        (mkRetry (seen_ids st) (actions st ++ [DeleteOne pending.1])
                 (retry_node st), Ret (Res.ok tt))
    | inr _ => (st, Ret (Res.ok tt))
    end.

(** [handle_pending_message] as a task: its first step evaluates the
    arguments of [incoming], where the subscript of [seen_ids] may raise,
    and calls it; the task is then suspended in [incoming]. *)
Definition handle_pending_message_task (pending : oid * pending_message)
  : routine retry_state :=
  λ st,
    let src := pm_source pending.2 in
    match src_chain_name src ≫= (λ k, (k,.) <$> seen_ids st !! k) with
    | None => (st, Ret (Res.raise (KeyError (key_repr (src_chain_name src)))))
    | Some (chain, _) =>
        (mkRetry (seen_ids st) (actions st)
                 (mkNode (PendingMessage (retry_node st))
                         (PendingTX (retry_node st))
                         (gathered (retry_node st))
                         (incoming_calls (retry_node st)
                            ++ [pm_message pending.2])),
         Await (incoming_returns pending chain))
    end.

(** [retry_messages_job] and its [join_pending_message_tasks]. *)
Definition retry_messages_turn :=
  job_turn 200 handle_pending_message_task
    (λ n st, mkRetry (seen_ids st) (actions st)
               (note_gather n (retry_node st)))
    (λ st, bool_decide (length (actions st) ≠ 0%nat))
    (λ st, mkRetry (seen_ids st) (actions st)
             (mkNode (bulk_write (actions st) (PendingMessage (retry_node st)))
                     (PendingTX (retry_node st)) (gathered (retry_node st))
                     (incoming_calls (retry_node st))))
    (λ st, mkRetry (seen_ids st) [] (retry_node st)).

Definition retry_messages_start (nd : node)
  : event_loop retry_state (job_at (oid * pending_message) retry_state) :=
  mkLoop
    (mkRetry (<["NULS" := []]> (<["ETH" := []]> (<["BNB" := []]> ∅)))%string
             [] nd)
    [] false []
    (Iterating (find_sorted_limit pm_time 1000 (PendingMessage nd)) [] 0).

(** [handle_pending_tx] from the answer of the extractor on: the bulk
    write of the messages is one more [await]. *)
Definition chaindata_returns (pending : oid * pending_tx)
  : routine txs_state :=
  λ st,
    let context := ptx_context pending.2 in
    match get_chaindata_messages (ptx_content pending.2) context with
    | inl e => (st, Ret (inl e))
    | inr messages =>
        let finish : routine txs_state :=
          λ st,
            match messages with
            | Some _ =>
                (mkTxs (tx_actions st ++ [DeleteOne pending.1]) (txs_node st),
                 Ret (Res.ok tt))
            | None => (st, Ret (Res.ok tt))
            end in
        match messages with
        | Some (Messages l) =>
            let message_actions :=
              map (λ message : msg,
                     InsertOne
                       (mkPendingMessage None
                          (<["time" := ctx_time context]> message)
                          (mkSource (Some (ctx_chain_name context))
                                    (Some (ctx_tx_hash context))
                                    (Some (ctx_height context))
                                    (Some true)))) l in
            if bool_decide (message_actions ≠ []) then
              (st, Await (λ st,
                 finish
                   (mkTxs (tx_actions st)
                      (mkNode (bulk_write message_actions
                                          (PendingMessage (txs_node st)))
                              (PendingTX (txs_node st))
                              (gathered (txs_node st))
                              (incoming_calls (txs_node st))))))
            else finish st
        | _ => finish st
        end
    end.

(** [handle_pending_tx] as a task: its first step calls the extractor and
    is suspended in it. *)
Definition handle_pending_tx_task (pending : oid * pending_tx)
  : routine txs_state :=
  λ st, (st, Await (chaindata_returns pending)).

(** [handle_txs_job] and its [join_pending_txs_tasks]. *)
Definition handle_txs_turn :=
  job_turn 100 handle_pending_tx_task
    (λ n st, mkTxs (tx_actions st) (note_gather n (txs_node st)))
    (λ st, bool_decide (length (tx_actions st) ≠ 0%nat))
    (λ st, mkTxs (tx_actions st)
             (mkNode (PendingMessage (txs_node st))
                     (bulk_write (tx_actions st) (PendingTX (txs_node st)))
                     (gathered (txs_node st)) (incoming_calls (txs_node st))))
    (λ st, mkTxs [] (txs_node st)).

Definition handle_txs_start (nd : node)
  : event_loop txs_state (job_at (oid * pending_tx) txs_state) :=
  mkLoop (mkTxs [] nd) [] false []
    (Iterating (find_sorted_limit ptx_time 1000 (PendingTX nd)) [] 0).

(** The loop of each job after a schedule, from the call of the job. *)
Definition retry_messages_run (schedule : list turn) (nd : node) :=
  run_loop retry_messages_turn schedule (retry_messages_start nd).

Definition handle_txs_run (schedule : list turn) (nd : node) :=
  run_loop handle_txs_turn schedule (handle_txs_start nd).

End jobs_on_the_loop.

(** ** aleph/network.py: the entry point of the pubsub channel *)

Section network_entry.
Variable VERIFIER_REGISTER : gmap string verifier.
Variable from_hash : string → option ItemType.
Variable get_sha256 : pyval → Res.t string.
(** [bytes.decode("utf-8")]; [None] is its [UnicodeDecodeError]. *)
Variable decode_utf8 : list Byte.byte → option string.
(** [urllib.parse.unquote]. *)
Variable unquote : string → string.
(** [json.loads]: the decoded value, [None] for its [JSONDecodeError], or
    another exception (on bytes that are not UTF-8, [UnicodeDecodeError],
    which is no [JSONDecodeError]). *)
Variable json_loads : pyval → Res.t (option pyval).

(** [ipfs_pubsub_message] is a dict whose ["data"] holds bytes.  A
    [UnicodeDecodeError] is a [ValueError] that the [except] clause does not
    catch; a decoded value that is not a dict makes the first subscript of
    [check_message] raise [TypeError]; [PDict] holds the items of a dict,
    its keys distinct.  No collaborator of [check_message] raises
    [JSONDecodeError]. *)
Definition incoming_check (ipfs_pubsub_message : gmap string (list Byte.byte))
  : Res.t (option msg) :=
  match decode_utf8 (default [] (ipfs_pubsub_message !! "data"%string)) with
  | None => Res.raise ValueError
  | Some message_data =>
      match json_loads (PStr (unquote message_data)) with
      | inl e => Res.raise e
      | inr None => Res.ok None
      | inr (Some (PDict items)) =>
          check_message VERIFIER_REGISTER from_hash get_sha256
            (list_to_map items) false true false
      | inr (Some _) => Res.raise TypeError
      end
  end.

End network_entry.

(** ** aleph/storage.py: JSON documents, and adding content *)

(** [JsonContent(StoredContent)].  [hash] and [raw_content] hold what the
    code puts there: for inline content, the values of the message. *)
Record JsonContent := mkJsonContent {
  j_hash : pyval;
  j_source : option ContentSource;
  j_value : pyval;
  raw_content : pyval;
}.

(** A binary file object: its bytes and its position. *)
Record fileobj := mkFile {
  f_data : list Byte.byte;
  f_pos : nat;
}.

(** [fileobject.read()]: the bytes from the position on; the position goes
    to the end. *)
Definition file_read (f : fileobj) : list Byte.byte * fileobj :=
  (drop (f_pos f) (f_data f),
   mkFile (f_data f) (Nat.max (f_pos f) (length (f_data f)))).

(** [fileobject.seek(n)]. *)
Definition file_seek (n : nat) (f : fileobj) : fileobj :=
  mkFile (f_data f) n.

Section storage_documents.
Variable ipfs_enabled : bool.
Variable enabled_clients : list string.
Variable streamer_request_hash : string → Res.t (option (list Byte.byte)).
Variable p2p_http_request_hash : string → Z → Res.t (option (list Byte.byte)).
Variable ipfs_get_content : string → Z → Z → Res.t (option (list Byte.byte)).
Variable add_ipfs_bytes : list Byte.byte → Z → Res.t string.
Variable get_sha256 : pyval → Res.t string.
Variable set_value_error : string → list Byte.byte → option exc.
(** [json.loads], as in the entry point, and [json.dumps]. *)
Variable json_loads : pyval → Res.t (option pyval).
Variable json_dumps : pyval → Res.t string.
(** [str.encode("utf-8")] and [hashlib.sha256(b).hexdigest()]. *)
Variable encode_utf8 : string → list Byte.byte.
Variable sha256_hexdigest : list Byte.byte → string.
(** The member of [ItemType] that a string equals, if any
    ([aleph.types] is not in the sources). *)
Variable item_type_of_string : string → option ItemType.
(** The [cid_version] that [add_bytes] takes when none is given. *)
Variable default_cid_version : Z.
(** [aleph.services.ipfs.storage.add_file]: the dict of the IPFS answer,
    and the position where it leaves the file object. *)
Variable ipfs_add_file :
  fileobj → option string → Res.t (gmap string string) * nat.
(** [get_json] on a [content_hash] that is not a string, against its
    annotation: the value goes as it is to the file store and to the network
    clients, and what they make of such a key is theirs. *)
Variable get_json_of_value :
  pyval → ItemType → Z → Z → St.t world JsonContent.

(** The member of [ItemType] that a value equals. *)
Definition as_item_type (v : pyval) : option ItemType :=
  match v with
  | PItem t => Some t
  | PStr s => item_type_of_string s
  | _ => None
  end.

(** [json_async_loads]. *)
Definition json_async_loads (s : pyval) : St.t world (option pyval) :=
  St.lift (json_loads s).

Definition get_json (content_hash : string) (engine : ItemType)
    (timeout tries : Z) : St.t world JsonContent :=
  do content <-
    get_hash_content ipfs_enabled enabled_clients streamer_request_hash
      p2p_http_request_hash ipfs_get_content add_ipfs_bytes get_sha256
      set_value_error content_hash engine timeout tries true true true;
  do json_content <- json_async_loads (PBytes (value content));
  match json_content with
  | None => St.raise InvalidContent
  | Some json_content =>
      St.ret (mkJsonContent (PStr (hash content)) (source content)
                json_content (PBytes (value content)))
  end.

Definition is_key_error (e : exc) : bool :=
  match e with KeyError _ => true | _ => false end.

Definition get_message_content (message : msg) : St.t world JsonContent :=
  let item_type := default (PItem IPFS) (message !! "item_type"%string) in
  do item_hash <- St.lift (getitem message "item_hash");
  match as_item_type item_type with
  | Some Inline =>
      match message !! "item_content"%string with
      | None => St.raise InvalidContent
      | Some content =>
          do item_content <-
            St.try_except
              (do loaded <- json_async_loads content;
               match loaded with
               | None => St.raise InvalidContent
               | Some item_content => St.ret item_content
               end)
              is_key_error
              (St.raise InvalidContent);
          St.ret (mkJsonContent item_hash (Some INLINE) item_content content)
      end
  | Some engine =>
      match as_str item_hash with
      | Some h => get_json h engine 2 1
      | None => get_json_of_value item_hash engine 2 1
      end
  | None => St.raise ContentCurrentlyUnavailable
  end.

Definition add_json (v : pyval) (engine : ItemType) : St.t world string :=
  do content <- St.lift (json_dumps v);
  let content := encode_utf8 content in
  do chash <-
    (match engine with
     | IPFS => add_bytes add_ipfs_bytes content default_cid_version
     | Storage => St.ret (sha256_hexdigest content)
     | Inline => St.raise (OtherError "NotImplementedError")
     end);
  do_ set_value set_value_error chash content;
  St.ret chash.

(** The file object is the caller's: it is returned as the call leaves
    it. *)
Definition add_file (fileobject : fileobj) (filename : option string)
    (engine : ItemType) : St.t world (string * fileobj) :=
  do '(file_hash, file_content, fileobject) <-
    (match engine with
     | IPFS =>
         let '(output, pos) := ipfs_add_file fileobject filename in
         let fileobject := file_seek pos fileobject in
         do output <- St.lift output;
         match output !! "Hash"%string with
         | None => St.raise (KeyError "Hash")
         | Some file_hash =>
             let fileobject := file_seek 0 fileobject in
             let '(file_content, fileobject) := file_read fileobject in
             St.ret (file_hash, file_content, fileobject)
         end
     | Storage =>
         let '(file_content, fileobject) := file_read fileobject in
         St.ret (sha256_hexdigest file_content, file_content, fileobject)
     | Inline => St.raise ValueError
     end);
  do_ set_value set_value_error file_hash file_content;
  St.ret (file_hash, fileobject).

End storage_documents.

(** * Vocabulary of the properties *)

(** ** Message admission *)

(** The type guards of [check_message], as the specification words them:
    [item_hash], [chain], [sender] and [signature] are strings, and
    [channel], when present and not null, is a string.  An absent field
    fails its guard. *)
Definition is_string_field (m : msg) (k : string) : bool :=
  bool_decide (is_Some (m !! k ≫= as_str)).

Definition channel_ok (m : msg) : bool :=
  match m !! "channel"%string with
  | None | Some PNone | Some (PStr _) => true
  | Some _ => false
  end.

Definition type_guards (m : msg) : bool :=
  is_string_field m "item_hash" && is_string_field m "chain"
  && channel_ok m
  && is_string_field m "sender" && is_string_field m "signature".

Definition required_fields : list string :=
  [ "item_hash"; "chain"; "sender"; "signature" ]%string.

Definition has_required_fields (m : msg) : Prop :=
  Forall (λ k, is_Some (m !! k)) required_fields.

#[global] Instance has_required_fields_dec m : Decision (has_required_fields m).
Proof. unfold has_required_fields. apply _. Defined.

(** How [check_message] leaves the message once the item type is settled. *)
Definition settled (m m' : msg) : Prop :=
  if is_not_none (get_or_none m "item_content")
  then m' = <["item_type"%string := PItem Inline]> m
  else m' = m ∨ ∃ t, m' = <["item_type"%string := PItem t]> m.

Definition project (m : msg) : msg :=
  filter (λ kv, kv.1 ∈ INCOMING_MESSAGE_AUTHORIZED_FIELDS) m.

(** Stand-ins for the collaborators, used to run the functions. *)
Definition toy_sha256 (v : pyval) : Res.t string :=
  match v with
  | PStr s => Res.ok ("sha256:" ++ s)%string
  | _ => Res.raise TypeError
  end.

Definition sample_register : gmap string verifier :=
  {[ "ETH"%string := λ _, Res.ok true ]}.

Definition no_classifier (h : string) : option ItemType := None.

(** The field [k] of an accepted message: [None] unless the check returned
    a message. *)
Definition accepted_field (r : Res.t (option msg)) (k : string)
  : option (option pyval) :=
  match r with inr (Some m) => Some (m !! k) | _ => None end.

Definition sample_check :=
  check_message sample_register no_classifier toy_sha256.

Definition msg_no_sender : msg :=
  list_to_map [ ("item_hash", PStr "abc"); ("chain", PStr "ETH");
                ("signature", PStr "sig") ]%string.

Definition msg_int_hash : msg :=
  list_to_map [ ("item_hash", PInt 5); ("chain", PStr "ETH");
                ("sender", PStr "s"); ("signature", PStr "sig") ]%string.

Definition msg_inline (content : pyval) : msg :=
  list_to_map [ ("item_hash", PStr "sha256:hi"); ("item_content", content);
                ("chain", PStr "ETH"); ("sender", PStr "s");
                ("signature", PStr "ok"); ("type", PStr "POST");
                ("time", PFloat 10 (-1)); ("confirmations", PBool true)
              ]%string.

Definition oversize_content : pyval :=
  PList (replicate (N.to_nat 200001) PNone).

(** A text of 100,001 characters of two bytes each (the UTF-8 encoding
    [C3 A9]), and an inline message that carries it under its own hash. *)
Definition wide_text : string :=
  String.string_of_list_ascii
    (mjoin (replicate (N.to_nat 100001)
              [Ascii.ascii_of_nat 195; Ascii.ascii_of_nat 169])).

Definition msg_wide : msg :=
  <["item_hash"%string := PStr ("sha256:" ++ wide_text)]>
    (msg_inline (PStr wide_text)).

(** ** Content resolution *)

(** What the peer overlay yields to [get_hash_content]: it is asked only
    when [use_network] is set. *)
Definition overlay_yields (enabled_clients : list string) ipfs_enabled
    streamer_request_hash p2p_http_request_hash add_ipfs_bytes get_sha256
    (use_network : bool) (h : string) (engine : ItemType) (timeout : Z)
  : St.t world (option (list Byte.byte)) :=
  if use_network
  then fetch_content_from_network ipfs_enabled enabled_clients
         streamer_request_hash p2p_http_request_hash add_ipfs_bytes
         get_sha256 h engine timeout
  else St.ret None.

(** What the distributed network yields: it is asked only when the
    subsystem is enabled, the engine is IPFS and [use_ipfs] is set. *)
Definition ipfs_yields (ipfs_enabled : bool) ipfs_get_content
    (use_ipfs : bool) (h : string) (engine : ItemType) (timeout tries : Z)
  : Res.t (option (list Byte.byte)) :=
  if ipfs_enabled && bool_decide (engine = IPFS) && use_ipfs
  then ipfs_get_content h timeout tries
  else Res.ok None.


(** The state once [get_value] has been asked for [h]. *)
Definition asked_store (h : string) (w : world) : world :=
  mkWorld (filestore w) (calls w ++ [CallGetValue h]).

Definition is_add_bytes (c : call) : bool :=
  match c with CallAddIpfsBytes _ _ => true | _ => false end.

(** The last step of a resolve that found [content] outside the local
    store: the write-through, then the result. *)
Definition cache_and_return
    (set_value_error : string → list Byte.byte → option exc)
    (store_value : bool) (h : string) (src : ContentSource)
    (content : list Byte.byte) (w : world) : Res.t RawContent * world :=
  if store_value then
    let w' := mkWorld (filestore w) (calls w ++ [CallSetValue h content]) in
    match set_value_error h content with
    | Some e => (Res.raise e, w')
    | None =>
        (Res.ok (mkRawContent h (Some src) content),
         mkWorld (<[h := content]> (filestore w')) (calls w'))
    end
  else (Res.ok (mkRawContent h (Some src) content), w).

(** The state once the distributed network has been asked. *)
Definition asked_ipfs (h : string) (timeout tries : Z) (w : world) : world :=
  mkWorld (filestore w) (calls w ++ [CallGetIpfsContent h timeout tries]).

Definition toy_cid (content : list Byte.byte) (cid_version : Z)
  : Res.t string :=
  Res.ok ("Qm:" ++ String.string_of_list_byte content)%string.

Definition toy_digest (v : pyval) : Res.t string :=
  match v with
  | PBytes b => Res.ok ("sha256:" ++ String.string_of_list_byte b)%string
  | other => toy_sha256 other
  end.

Definition payload : list Byte.byte := String.list_byte_of_string "payload".
Definition pwned : list Byte.byte := String.list_byte_of_string "pwned".

Definition empty_world : world := mkWorld ∅ [].

(** A node with the IPFS subsystem and the stream client enabled, whose
    stream client answers [stream], whose IPFS client answers [ipfs] and
    whose file store fails its writes with [write_error]. *)
Definition sample_resolve (stream ipfs : option (list Byte.byte))
    (write_error : option exc) :=
  get_hash_content true ["protocol"%string]
    (λ _, Res.ok stream) (λ _ _, Res.ok None) (λ _ _ _, Res.ok ipfs)
    toy_cid toy_digest (λ _ _, write_error).

Definition sample_overlay (stream : option (list Byte.byte)) :=
  overlay_yields ["protocol"%string] true
    (λ _, Res.ok stream) (λ _ _, Res.ok None) toy_cid toy_digest.

Definition sample_verify :=
  verify_content_hash true toy_cid toy_digest.

(** ** The pending jobs *)

(** The document that [handle_pending_tx] inserts for a message extracted
    from a transaction with context [context]. *)
Definition pending_of_tx (context : tx_context) (message : msg)
  : pending_message :=
  mkPendingMessage None
    (<["time"%string := ctx_time context]> message)
    (mkSource (Some (ctx_chain_name context)) (Some (ctx_tx_hash context))
              (Some (ctx_height context)) (Some true)).

(** The chain names for which [retry_messages_job] prepares [seen_ids]. *)
Definition well_known_chains : gset string :=
  {[ "NULS"; "ETH"; "BNB" ]}%string.

Definition unknown_chain (p : pending_message) : Prop :=
  ∀ k, src_chain_name (pm_source p) = Some k → k ∉ well_known_chains.

(** The node after [n] runs of [retry_messages_job]. *)
Definition after_sweeps incoming (n : nat) (nd : node) : node :=
  Nat.iter n (λ nd, (retry_messages_job incoming nd).2) nd.

(** The two steps of [join_pending_message_tasks] around the tasks: the
    gather is noted, and the accumulated actions are written and cleared. *)
Definition note_retry (n : nat) (s : retry_state) : retry_state :=
  mkRetry (seen_ids s) (actions s) (note_gather n (retry_node s)).

Definition flush_retry (s : retry_state) : retry_state :=
  if bool_decide (length (actions s) ≠ 0%nat) then
    mkRetry (seen_ids s) []
      (mkNode (bulk_write (actions s) (PendingMessage (retry_node s)))
              (PendingTX (retry_node s)) (gathered (retry_node s))
              (incoming_calls (retry_node s)))
  else s.

Definition note_txs (n : nat) (s : txs_state) : txs_state :=
  mkTxs (tx_actions s) (note_gather n (txs_node s)).

Definition flush_txs (s : txs_state) : txs_state :=
  if bool_decide (length (tx_actions s) ≠ 0%nat) then
    mkTxs []
      (mkNode (PendingMessage (txs_node s))
              (bulk_write (tx_actions s) (PendingTX (txs_node s)))
              (gathered (txs_node s)) (incoming_calls (txs_node s)))
  else s.

(** The gathers noted since the log was [g], all of at most [bound] tasks. *)
Definition gathers_within (bound : nat) (g : list nat) (nd : node) : Prop :=
  ∃ batches, gathered nd = g ++ batches ∧ Forall (λ n, (n ≤ bound)%nat) batches.

(** A record may be handled while [p] is watched: it is not [p], or its
    chain is unknown. *)
Definition handled_beside (p q : oid * pending_message) : Prop :=
  q.1 = p.1 → unknown_chain q.2.

(** What a sweep keeps true for a record [p] of an unknown chain. *)
Definition keeps_pending (p : oid * pending_message) (s : retry_state) : Prop :=
  dom (seen_ids s) = well_known_chains
  ∧ Forall (λ op, ∃ id, op = DeleteOne id ∧ id ≠ p.1) (actions s)
  ∧ p ∈ PendingMessage (retry_node s)
  ∧ NoDup (PendingMessage (retry_node s)).*1.

(** Stand-ins for [incoming] and [get_chaindata_messages]. *)
Definition incoming_handled (message : msg)
    (chain_name tx_hash : option string) (height : option Z)
    (seen : list pyval) (check retrying : bool) : Res.t pyval * list pyval :=
  (Res.ok (PBool true), seen).

Definition chaindata_unavailable (content : pyval) (context : tx_context)
  : Res.t (option chaindata) :=
  Res.ok None.

Definition chaindata_two (content : pyval) (context : tx_context)
  : Res.t (option chaindata) :=
  Res.ok (Some (Messages [ {[ "a"%string := PInt 1 ]};
                           {[ "a"%string := PInt 2 ]} ])).

Definition record_of_chain (chain : option string) (i : nat)
  : oid * pending_message :=
  (N.of_nat i,
   mkPendingMessage (Some (Z.of_nat i)) ∅ (mkSource chain None None None)).

Definition sample_context : tx_context :=
  mkContext "X" "t" 7 (PInt 100).

Definition tx_record (i : nat) : oid * pending_tx :=
  (N.of_nat i, mkPendingTX (Some (Z.of_nat i)) PNone sample_context).

(** A node with 1000 records in each queue. *)
Definition busy_node : node :=
  mkNode (map (record_of_chain (Some "ETH"%string)) (seq 0 1000))
         (map tx_record (seq 0 1000)) [] [].

(** A node with one record of an unknown chain, one without chain and one
    of a known chain. *)
Definition mixed_node : node :=
  mkNode [ record_of_chain (Some "DOT"%string) 1;
           record_of_chain None 2;
           record_of_chain (Some "ETH"%string) 3 ] [] [] [].

Definition fresh_retry_state (nd : node) : retry_state :=
  mkRetry (<["NULS" := []]> (<["ETH" := []]> (<["BNB" := []]> ∅)))%string
          [] nd.

(** ** Further vocabulary *)

(** The message as [check_message] leaves it before the [trusted] test,
    when it carries no inline content: the item type is the one the hash
    gives, if it gives one. *)
Definition classified (from_hash : string → option ItemType) (h : string)
    (m : msg) : msg :=
  match from_hash h with
  | Some t => <["item_type"%string := PItem t]> m
  | None => m
  end.

(** The message as [check_message] leaves it before the [trusted] test. *)
Definition settled_message (from_hash : string → option ItemType)
    (h : string) (m : msg) : msg :=
  if is_not_none (get_or_none m "item_content")
  then <["item_type"%string := PItem Inline]> m
  else classified from_hash h m.

(** What the end of [check_message] returns for an untrusted message whose
    chain is [chain], once projected to [envelope]. *)
Definition verdict (register : gmap string verifier) (chain : string)
    (envelope : msg) : Res.t (option msg) :=
  match register !! chain with
  | None => Res.ok None
  | Some signer =>
      match signer envelope with
      | inr true => Res.ok (Some envelope)
      | inr false => Res.ok None
      | inl ValueError => Res.ok None
      | inl e => Res.raise e
      end
  end.

(** The calls that reach the peer overlay, and those that reach the IPFS
    daemon. *)
Definition is_overlay_call (c : call) : bool :=
  match c with
  | CallStreamRequestHash _ | CallHttpRequestHash _ _ => true
  | _ => false
  end.

Definition is_ipfs_call (c : call) : bool :=
  match c with
  | CallGetIpfsContent _ _ _ | CallAddIpfsBytes _ _ => true
  | _ => false
  end.

Definition is_http_call (c : call) : bool :=
  match c with CallHttpRequestHash _ _ => true | _ => false end.

(** The version of the identifier that [compute_content_hash_ipfs] asks
    for. *)
Definition cid_version_of (expected_hash : string) : Z :=
  if 58 <=? Z.of_nat (str_len expected_hash) then 1 else 0.

(** The call that the hash check makes, if it makes one. *)
Definition verify_calls (ipfs_enabled : bool) (engine : ItemType)
    (content : list Byte.byte) (expected_hash : string) : list call :=
  if bool_decide (engine = IPFS) && ipfs_enabled
  then [CallAddIpfsBytes content (cid_version_of expected_hash)]
  else [].

(** The hash that the check compares with the expected one. *)
Definition recomputed_hash (ipfs_enabled : bool)
    (add_ipfs_bytes : list Byte.byte → Z → Res.t string)
    (get_sha256 : pyval → Res.t string)
    (engine : ItemType) (content : list Byte.byte) (expected_hash : string)
  : option (Res.t string) :=
  if bool_decide (engine = IPFS) && ipfs_enabled
  then Some (add_ipfs_bytes content (cid_version_of expected_hash))
  else if bool_decide (engine = Storage)
  then Some (get_sha256 (PBytes content))
  else None.

(** What the clients of the peer overlay answer for a hash, before any
    check, and the calls made to get there: the stream client first when it
    is enabled, the HTTP client when it is enabled and the stream client gave
    nothing. *)
Definition overlay_answer (enabled_clients : list string)
    (streamer_request_hash : string → Res.t (option (list Byte.byte)))
    (p2p_http_request_hash : string → Z → Res.t (option (list Byte.byte)))
    (h : string) (timeout : Z)
  : Res.t (option (list Byte.byte)) * list call :=
  let '(first, asked) :=
    if bool_decide ("protocol"%string ∈ enabled_clients)
    then (streamer_request_hash h, [CallStreamRequestHash h])
    else (Res.ok None, []) in
  match first with
  | inr None =>
      if bool_decide ("http"%string ∈ enabled_clients)
      then (p2p_http_request_hash h timeout,
            asked ++ [CallHttpRequestHash h timeout])
      else (first, asked)
  | _ => (first, asked)
  end.

(** The calls logged between two states. *)
Definition new_calls (w w' : world) : list call :=
  drop (length (calls w)) (calls w').

Definition is_delete {D} (op : write_op D) : Prop :=
  ∃ id, op = DeleteOne id.

(** The delete that a handler appends when its record is done with. *)
Definition delete_if {D} (done : bool) (id : oid) : list (write_op D) :=
  if done then [DeleteOne id] else [].

(** [result is True]. *)
Definition is_true (result : Res.t pyval) : bool :=
  match result with inr (PBool true) => true | _ => false end.

(** [messages is not None], for what the extractor answered. *)
Definition is_answer (messages : Res.t (option chaindata)) : bool :=
  match messages with inr (Some _) => true | _ => false end.

(** The record [id] is gone from the queue, or its delete is scheduled. *)
Definition settled_record (id : oid) (s : retry_state) : Prop :=
  id ∉ (PendingMessage (retry_node s)).*1 ∨ DeleteOne id ∈ actions s.

(** ** Further stand-ins *)

(** [P] holds of the message that a check accepted. *)
Definition on_accept (r : Res.t (option msg)) (P : msg → Prop) : Prop :=
  match r with inr (Some m) => P m | _ => False end.

Definition accepts (r : Res.t (option msg)) : bool :=
  match r with inr (Some _) => true | _ => false end.

(** A classifier that knows one kind of hash. *)
Definition storage_classifier (h : string) : option ItemType := Some Storage.

(** A message that refers to stored content. *)
Definition msg_stored : msg :=
  list_to_map [ ("item_hash", PStr "sha256:payload"); ("item_type", PStr "ipfs");
                ("chain", PStr "ETH"); ("sender", PStr "s");
                ("signature", PStr "ok"); ("type", PStr "POST");
                ("time", PInt 1) ]%string.

(** A decoder that knows the texts of a table; any other text is not
    JSON. *)
Definition loads_from (table : list (string * pyval)) (v : pyval)
  : Res.t (option pyval) :=
  match v with
  | PStr s => Res.ok (list_to_map (M := gmap string pyval) table !! s)
  | PBytes b =>
      Res.ok (list_to_map (M := gmap string pyval) table
                !! String.string_of_list_byte b)
  | _ => Res.raise TypeError
  end.

Definition sample_loads : pyval → Res.t (option pyval) :=
  loads_from [ ("payload", PInt 7); ("hi", PStr "hi");
               ("frame",
                PDict [ ("item_hash", PStr "sha256:hi");
                        ("item_content", PStr "hi");
                        ("chain", PStr "ETH"); ("sender", PStr "s");
                        ("signature", PStr "ok"); ("type", PStr "POST");
                        ("time", PInt 1); ("confirmations", PBool true) ])
             ]%string.

Definition sample_decode (b : list Byte.byte) : option string :=
  Some (String.string_of_list_byte b).

Definition sample_incoming_check :=
  incoming_check sample_register no_classifier toy_sha256 sample_decode
    (λ s, s) sample_loads.

Definition sample_frame : gmap string (list Byte.byte) :=
  {[ "data"%string := String.list_byte_of_string "frame" ]}.

Definition sample_dumps (v : pyval) : Res.t string :=
  match v with PStr s => Res.ok s | _ => Res.raise TypeError end.

Definition sample_hexdigest (b : list Byte.byte) : string :=
  ("sha256:" ++ String.string_of_list_byte b)%string.

Definition sample_item_type (s : string) : option ItemType :=
  if bool_decide (s = "inline"%string) then Some Inline
  else if bool_decide (s = "ipfs"%string) then Some IPFS
  else if bool_decide (s = "storage"%string) then Some Storage
  else None.

Definition sample_ipfs_add_file (f : fileobj) (name : option string)
  : Res.t (gmap string string) * nat :=
  (Res.ok {[ "Hash"%string := "Qm:file"%string ]}, length (f_data f)).

Definition sample_get_json (stream : option (list Byte.byte)) :=
  get_json true ["protocol"%string]
    (λ _, Res.ok stream) (λ _ _, Res.ok None) (λ _ _ _, Res.ok None)
    toy_cid toy_digest (λ _ _, None) sample_loads.

(** A store and a network that hold nothing under a key that is not a
    string. *)
Definition sample_get_json_of_value (item_hash : pyval) (engine : ItemType)
    (timeout tries : Z) : St.t world JsonContent :=
  St.raise ContentCurrentlyUnavailable.

Definition sample_message_content :=
  get_message_content true ["protocol"%string]
    (λ _, Res.ok None) (λ _ _, Res.ok None) (λ _ _ _, Res.ok None)
    toy_cid toy_digest (λ _ _, None) sample_loads sample_item_type
    sample_get_json_of_value.

Definition sample_add_json :=
  add_json toy_cid (λ _ _, None) sample_dumps String.list_byte_of_string
    sample_hexdigest 0.

Definition sample_add_file :=
  add_file (λ _ _, None) sample_hexdigest sample_ipfs_add_file.

Definition sample_fetch (clients : list string)
    (stream http : option (list Byte.byte)) :=
  fetch_content_from_network true clients
    (λ _, Res.ok stream) (λ _ _, Res.ok http) toy_cid toy_digest.

Definition chaindata_bogus (content : pyval) (context : tx_context)
  : Res.t (option chaindata) :=
  Res.ok (Some (Sentinel (PInt (-1)))).

(** ** The jobs on the event loop *)

(** What holds of the loop of a job as long as no task has raised: outside
    a gather no task is in flight, and a gather holds at most [bound + 1]
    tasks. *)
Definition calm {R S} (bound : Z) (l : event_loop S (job_at R S)) : Prop :=
  raised l = false
  ∧ Forall (λ t, awaited t = true) (in_flight l)
  ∧ match job l with
    | Iterating cursor tasks i =>
        in_flight l = [] ∧ i = Z.of_nat (length tasks) ∧ i ≤ bound
    | Gathering rest => Z.of_nat (length (in_flight l)) ≤ bound + 1
    | Writing rest => in_flight l = []
    | Returned => in_flight l = []
    end.

(** A queue of 1000 records whose first is of a chain that [seen_ids] does
    not hold. *)
Definition stalled_node : node :=
  mkNode (record_of_chain (Some "DOT"%string) 0
          :: map (record_of_chain (Some "ETH"%string)) (seq 1 999))
         [] [] [].

(** The message job when its first gather has been launched and each of
    its tasks has made its first step; the same for the transaction job;
    and the message job on [stalled_node] when, the first task having
    raised, the job has gone on and launched its second gather. *)
Definition messages_launched :=
  retry_messages_run incoming_handled
    (replicate 201 JobTurn ++ (TaskTurn <$> seq 0 201)) busy_node.

Definition txs_launched :=
  handle_txs_run chaindata_two
    (replicate 101 JobTurn ++ (TaskTurn <$> seq 0 101)) busy_node.

Definition messages_piled_up :=
  retry_messages_run incoming_handled
    (replicate 201 JobTurn ++ [TaskTurn 0] ++ (TaskTurn <$> seq 0 200)
     ++ replicate 202 JobTurn)
    stalled_node.

(** [incoming] returns [True] for the record, whatever it has seen. *)
Definition always_handled
    (incoming :
       msg → option string → option string → option Z → list pyval →
       bool → bool → Res.t pyval * list pyval)
    (p : oid * pending_message) : Prop :=
  ∀ seen,
    (incoming (pm_message p.2) (src_chain_name (pm_source p.2))
       (src_tx_hash (pm_source p.2)) (src_height (pm_source p.2)) seen
       (default true (src_check_message (pm_source p.2))) true).1
    = Res.ok (PBool true).

(** The coroutine is the handler of [p]: not started, or suspended in
    [incoming]. *)
Definition handles
    (incoming :
       msg → option string → option string → option Z → list pyval →
       bool → bool → Res.t pyval * list pyval)
    (p : oid * pending_message) (f : routine retry_state) : Prop :=
  f = handle_pending_message_task incoming p
  ∨ ∃ chain, f = incoming_returns incoming p chain.

(** The identifiers of the queue are distinct and the actions are all
    deletes. *)
Definition deletes_only (s : retry_state) : Prop :=
  NoDup (PendingMessage (retry_node s)).*1 ∧ Forall is_delete (actions s).

(** Where the record [q] is in a sweep as long as no task has raised: yet
    to come from the cursor, with a task of the gather under way, with its
    delete among the actions, or gone from the queue. *)
Definition tracked
    (incoming :
       msg → option string → option string → option Z → list pyval →
       bool → bool → Res.t pyval * list pyval)
    (q : oid * pending_message)
    (l : event_loop retry_state (job_at (oid * pending_message) retry_state))
  : Prop :=
  deletes_only (shared l) ∧ raised l = false
  ∧ Forall (λ t, awaited t = true ∧ ∃ p, handles incoming p (body t))
           (in_flight l)
  ∧ match job l with
    | Iterating cursor tasks i =>
        in_flight l = []
        ∧ Forall (λ f, ∃ p, f = handle_pending_message_task incoming p) tasks
        ∧ (q ∈ cursor
           ∨ handle_pending_message_task incoming q ∈ tasks
           ∨ q.1 ∉ (PendingMessage (retry_node (shared l))).*1)
    | Gathering rest =>
        q ∈ default [] rest
        ∨ (∃ n t, in_flight l !! n = Some t ∧ handles incoming q (body t))
        ∨ settled_record q.1 (shared l)
    | Writing rest =>
        in_flight l = []
        ∧ (q ∈ default [] rest
           ∨ q.1 ∉ (PendingMessage (retry_node (shared l))).*1)
    | Returned =>
        in_flight l = []
        ∧ q.1 ∉ (PendingMessage (retry_node (shared l))).*1
    end.

(** A queue of two records of known chains, and a sweep of it to its end:
    the job gathers the two tasks, they make their first step, the second
    ends, then the first, and the job writes the actions and returns. *)
Definition known_node : node :=
  mkNode [ record_of_chain (Some "ETH"%string) 1;
           record_of_chain (Some "BNB"%string) 2 ] [] [] [].

Definition known_node_swept :=
  retry_messages_run incoming_handled
    (replicate 3 JobTurn ++ [TaskTurn 0; TaskTurn 1; TaskTurn 1; TaskTurn 0]
     ++ [JobTurn; JobTurn])
    known_node.

(** Two sweeps of [mixed_node], whose first two tasks raise.  In the
    first the third task is still suspended in [incoming] when the job
    resumes from the gather: the job returns, and the task ends after it.
    In the second the task ends before the job resumes. *)
Definition sweep_with_late_task :=
  retry_messages_run incoming_handled
    (replicate 4 JobTurn ++ [TaskTurn 0; TaskTurn 0; TaskTurn 0]
     ++ [JobTurn; TaskTurn 0])
    mixed_node.

Definition sweep_with_prompt_task :=
  retry_messages_run incoming_handled
    (replicate 4 JobTurn ++ [TaskTurn 0; TaskTurn 0; TaskTurn 0; TaskTurn 0]
     ++ [JobTurn; JobTurn])
    mixed_node.

(** The coroutine keeps [I]: each of its steps takes shared objects that
    satisfy [I] to shared objects that do, however it ends. *)
Fixpoint keeps {S} (I : S → Prop) (c : coro S) : Prop :=
  match c with
  | Ret _ => True
  | Await resume => ∀ s, I s → I (resume s).1 ∧ keeps I (resume s).2
  end.

(** What holds of the loop of a job all along when the handlers of the
    records of its cursor keep [I]. *)
Definition steady {R S} (I : S → Prop) (handler : R → routine S)
    (l : event_loop S (job_at R S)) : Prop :=
  I (shared l)
  ∧ Forall (λ t, keeps I (Await (body t))) (in_flight l)
  ∧ match job l with
    | Iterating cursor tasks i =>
        Forall (λ f, keeps I (Await f)) tasks
        ∧ Forall (λ p, keeps I (Await (handler p))) cursor
    | Gathering rest | Writing rest =>
        Forall (λ p, keeps I (Await (handler p))) (default [] rest)
    | Returned => True
    end.

(** The node after sweeps of the pending messages, one for each schedule of
    the list.  A task that a sweep leaves in the loop has no hand on the
    queues: the actions that it appends are never written. *)
Definition after_runs incoming (schedules : list (list turn)) (nd : node)
  : node :=
  foldl (λ nd schedule,
           retry_node (shared (retry_messages_run incoming schedule nd)))
        nd schedules.

(** * Properties *)

(** ** Message admission *)

Section network_facts.
Variable VERIFIER_REGISTER : gmap string verifier.
Variable from_hash : string → option ItemType.
Variable get_sha256 : pyval → Res.t string.

Local Abbreviation check :=
  (check_message VERIFIER_REGISTER from_hash get_sha256).

Lemma verify_untrusted_accepts m r :
  verify_untrusted VERIFIER_REGISTER m = Res.ok (Some r) → r = project m.
Proof.
  unfold verify_untrusted, project.
  repeat case_match; intros; simplify_eq/=; done.
Qed.

Lemma finish_check_accepts m tr r :
  finish_check VERIFIER_REGISTER m tr = Res.ok (Some r) →
  r = if tr then m else project m.
Proof.
  unfold finish_check. destruct tr.
  - by intros [= ->].
  - apply verify_untrusted_accepts.
Qed.

Lemma check_content_accepts m h tr r :
  check_content VERIFIER_REGISTER from_hash get_sha256 m h tr
    = Res.ok (Some r) →
  ∃ m', settled m m' ∧ r = if tr then m' else project m'.
Proof.
  unfold check_content, settled.
  destruct (is_not_none _).
  - unfold Res.bind. repeat case_match; try done;
      intros ?%finish_check_accepts; eauto.
  - case_match; intros ?%finish_check_accepts; eauto 6.
Qed.

Lemma check_message_accepts m fc fn tr r :
  check m fc fn tr = Res.ok (Some r) →
  type_guards m = true ∧
  ∃ m', settled m m' ∧ r = if tr then m' else project m'.
Proof.
  unfold check_message, getitem, Res.bind, type_guards,
    is_string_field, channel_ok, get_or_none.
  destruct (m !! "item_hash"%string) as [[]|] eqn:E1; try done; simpl.
  destruct (m !! "chain"%string) as [[]|] eqn:E2; try done; simpl.
  destruct (m !! "channel"%string) as [[]|] eqn:E3; try done; simpl.
  all: destruct (m !! "sender"%string) as [[]|] eqn:E4; try done; simpl.
  all: destruct (m !! "signature"%string) as [[]|] eqn:E5; try done; simpl.
  all: intros H; split; [done|]; by eapply check_content_accepts.
Qed.


Lemma check_message_unfold m fc fn tr :
  has_required_fields m →
  check m fc fn tr =
    match m !! "item_hash"%string ≫= as_str with
    | Some h =>
        if type_guards m
        then check_content VERIFIER_REGISTER from_hash get_sha256 m h tr
        else Res.ok None
    | None => Res.ok None
    end.
Proof.
  unfold has_required_fields, required_fields.
  rewrite !Forall_cons.
  intros ([v1 E1] & [v2 E2] & [v3 E3] & [v4 E4] & _).
  unfold check_message, getitem, Res.bind, type_guards,
    is_string_field, channel_ok, get_or_none.
  rewrite E1, E2, E3, E4. simpl.
  destruct v1; try done; simpl.
  destruct v2; try done; simpl.
  destruct (m !! "channel"%string) as [[]|]; try done; simpl.
  all: destruct v3; try done; simpl.
  all: destruct v4; try done.
Qed.

(** C2, as amended: a failed type guard yields null as long as the four
    required fields are there; in any case a failed guard ends in null or
    in the [KeyError] of a required field that is absent. *)
Theorem check_message_guard_failure m fc fn tr :
  type_guards m = false →
  (has_required_fields m → check m fc fn tr = Res.ok None) ∧
  (check m fc fn tr = Res.ok None ∨
   ∃ k, k ∈ required_fields ∧ m !! k = None ∧
        check m fc fn tr = Res.raise (KeyError k)).
Proof.
  intros Hg. split.
  - intros Hreq. rewrite check_message_unfold by done.
    rewrite Hg. by case_match.
  - revert Hg.
    unfold check_message, getitem, Res.bind, type_guards,
      is_string_field, channel_ok, get_or_none, required_fields.
    destruct (m !! "item_hash"%string) as [[]|] eqn:E1; simpl;
      [auto..| |auto|auto|auto|auto|]; cycle 1.
    { right. exists "item_hash"%string. set_solver. }
    destruct (m !! "chain"%string) as [[]|] eqn:E2; simpl;
      [auto..| |auto|auto|auto|auto|]; cycle 1.
    { right. exists "chain"%string. set_solver. }
    destruct (m !! "channel"%string) as [[]|] eqn:E3; simpl; auto.
    all: destruct (m !! "sender"%string) as [[]|] eqn:E4; simpl;
      [auto..| |auto|auto|auto|auto|]; cycle 1.
    all: try (right; exists "sender"%string; set_solver).
    all: destruct (m !! "signature"%string) as [[]|] eqn:E5; simpl;
      [auto..| |auto|auto|auto|auto|]; cycle 1.
    all: try (right; exists "signature"%string; set_solver).
    all: done.
Qed.

(** C6, as amended: the checks on inline content of an untrusted message
    that carries the four required fields and whose content has a length,
    which for a text is the number of its characters. *)
Theorem check_message_inline_content m fc fn content n :
  has_required_fields m →
  m !! "item_content"%string = Some content →
  content ≠ PNone →
  py_len content = Res.ok n →
  (MAX_INLINE_SIZE < n → check m fc fn false = Res.ok None) ∧
  (∀ computed,
     m !! "hash_type"%string = None
     ∨ m !! "hash_type"%string = Some (PStr "sha256") →
     get_sha256 content = Res.ok computed →
     m !! "item_hash"%string ≠ Some (PStr computed) →
     check m fc fn false = Res.ok None) ∧
  (∀ v, m !! "hash_type"%string = Some v → v ≠ PStr "sha256" →
        check m fc fn false = Res.ok None) ∧
  (∀ r, check m fc fn false = Res.ok (Some r) →
        r !! "item_type"%string = Some (PItem Inline)).
Proof.
  intros Hreq Hc Hnn Hlen.
  assert (Hnot : is_not_none (get_or_none m "item_content") = true).
  { unfold get_or_none. rewrite Hc. by destruct content. }
  split_and!.
  - intros Hbig. rewrite check_message_unfold by done.
    repeat case_match; try done.
    unfold check_content, getitem. rewrite Hnot, Hc. simpl. rewrite Hlen.
    simpl. by rewrite (proj2 (Z.ltb_lt _ _) Hbig).
  - intros computed Hty Hsha Hne. rewrite check_message_unfold by done.
    destruct (m !! "item_hash"%string) as [v|] eqn:E; [|done]. simpl.
    destruct (as_str v) as [h|] eqn:Ev; [|done].
    destruct v; simplify_eq/=.
    case_match; [|done].
    unfold check_content, getitem. rewrite Hnot, Hc. simpl. rewrite Hlen.
    simpl. case_match; [done|].
    assert (py_eq_str (default (PStr "sha256") (m !! "hash_type"%string))
              "sha256" = true) as ->.
    { by destruct Hty as [-> | ->]. }
    rewrite Hsha. simpl. rewrite bool_decide_true; [done|congruence].
  - intros v Hv Hne. rewrite check_message_unfold by done.
    repeat case_match; try done.
    unfold check_content, getitem. rewrite Hnot, Hc. simpl. rewrite Hlen.
    simpl. case_match; [done|]. rewrite Hv. simpl.
    assert (py_eq_str v "sha256" = false) as ->; [|done].
    destruct v; try done. simpl. apply bool_decide_eq_false. congruence.
  - intros r (_ & m' & Hset & ->)%check_message_accepts.
    unfold settled in Hset. rewrite Hnot in Hset. subst m'.
    unfold project. apply map_lookup_filter_Some. split.
    + apply lookup_insert_eq.
    + simpl. unfold INCOMING_MESSAGE_AUTHORIZED_FIELDS. set_solver.
Qed.

(** C8: fields outside the whitelist are dropped from the result for an
    untrusted message and kept for a trusted one. *)
Theorem check_message_whitelist m fc fn k :
  k ∉ INCOMING_MESSAGE_AUTHORIZED_FIELDS →
  (∀ r, check m fc fn false = Res.ok (Some r) → r !! k = None) ∧
  (∀ r, check m fc fn true = Res.ok (Some r) → r !! k = m !! k).
Proof.
  intros Hk. split.
  - intros r (_ & m' & _ & ->)%check_message_accepts.
    unfold project. apply map_lookup_filter_None. right. intros v _. done.
  - intros r (_ & m' & Hset & ->)%check_message_accepts.
    assert (k ≠ "item_type"%string).
    { intros ->. apply Hk. unfold INCOMING_MESSAGE_AUTHORIZED_FIELDS.
      set_solver. }
    unfold settled in Hset. destruct (is_not_none _).
    + subst m'. by rewrite lookup_insert_ne.
    + destruct Hset as [-> | [t ->]]; [done|]. by rewrite lookup_insert_ne.
Qed.

End network_facts.

(** C2, counterexample: a required field that is absent raises. *)
Lemma check_message_absent_field_raises :
  type_guards msg_no_sender = false ∧
  sample_check msg_no_sender false true false = Res.raise (KeyError "sender").
Proof. split; vm_compute; reflexivity. Qed.

(** C6, counterexamples: with [sender] absent an oversize content ends in
    [KeyError], not in null; a content without length ends in [TypeError];
    and a text of 200,002 bytes is accepted, its 100,001 characters being
    what [len] counts. *)
Lemma check_message_inline_content_raises :
  sample_check (delete "sender"%string (msg_inline oversize_content))
    false true false = Res.raise (KeyError "sender")
  ∧ sample_check (msg_inline (PInt 5)) false true false = Res.raise TypeError
  ∧ MAX_INLINE_SIZE < Z.of_nat (String.length wide_text)
  ∧ accepted_field (sample_check msg_wide false true false) "item_type"
    = Some (Some (PItem Inline)).
Proof. split_and!; vm_compute; reflexivity. Qed.

Lemma check_message_guard_failure_witness :
  sample_check msg_int_hash false true false = Res.ok None.
Proof.
  refine (proj1 (check_message_guard_failure sample_register no_classifier
                   toy_sha256 msg_int_hash false true false _) _).
  - vm_compute; reflexivity.
  - apply (bool_decide_unpack _). vm_compute; exact I.
Defined.

Lemma check_message_inline_content_witness :
  sample_check (msg_inline (PStr "hi!")) false true false = Res.ok None.
Proof.
  refine (proj1 (proj2 (check_message_inline_content sample_register
            no_classifier toy_sha256 (msg_inline (PStr "hi!")) false true
            (PStr "hi!") 3 _ _ _ _)) "sha256:hi!"%string _ _ _).
  - apply (bool_decide_unpack _). vm_compute; exact I.
  - vm_compute; reflexivity.
  - discriminate.
  - reflexivity.
  - left. vm_compute; reflexivity.
  - reflexivity.
  - vm_compute. discriminate.
Defined.

Example check_message_inline_accepted :
  accepted_field (sample_check (msg_inline (PStr "hi")) false true false)
    "item_type" = Some (Some (PItem Inline)).
Proof. vm_compute; reflexivity. Qed.

Example check_message_oversize_rejected :
  sample_check (msg_inline oversize_content) false true false = Res.ok None.
Proof. vm_compute; reflexivity. Qed.

Lemma check_message_whitelist_witness :
  accepted_field (sample_check (msg_inline (PStr "hi")) false true false)
    "confirmations" = Some None
  ∧ accepted_field (sample_check (msg_inline (PStr "hi")) false true true)
      "confirmations" = Some (Some (PBool true)).
Proof.
  destruct (check_message_whitelist sample_register no_classifier toy_sha256
              (msg_inline (PStr "hi")) false true "confirmations") as [H1 H2].
  { apply (bool_decide_unpack _). vm_compute; exact I. }
  assert (A1 : is_Some (accepted_field
            (sample_check (msg_inline (PStr "hi")) false true false)
            "confirmations")).
  { apply (bool_decide_unpack _). vm_compute; exact I. }
  assert (A2 : is_Some (accepted_field
            (sample_check (msg_inline (PStr "hi")) false true true)
            "confirmations")).
  { apply (bool_decide_unpack _). vm_compute; exact I. }
  assert (L : msg_inline (PStr "hi") !! "confirmations"%string
              = Some (PBool true)).
  { vm_compute; reflexivity. }
  unfold sample_check in *. split.
  - destruct (check_message _ _ _ _ _ _ false) as [e|[r|]] eqn:E.
    + by destruct A1.
    + simpl. f_equal. exact (H1 r eq_refl).
    + by destruct A1.
  - destruct (check_message _ _ _ _ _ _ true) as [e|[r|]] eqn:E.
    + by destruct A2.
    + simpl. f_equal. rewrite <- L. exact (H2 r eq_refl).
    + by destruct A2.
Defined.

(** ** Content resolution *)

Section storage_facts.
Variable ipfs_enabled : bool.
Variable enabled_clients : list string.
Variable streamer_request_hash : string → Res.t (option (list Byte.byte)).
Variable p2p_http_request_hash : string → Z → Res.t (option (list Byte.byte)).
Variable ipfs_get_content : string → Z → Z → Res.t (option (list Byte.byte)).
Variable add_ipfs_bytes : list Byte.byte → Z → Res.t string.
Variable get_sha256 : pyval → Res.t string.
Variable set_value_error : string → list Byte.byte → option exc.

Local Abbreviation verify :=
  (verify_content_hash ipfs_enabled add_ipfs_bytes get_sha256).
Local Abbreviation fetch :=
  (fetch_content_from_network ipfs_enabled enabled_clients
     streamer_request_hash p2p_http_request_hash add_ipfs_bytes get_sha256).
Local Abbreviation resolve :=
  (get_hash_content ipfs_enabled enabled_clients streamer_request_hash
     p2p_http_request_hash ipfs_get_content add_ipfs_bytes get_sha256
     set_value_error).
Local Abbreviation overlay :=
  (overlay_yields enabled_clients ipfs_enabled streamer_request_hash
     p2p_http_request_hash add_ipfs_bytes get_sha256).
Local Abbreviation distributed := (ipfs_yields ipfs_enabled ipfs_get_content).

Local Ltac run :=
  unfold St.bind, St.ret, St.raise, St.lift, St.gets, St.modify,
    St.try_except, Res.ok, Res.raise in *; simpl in *.

(** The hash check reads the configuration and the hashing services only:
    its outcome does not depend on the state it starts from, and it leaves
    the file store alone. *)
Lemma verify_content_hash_frame content engine expected w :
  filestore (verify content engine expected w).2 = filestore w
  ∧ ∀ w0, (verify content engine expected w0).1
          = (verify content engine expected w).1.
Proof.
  unfold verify_content_hash, compute_content_hash_ipfs,
    compute_content_hash_sha256, add_bytes, log_call, is_timeout. run.
  destruct (bool_decide (engine = IPFS) && ipfs_enabled); run.
  - destruct (add_ipfs_bytes _ _) as [e|h]; run.
    + destruct (bool_decide (e = TimeoutError)); done.
    + by destruct (bool_decide (h ≠ expected)).
  - destruct (bool_decide (engine = Storage)); run; [|done].
    destruct (get_sha256 _) as [e|h]; run; [done|].
    by destruct (bool_decide (h ≠ expected)).
Qed.

Lemma fetch_content_from_network_frame h engine timeout w :
  filestore (fetch h engine timeout w).2 = filestore w.
Proof.
  unfold fetch_content_from_network, request_hash, http_request_hash,
    log_call. run.
  destruct (bool_decide ("protocol"%string ∈ enabled_clients)); run.
  - destruct (streamer_request_hash h) as [e|[c|]]; run; [done| |].
    + pose proof (verify_content_hash_frame c engine h
        (mkWorld (filestore w) (calls w ++ [CallStreamRequestHash h])))
        as [Hf _].
      destruct (verify _ _ _ _) as [[]]; done.
    + destruct (bool_decide ("http"%string ∈ enabled_clients)); run; [|done].
      destruct (p2p_http_request_hash h timeout) as [e|[c|]]; run;
        [done| |done].
      pose proof (verify_content_hash_frame c engine h
        (mkWorld (filestore w)
           ((calls w ++ [CallStreamRequestHash h])
              ++ [CallHttpRequestHash h timeout]))) as [Hf _].
      destruct (verify _ _ _ _) as [[]]; done.
  - destruct (bool_decide ("http"%string ∈ enabled_clients)); run; [|done].
    destruct (p2p_http_request_hash h timeout) as [e|[c|]]; run;
      [done| |done].
    pose proof (verify_content_hash_frame c engine h
      (mkWorld (filestore w) (calls w ++ [CallHttpRequestHash h timeout])))
      as [Hf _].
    destruct (verify _ _ _ _) as [[]]; done.
Qed.

(** Bytes that [fetch_content_from_network] returns passed the check. *)
Lemma fetch_content_from_network_verified h engine timeout w c w' :
  fetch h engine timeout w = (Res.ok (Some c), w') →
  ∀ w0, (verify c engine h w0).1 = Res.ok tt.
Proof.
  unfold fetch_content_from_network, request_hash, http_request_hash,
    log_call. run.
  intros Hrun w0.
  repeat match type of Hrun with
  | context [bool_decide ?P] => destruct (bool_decide P); run
  | context [streamer_request_hash ?x] =>
      destruct (streamer_request_hash x) as [?|[?|]]; run
  | context [p2p_http_request_hash ?x ?y] =>
      destruct (p2p_http_request_hash x y) as [?|[?|]]; run
  end; try done.
  all: match type of Hrun with
       | context [verify ?c ?e ?x ?w1] =>
           pose proof (verify_content_hash_frame c e x w1) as [_ Hv];
           specialize (Hv w0);
           destruct (verify c e x w1) as [[? | []] ?]; simplify_eq/=
       end.
  all: exact Hv.
Qed.


(** [get_hash_content], one source after the other. *)
Lemma get_hash_content_run h engine timeout tries un ui sv w :
  resolve h engine timeout tries un ui sv w =
    match filestore w !! h with
    | Some b => (Res.ok (mkRawContent h (Some DB) b), asked_store h w)
    | None =>
        match overlay un h engine timeout (asked_store h w) with
        | (inl e, w2) => (inl e, w2)
        | (inr (Some b), w2) =>
            cache_and_return set_value_error sv h P2P b w2
        | (inr None, w2) =>
            match distributed ui h engine timeout tries with
            | inl e => (inl e, asked_ipfs h timeout tries w2)
            | inr (Some b) =>
                cache_and_return set_value_error sv h SRC_IPFS b
                  (asked_ipfs h timeout tries w2)
            | inr None =>
                (Res.raise ContentCurrentlyUnavailable,
                 if ipfs_enabled && bool_decide (engine = IPFS) && ui
                 then asked_ipfs h timeout tries w2 else w2)
            end
        end
    end.
Proof.
  unfold get_hash_content, get_value, get_ipfs_content, set_value, log_call,
    overlay_yields, ipfs_yields, cache_and_return, asked_store, asked_ipfs.
  run.
  destruct (filestore w !! h) as [b|] eqn:Hdb; run.
  { rewrite andb_false_r. done. }
  destruct un; run.
  - destruct (fetch _ _ _ _) as [[e|[b|]] w2]; run; [done| |].
    + rewrite andb_true_r. destruct sv; run; [|done].
      by destruct (set_value_error h b).
    + destruct (ipfs_enabled && bool_decide (engine = IPFS) && ui); run;
        [|done].
      destruct (ipfs_get_content h timeout tries) as [e|[b|]]; run;
        [done| |done].
      rewrite andb_true_r. destruct sv; run; [|done].
      by destruct (set_value_error h b).
  - destruct (ipfs_enabled && bool_decide (engine = IPFS) && ui); run;
      [|done].
    destruct (ipfs_get_content h timeout tries) as [e|[b|]]; run;
      [done| |done].
    rewrite andb_true_r. destruct sv; run; [|done].
    by destruct (set_value_error h b).
Qed.

Lemma overlay_yields_frame un h engine timeout w :
  filestore (overlay un h engine timeout w).2 = filestore w.
Proof.
  unfold overlay_yields. destruct un; [|done].
  apply fetch_content_from_network_frame.
Qed.


(** C1, as amended: bytes returned with source P2P passed
    [verify_content_hash], a resolve that raises leaves the local store as
    it was, and bytes of the distributed network go from the fetch
    straight to the write-through and the result. *)
Theorem get_hash_content_verifies_overlay
    h engine timeout tries un ui sv w :
  (∀ r w', resolve h engine timeout tries un ui sv w = (Res.ok r, w') →
     source r = Some P2P →
     ∀ w0, (verify (value r) engine h w0).1 = Res.ok tt) ∧
  (∀ e w', resolve h engine timeout tries un ui sv w = (Res.raise e, w') →
     filestore w' = filestore w) ∧
  (∀ b w2, filestore w !! h = None →
     overlay un h engine timeout (asked_store h w) = (Res.ok None, w2) →
     distributed ui h engine timeout tries = Res.ok (Some b) →
     resolve h engine timeout tries un ui sv w
     = cache_and_return set_value_error sv h SRC_IPFS b
         (asked_ipfs h timeout tries w2)).
Proof.
  split_and!.
  - intros r w'. rewrite get_hash_content_run.
    destruct (filestore w !! h) as [b|]; [by intros [= <- <-]|].
    destruct (overlay _ _ _ _ _) as [[e|[b|]] w2] eqn:Hov; [done| |].
    + unfold cache_and_return, overlay_yields in *.
      destruct un; [|done].
      intros Hr _.
      assert (value r = b) as ->.
      { destruct sv; [destruct (set_value_error h b)|]; by simplify_eq/=. }
      by eapply fetch_content_from_network_verified.
    + unfold cache_and_return.
      destruct (distributed _ _ _ _ _) as [e|[b|]]; [done| |done].
      destruct sv; [destruct (set_value_error h b)|];
        intros; by simplify_eq/=.
  - intros e w'. rewrite get_hash_content_run.
    destruct (filestore w !! h) as [b|]; [done|].
    pose proof (overlay_yields_frame un h engine timeout (asked_store h w))
      as Hfr.
    destruct (overlay _ _ _ _ _) as [[e'|[b|]] w2]; simpl in Hfr.
    + by intros [= <- <-].
    + unfold cache_and_return.
      destruct sv; [destruct (set_value_error h b)|];
        intros; by simplify_eq/=.
    + unfold cache_and_return.
      destruct (distributed _ _ _ _ _) as [e'|[b|]].
      * by intros [= <- <-].
      * destruct sv; [destruct (set_value_error h b)|];
          intros; by simplify_eq/=.
      * intros [= <- <-]. by case_match.
  - intros b w2 Hdb Hov Hip. by rewrite get_hash_content_run, Hdb, Hov, Hip.
Qed.

(** C3, as amended: a write-through that fails makes the resolve fail with
    the exception of the write; the local store is left as it was. *)
Theorem get_hash_content_write_failure
    h engine timeout tries un ui w b e w2 :
  filestore w !! h = None →
  overlay un h engine timeout (asked_store h w) = (Res.ok (Some b), w2)
  ∨ (overlay un h engine timeout (asked_store h w) = (Res.ok None, w2)
     ∧ distributed ui h engine timeout tries = Res.ok (Some b)) →
  set_value_error h b = Some e →
  (resolve h engine timeout tries un ui true w).1 = Res.raise e
  ∧ filestore (resolve h engine timeout tries un ui true w).2 = filestore w.
Proof.
  intros Hdb Hfound Hset.
  pose proof (overlay_yields_frame un h engine timeout (asked_store h w))
    as Hfr.
  rewrite get_hash_content_run, Hdb.
  destruct Hfound as [Hov | [Hov Hip]]; rewrite Hov in *;
    [|rewrite Hip]; unfold cache_and_return, Res.ok; simpl;
    by rewrite Hset.
Qed.

(** C7: after a resolve with [store_value] that found the bytes outside
    the local store, the next resolve of the hash finds them there. *)
Theorem get_hash_content_write_through
    h engine timeout tries un ui w r w' :
  resolve h engine timeout tries un ui true w = (Res.ok r, w') →
  source r ≠ Some DB →
  ∀ engine' timeout' tries' un' ui' sv',
    resolve h engine' timeout' tries' un' ui' sv' w'
    = (Res.ok (mkRawContent h (Some DB) (value r)), asked_store h w').
Proof.
  intros Hrun Hsrc engine' timeout' tries' un' ui' sv'.
  assert (filestore w' !! h = Some (value r)) as Hdb.
  { revert Hrun. rewrite get_hash_content_run.
    destruct (filestore w !! h) as [b|]; [by intros [= <- <-]|].
    destruct (overlay _ _ _ _ _) as [[e|[b|]] w2]; [done| |].
    - unfold cache_and_return. destruct (set_value_error h b); [done|].
      intros [= <- <-]. apply lookup_insert_eq.
    - destruct (distributed _ _ _ _ _) as [e|[b|]]; [done| |done].
      unfold cache_and_return. destruct (set_value_error h b); [done|].
      intros [= <- <-]. apply lookup_insert_eq. }
  by rewrite get_hash_content_run, Hdb.
Qed.

End storage_facts.

Lemma run_eq {A S} (p : Res.t A * S) (r : Res.t A) : p.1 = r → p = (r, p.2).
Proof. destruct p. by intros <-. Qed.

(** C1, counterexample: bytes of the distributed network that do not hash
    to the requested identifier are cached and returned. *)
Lemma get_hash_content_ipfs_unverified :
  let out := sample_resolve None (Some pwned) None
               "Qm:payload" IPFS 2 1 true true true empty_world in
  out.1 = Res.ok (mkRawContent "Qm:payload" (Some SRC_IPFS) pwned)
  ∧ filestore out.2 !! "Qm:payload"%string = Some pwned
  ∧ forallb (λ c, negb (is_add_bytes c)) (calls out.2) = true
  ∧ (sample_verify pwned IPFS "Qm:payload" out.2).1 = Res.raise InvalidContent.
Proof. split_and!; vm_compute; reflexivity. Qed.

Lemma get_hash_content_verifies_overlay_witness :
  (sample_verify payload Storage "sha256:payload" empty_world).1 = Res.ok tt.
Proof.
  refine (proj1 (get_hash_content_verifies_overlay true ["protocol"%string]
            (λ _, Res.ok (Some payload)) (λ _ _, Res.ok None)
            (λ _ _ _, Res.ok None) toy_cid toy_digest (λ _ _, None)
            "sha256:payload" Storage 2 1 true true true empty_world)
          (mkRawContent "sha256:payload" (Some P2P) payload) _ _ _
          empty_world).
  - apply run_eq. vm_compute; reflexivity.
  - reflexivity.
Defined.

(** Scenario S5: corrupted bytes from the overlay. *)
Example get_hash_content_corrupt_overlay :
  let out := sample_resolve (Some pwned) None None
               "sha256:payload" Storage 2 1 true true true empty_world in
  out.1 = Res.raise InvalidContent ∧ filestore out.2 = ∅.
Proof. split; vm_compute; reflexivity. Qed.

(** C3, counterexample: the write-through fails and so does the resolve. *)
Lemma get_hash_content_write_failure_raises :
  (sample_resolve (Some payload) None (Some (OtherError "disk full"))
     "sha256:payload" Storage 2 1 true true true empty_world).1
  = Res.raise (OtherError "disk full").
Proof. vm_compute; reflexivity. Qed.

Lemma get_hash_content_write_failure_witness :
  let out := sample_resolve (Some payload) None (Some (OtherError "disk full"))
               "sha256:payload" Storage 2 1 true true true empty_world in
  out.1 = Res.raise (OtherError "disk full")
  ∧ filestore out.2 = filestore empty_world.
Proof.
  refine (get_hash_content_write_failure true ["protocol"%string]
            (λ _, Res.ok (Some payload)) (λ _ _, Res.ok None)
            (λ _ _ _, Res.ok None) toy_cid toy_digest
            (λ _ _, Some (OtherError "disk full"))
            "sha256:payload" Storage 2 1 true true empty_world payload
            (OtherError "disk full") _ _ _ _).
  - vm_compute; reflexivity.
  - left. apply run_eq. vm_compute; reflexivity.
  - reflexivity.
Defined.


Example get_hash_content_from_overlay :
  (sample_resolve (Some payload) None None
     "sha256:payload" Storage 2 1 true true true empty_world).1
  = Res.ok (mkRawContent "sha256:payload" (Some P2P) payload).
Proof. vm_compute; reflexivity. Qed.

Example get_hash_content_from_ipfs :
  (sample_resolve None (Some payload) None
     "Qm:payload" IPFS 2 1 true true true empty_world).1
  = Res.ok (mkRawContent "Qm:payload" (Some SRC_IPFS) payload).
Proof. vm_compute; reflexivity. Qed.

Example get_hash_content_unavailable :
  (sample_resolve None None None
     "Qm:payload" IPFS 2 1 true true true empty_world).1
  = Res.raise ContentCurrentlyUnavailable.
Proof. vm_compute; reflexivity. Qed.

(** Scenario S4 followed by a second resolve. *)
Lemma get_hash_content_write_through_witness :
  let w' := (sample_resolve (Some payload) None None
               "sha256:payload" Storage 2 1 true true true empty_world).2 in
  sample_resolve (Some payload) None None
    "sha256:payload" Storage 2 1 false false false w'
  = (Res.ok (mkRawContent "sha256:payload" (Some DB) payload),
     asked_store "sha256:payload" w').
Proof.
  refine (get_hash_content_write_through true ["protocol"%string]
            (λ _, Res.ok (Some payload)) (λ _ _, Res.ok None)
            (λ _ _ _, Res.ok None) toy_cid toy_digest (λ _ _, None)
            "sha256:payload" Storage 2 1 true true empty_world
            (mkRawContent "sha256:payload" (Some P2P) payload) _ _ _
            Storage 2 1 false false false).
  - apply run_eq. vm_compute; reflexivity.
  - discriminate.
Defined.

(** ** The pending jobs *)

Lemma bulk_write_inserts {D} (docs : list D) (c : collection D) :
  (bulk_write (map InsertOne docs) c).*2 = c.*2 ++ docs.
Proof.
  unfold bulk_write. revert c.
  induction docs as [|d docs IH]; intros c; simpl.
  - by rewrite app_nil_r.
  - rewrite IH, fmap_app. simpl. rewrite <- app_assoc. reflexivity.
Qed.

Lemma run_all_preserves {S} (I : S → Prop) (tasks : list (St.t S unit)) s :
  Forall (λ task, ∀ s, I s → I (task s).2) tasks → I s →
  I (run_all tasks s).2.
Proof.
  intros Htasks. revert s.
  induction Htasks as [|task tasks Htask _ IH]; intros s Hs; simpl; [done|].
  specialize (Htask s Hs). destruct (task s) as [r s']. simpl in Htask.
  specialize (IH s' Htask). by destruct (run_all tasks s').
Qed.

Lemma delete_one_sublist {D} id (c : collection D) :
  delete_one id c `sublist_of` c.
Proof.
  induction c as [|d c IH]; simpl; [done|].
  case_bool_decide; [by apply sublist_cons | by apply sublist_skip].
Qed.

Lemma delete_one_keeps {D} id (c : collection D) p :
  id ≠ p.1 → p ∈ c → p ∈ delete_one id c.
Proof.
  intros Hne. induction c as [|d c IH]; simpl; [done|].
  intros [->|Hin]%elem_of_cons.
  - rewrite bool_decide_false by done. apply elem_of_cons; auto.
  - case_bool_decide; [done|]. apply elem_of_cons; auto.
Qed.

Lemma NoDup_fst_inj {A B} (l : list (A * B)) p q :
  NoDup l.*1 → p ∈ l → q ∈ l → p.1 = q.1 → p = q.
Proof.
  induction l as [|x l IH]; simpl; [by intros _ ?%elem_of_nil|].
  intros [Hx Hl]%NoDup_cons [->|Hp]%elem_of_cons [->|Hq]%elem_of_cons Heq;
    auto.
  - exfalso. apply Hx. rewrite Heq. by apply list_elem_of_fmap_2.
  - exfalso. apply Hx. rewrite <- Heq. by apply list_elem_of_fmap_2.
Qed.

Lemma bulk_write_deletes_keep {D} (p : oid * D) acts (c : collection D) :
  Forall (λ op, ∃ id, op = DeleteOne id ∧ id ≠ p.1) acts →
  p ∈ c → NoDup c.*1 →
  p ∈ bulk_write acts c ∧ NoDup (bulk_write acts c).*1.
Proof.
  unfold bulk_write. intros Hacts. revert c.
  induction Hacts as [|op acts (id & -> & Hne) _ IH]; intros c Hin Hnd;
    simpl; [done|].
  apply IH.
  - by apply delete_one_keeps.
  - eapply sublist_NoDup; [exact Hnd|].
    apply fmap_sublist, delete_one_sublist.
Qed.

Section jobs_facts.
Variable incoming :
  msg → option string → option string → option Z → list pyval →
  bool → bool → Res.t pyval * list pyval.
Variable get_chaindata_messages :
  pyval → tx_context → Res.t (option chaindata).

Local Abbreviation handle_tx := (handle_pending_tx get_chaindata_messages).
Local Abbreviation handle_msg := (handle_pending_message incoming).

Local Ltac run :=
  unfold St.bind, St.ret, St.raise, St.lift, St.gets, St.modify,
    St.try_except, Res.ok, Res.raise in *; simpl in *.

(** C9: a transaction whose extractor returns [k] messages gives [k]
    inserts in the pending message queue and one delete of the
    transaction; a null result changes nothing. *)
Theorem handle_pending_tx_expansion (pending : oid * pending_tx)
    (st : txs_state) :
  let context := ptx_context pending.2 in
  (∀ l, get_chaindata_messages (ptx_content pending.2) context
        = Res.ok (Some (Messages l)) →
     ∃ queue,
       handle_tx pending st
       = (Res.ok tt,
          mkTxs (tx_actions st ++ [DeleteOne pending.1])
                (mkNode queue (PendingTX (txs_node st))
                        (gathered (txs_node st))
                        (incoming_calls (txs_node st))))
       ∧ queue = bulk_write (map InsertOne (map (pending_of_tx context) l))
                            (PendingMessage (txs_node st))
       ∧ queue.*2 = (PendingMessage (txs_node st)).*2
                      ++ map (pending_of_tx context) l
       ∧ length queue
         = (length (PendingMessage (txs_node st)) + length l)%nat) ∧
  (get_chaindata_messages (ptx_content pending.2) context = Res.ok None →
     handle_tx pending st = (Res.ok tt, st)).
Proof.
  intros context. split.
  - intros l Hl. eexists. split; [|split; [reflexivity|]].
    + unfold handle_pending_tx. fold context. rewrite Hl. run.
      rewrite map_map. unfold pending_of_tx.
      case_bool_decide as Hne; simpl; [done|].
      rewrite Hne. by destruct st as [? []].
    + assert (Hq := bulk_write_inserts (map (pending_of_tx context) l)
                      (PendingMessage (txs_node st))).
      split; [done|].
      apply (f_equal length) in Hq.
      by rewrite length_app, !length_fmap in Hq.
  - intros Hl. unfold handle_pending_tx. fold context. rewrite Hl. by run.
Qed.

Lemma join_pending_message_tasks_run tasks s :
  join_pending_message_tasks tasks s
  = (Res.ok tt, flush_retry (run_all tasks (note_retry (length tasks) s)).2).
Proof.
  unfold join_pending_message_tasks, asyncio_gather, flush_retry. run.
  fold (note_retry (length tasks) s).
  destruct (run_all tasks _) as [[e|[]] s']; simpl;
    by destruct (bool_decide _).
Qed.

Lemma bind_join {A} tasks (k : St.t retry_state A) s :
  (do_ join_pending_message_tasks tasks; k) s
  = k (flush_retry (run_all tasks (note_retry (length tasks) s)).2).
Proof. unfold St.bind. by rewrite join_pending_message_tasks_run. Qed.

(** The loop of [retry_messages_job] for an invariant [I] of the shared
    state and a property [A] of the records of the cursor. *)
Lemma retry_messages_loop_inv (I : retry_state → Prop)
    (A : oid * pending_message → Prop) :
  (∀ q s, A q → I s → I (handle_msg q s).2) →
  (∀ n s, (n ≤ 201)%nat → I s → I (note_retry n s)) →
  (∀ s, I s → I (flush_retry s)) →
  ∀ cursor tasks i s,
    Forall A cursor →
    Forall (λ task, ∃ q, A q ∧ task = handle_msg q) tasks →
    i = Z.of_nat (length tasks) → i ≤ 200 → I s →
    ∃ tasks',
      (retry_messages_loop incoming cursor tasks i s).1 = Res.ok tasks'
      ∧ Forall (λ task, ∃ q, A q ∧ task = handle_msg q) tasks'
      ∧ (length tasks' ≤ 200)%nat
      ∧ I (retry_messages_loop incoming cursor tasks i s).2.
Proof.
  intros Hhandle Hnote Hflush.
  assert (Hrun : ∀ tasks s,
    Forall (λ task, ∃ q, A q ∧ task = handle_msg q) tasks → I s →
    I (run_all tasks s).2).
  { intros tasks s Htasks. apply run_all_preserves.
    eapply Forall_impl; [exact Htasks|].
    intros task (q & Hq & ->) s'. by apply Hhandle. }
  induction cursor as [|pending cursor IH]; intros tasks i s Hcur Htasks -> Hi Hs.
  - exists tasks. simpl. split_and!; [done|done|lia|done].
  - apply Forall_cons in Hcur as [Hp Hcur]. simpl.
    assert (Htasks' : Forall (λ task, ∃ q, A q ∧ task = handle_msg q)
                        (tasks ++ [handle_msg pending])).
    { apply Forall_app. split; [done|]. apply Forall_singleton. eauto. }
    destruct (200 <? Z.of_nat (length tasks) + 1) eqn:Hcmp.
    + rewrite bind_join.
      apply IH; [done|done|done|lia|].
      apply Hflush, Hrun; [done|].
      apply Hnote; [|done]. rewrite length_app. simpl. lia.
    + apply Z.ltb_ge in Hcmp.
      apply IH; [done|done| |lia|done].
      rewrite length_app. simpl. lia.
Qed.

Lemma retry_messages_job_inv (I : retry_state → Prop) nd :
  (∀ q s, q ∈ PendingMessage nd → I s → I (handle_msg q s).2) →
  (∀ n s, (n ≤ 201)%nat → I s → I (note_retry n s)) →
  (∀ s, I s → I (flush_retry s)) →
  I (mkRetry (<["NULS" := []]> (<["ETH" := []]> (<["BNB" := []]> ∅)))%string
             [] nd) →
  ∃ s, I s ∧ retry_messages_job incoming nd = (Res.ok tt, retry_node s).
Proof.
  intros Hhandle Hnote Hflush Hinit. unfold retry_messages_job.
  set (cursor := find_sorted_limit pm_time 1000 (PendingMessage nd)).
  set (s0 := mkRetry _ _ _) in *.
  destruct (retry_messages_loop_inv I (λ q, q ∈ PendingMessage nd)
              Hhandle Hnote Hflush cursor [] 0 s0)
    as (tasks & Hr & Htasks & Hlen & Hs); [|done|done|lia|done|].
  { apply Forall_forall. intros q Hq. unfold cursor, find_sorted_limit in Hq.
    apply subseteq_take in Hq.
    by rewrite merge_sort_Permutation in Hq. }
  unfold St.bind.
  destruct (retry_messages_loop _ _ _ _ _) as [r s1]. simpl in Hr, Hs.
  subst r. unfold Res.ok at 1. rewrite join_pending_message_tasks_run.
  eexists. split; [|reflexivity].
  apply Hflush, run_all_preserves.
  - eapply Forall_impl; [exact Htasks|].
    intros task (q & Hq & ->) s'. by apply Hhandle.
  - apply Hnote; [lia|done].
Qed.

Lemma handle_pending_message_gathered q s :
  gathered (retry_node (handle_msg q s).2) = gathered (retry_node s).
Proof.
  unfold handle_pending_message. run.
  destruct (src_chain_name _ ≫= _) as [[chain seen]|]; [|done].
  destruct (incoming _ _ _ _ _ _ _) as [[e|result] seen']; run; [done|].
  destruct result as [|[]| | | | | | |]; done.
Qed.

Lemma handle_pending_message_unknown q s :
  unknown_chain q.2 → dom (seen_ids s) = well_known_chains →
  handle_msg q s
  = (Res.raise (KeyError (key_repr (src_chain_name (pm_source q.2)))), s).
Proof.
  intros Hq Hdom. unfold handle_pending_message. run.
  destruct (src_chain_name (pm_source q.2)) as [k|] eqn:Hk; [|done]. simpl.
  specialize (Hq k Hk). rewrite <- Hdom in Hq.
  apply not_elem_of_dom in Hq. by rewrite Hq.
Qed.

Lemma handle_pending_message_keeps p q s :
  handled_beside p q → keeps_pending p s →
  keeps_pending p (handle_msg q s).2.
Proof.
  intros Hq (Hdom & Hacts & Hin & Hnd). unfold handle_pending_message. run.
  destruct (src_chain_name (pm_source q.2)) as [k|] eqn:Hk; [|done]. simpl.
  destruct (seen_ids s !! k) as [seen|] eqn:Hseen; [|done]. simpl.
  assert (Hne : q.1 ≠ p.1).
  { intros Heq. apply (Hq Heq k Hk). rewrite <- Hdom.
    apply elem_of_dom. eauto. }
  assert (Hdom' : ∀ seen', dom (<[k := seen']> (seen_ids s))
                           = well_known_chains).
  { intros seen'. rewrite dom_insert_lookup_L; eauto. }
  destruct (incoming _ _ _ _ _ _ _) as [[e|result] seen']; run;
    [|destruct result as [|[]| | | | | | |]];
    unfold keeps_pending; simpl; split_and!; try done.
  apply Forall_app. split; [done|]. apply Forall_singleton. eauto.
Qed.

Lemma flush_retry_keeps p s :
  keeps_pending p s → keeps_pending p (flush_retry s).
Proof.
  intros (Hdom & Hacts & Hin & Hnd). unfold flush_retry.
  case_bool_decide; [|done].
  destruct (bulk_write_deletes_keep p _ _ Hacts Hin Hnd).
  by split_and!.
Qed.

Lemma retry_messages_job_keeps p nd :
  unknown_chain p.2 → p ∈ PendingMessage nd → NoDup (PendingMessage nd).*1 →
  (retry_messages_job incoming nd).1 = Res.ok tt
  ∧ p ∈ PendingMessage (retry_messages_job incoming nd).2
  ∧ NoDup (PendingMessage (retry_messages_job incoming nd).2).*1.
Proof.
  intros Hp Hin Hnd.
  destruct (retry_messages_job_inv (keeps_pending p) nd)
    as (s & (_ & _ & Hin' & Hnd') & ->); [| | | |done].
  - intros q s Hq. apply handle_pending_message_keeps.
    intros Heq. by rewrite (NoDup_fst_inj _ q p Hnd Hq Hin Heq).
  - by intros n s _ (? & ? & ? & ?).
  - apply flush_retry_keeps.
  - split_and!; simpl; [|done|done|done].
    rewrite !dom_insert_L, dom_empty_L. unfold well_known_chains.
    set_solver.
Qed.

(** C10: a record whose chain is not one of NULS, ETH, BNB makes its
    handler raise on the lookup in [seen_ids]; the sweep swallows the
    exception and the record is still pending after any number of
    sweeps. *)
Theorem unknown_chain_stays_pending p nd :
  unknown_chain p.2 → p ∈ PendingMessage nd → NoDup (PendingMessage nd).*1 →
  (∀ s, dom (seen_ids s) = well_known_chains →
     handle_msg p s
     = (Res.raise (KeyError (key_repr (src_chain_name (pm_source p.2)))), s))
  ∧ (∀ n, (retry_messages_job incoming (after_sweeps incoming n nd)).1
          = Res.ok tt
          ∧ p ∈ PendingMessage (after_sweeps incoming n nd)).
Proof.
  intros Hp Hin Hnd. split.
  - intros s. by apply handle_pending_message_unknown.
  - intros n.
    assert (p ∈ PendingMessage (after_sweeps incoming n nd)
            ∧ NoDup (PendingMessage (after_sweeps incoming n nd)).*1)
      as [Hin' Hnd'].
    { induction n as [|n [IH1 IH2]]; [done|]. simpl.
      by destruct (retry_messages_job_keeps p _ Hp IH1 IH2) as (_ & ? & ?). }
    split; [|done].
    by destruct (retry_messages_job_keeps p _ Hp Hin' Hnd') as (? & _).
Qed.

Lemma join_pending_txs_tasks_run tasks s :
  join_pending_txs_tasks tasks s
  = (Res.ok tt, flush_txs (run_all tasks (note_txs (length tasks) s)).2).
Proof.
  unfold join_pending_txs_tasks, asyncio_gather, flush_txs. run.
  fold (note_txs (length tasks) s).
  destruct (run_all tasks _) as [[e|[]] s']; simpl;
    by destruct (bool_decide _).
Qed.

Lemma bind_join_txs {A} tasks (k : St.t txs_state A) s :
  (do_ join_pending_txs_tasks tasks; k) s
  = k (flush_txs (run_all tasks (note_txs (length tasks) s)).2).
Proof. unfold St.bind. by rewrite join_pending_txs_tasks_run. Qed.

Lemma handle_pending_tx_gathered q s :
  gathered (txs_node (handle_tx q s).2) = gathered (txs_node s).
Proof.
  unfold handle_pending_tx. run.
  destruct (get_chaindata_messages _ _) as [e|[[l|v]|]]; run; try done.
  by case_bool_decide.
Qed.

(** The loop of [handle_txs_job] for an invariant [I] of the shared state. *)
Lemma handle_txs_loop_inv (I : txs_state → Prop) :
  (∀ q s, I s → I (handle_tx q s).2) →
  (∀ n s, (n ≤ 101)%nat → I s → I (note_txs n s)) →
  (∀ s, I s → I (flush_txs s)) →
  ∀ cursor tasks i s,
    Forall (λ task, ∃ q, task = handle_tx q) tasks →
    i = Z.of_nat (length tasks) → i ≤ 100 → I s →
    ∃ tasks',
      (handle_txs_loop get_chaindata_messages cursor tasks i s).1
      = Res.ok tasks'
      ∧ Forall (λ task, ∃ q, task = handle_tx q) tasks'
      ∧ (length tasks' ≤ 100)%nat
      ∧ I (handle_txs_loop get_chaindata_messages cursor tasks i s).2.
Proof.
  intros Hhandle Hnote Hflush.
  assert (Hrun : ∀ tasks s,
    Forall (λ task, ∃ q, task = handle_tx q) tasks → I s →
    I (run_all tasks s).2).
  { intros tasks s Htasks. apply run_all_preserves.
    eapply Forall_impl; [exact Htasks|].
    intros task (q & ->) s'. by apply Hhandle. }
  induction cursor as [|pending cursor IH]; intros tasks i s Htasks -> Hi Hs.
  - exists tasks. simpl. split_and!; [done|done|lia|done].
  - simpl.
    assert (Htasks' : Forall (λ task, ∃ q, task = handle_tx q)
                        (tasks ++ [handle_tx pending])).
    { apply Forall_app. split; [done|]. apply Forall_singleton. eauto. }
    destruct (100 <? Z.of_nat (length tasks) + 1) eqn:Hcmp.
    + rewrite bind_join_txs.
      apply IH; [done|done|lia|].
      apply Hflush, Hrun; [done|].
      apply Hnote; [|done]. rewrite length_app. simpl. lia.
    + apply Z.ltb_ge in Hcmp.
      apply IH; [done| |lia|done].
      rewrite length_app. simpl. lia.
Qed.

Lemma handle_txs_job_inv (I : txs_state → Prop) nd :
  (∀ q s, I s → I (handle_tx q s).2) →
  (∀ n s, (n ≤ 101)%nat → I s → I (note_txs n s)) →
  (∀ s, I s → I (flush_txs s)) →
  I (mkTxs [] nd) →
  ∃ s, I s ∧ handle_txs_job get_chaindata_messages nd
             = (Res.ok tt, txs_node s).
Proof.
  intros Hhandle Hnote Hflush Hinit. unfold handle_txs_job.
  set (cursor := find_sorted_limit ptx_time 1000 (PendingTX nd)).
  destruct (handle_txs_loop_inv I Hhandle Hnote Hflush cursor [] 0
              (mkTxs [] nd))
    as (tasks & Hr & Htasks & Hlen & Hs); [done|done|lia|done|].
  unfold St.bind.
  destruct (handle_txs_loop _ _ _ _ _) as [r s1]. simpl in Hr, Hs.
  subst r. unfold Res.ok at 1. rewrite join_pending_txs_tasks_run.
  eexists. split; [|reflexivity].
  apply Hflush, run_all_preserves.
  - eapply Forall_impl; [exact Htasks|].
    intros task (q & ->) s'. by apply Hhandle.
  - apply Hnote; [lia|done].
Qed.

Lemma gathers_within_note bound g nd n :
  (n ≤ bound)%nat → gathers_within bound g nd →
  gathers_within bound g (note_gather n nd).
Proof.
  intros Hn (batches & Hg & Hall). exists (batches ++ [n]). simpl.
  rewrite Hg, app_assoc. split; [done|].
  apply Forall_app. split; [done|]. by apply Forall_singleton.
Qed.

(** The counter is incremented before it is tested: a gather of
    [retry_messages_job] is handed at most 201 coroutines, a gather of
    [handle_txs_job] at most 101. *)
Lemma gather_bounds nd :
  gathers_within 201 (gathered nd) (retry_messages_job incoming nd).2
  ∧ gathers_within 101 (gathered nd)
      (handle_txs_job get_chaindata_messages nd).2.
Proof.
  split.
  - destruct (retry_messages_job_inv
                (λ s, gathers_within 201 (gathered nd) (retry_node s)) nd)
      as (s & Hs & ->); [| | | |done].
    + intros q s _. unfold gathers_within.
      by rewrite handle_pending_message_gathered.
    + intros n s Hn. by apply gathers_within_note.
    + intros s. unfold flush_retry. by case_bool_decide.
    + exists []. by rewrite app_nil_r.
  - destruct (handle_txs_job_inv
                (λ s, gathers_within 101 (gathered nd) (txs_node s)) nd)
      as (s & Hs & ->); [| | | |done].
    + intros q s. unfold gathers_within.
      by rewrite handle_pending_tx_gathered.
    + intros n s Hn. by apply gathers_within_note.
    + intros s. unfold flush_txs. by case_bool_decide.
    + exists []. by rewrite app_nil_r.
Qed.

End jobs_facts.

(** With 1000 records in each queue the gathers of the message job are
    handed 201, 201, 201, 201 and 196 coroutines, those of the transaction
    job 101 nine times and 91. *)
Lemma sweeps_exceed_bounds :
  (gathered (retry_messages_job incoming_handled busy_node).2
   = [201; 201; 201; 201; 196]%nat
   ∧ gathered (handle_txs_job chaindata_unavailable busy_node).2
     = [101; 101; 101; 101; 101; 101; 101; 101; 101; 91]%nat)
  ∧ ¬ gathers_within 200 [] (retry_messages_job incoming_handled busy_node).2
  ∧ ¬ gathers_within 100 [] (handle_txs_job chaindata_unavailable busy_node).2.
Proof.
  assert (E : gathered (retry_messages_job incoming_handled busy_node).2
              = [201; 201; 201; 201; 196]%nat
              ∧ gathered (handle_txs_job chaindata_unavailable busy_node).2
                = [101; 101; 101; 101; 101; 101; 101; 101; 101; 91]%nat).
  { split; vm_compute; reflexivity. }
  destruct E as [E1 E2]. split_and!; [done|done| |].
  - intros (batches & Hg & Hall). rewrite E1 in Hg. simpl in Hg. subst batches.
    apply Forall_cons in Hall as [Hfirst _]. lia.
  - intros (batches & Hg & Hall). rewrite E2 in Hg. simpl in Hg. subst batches.
    apply Forall_cons in Hall as [Hfirst _]. lia.
Qed.

(** Scenario S6. *)
Lemma handle_pending_tx_expansion_witness :
  let out := handle_pending_tx chaindata_two (tx_record 5)
               (mkTxs [] (mkNode [] [tx_record 5] [] [])) in
  out.1 = Res.ok tt
  ∧ tx_actions out.2 = [DeleteOne 5%N]
  ∧ (PendingMessage (txs_node out.2)).*2
    = [ pending_of_tx sample_context {[ "a"%string := PInt 1 ]};
        pending_of_tx sample_context {[ "a"%string := PInt 2 ]} ].
Proof.
  destruct (proj1 (handle_pending_tx_expansion chaindata_two (tx_record 5)
                     (mkTxs [] (mkNode [] [tx_record 5] [] []))) _ eq_refl)
    as (queue & -> & _ & Hq & _).
  split_and!; [reflexivity|reflexivity|exact Hq].
Defined.

Example handle_txs_job_expands :
  let out := handle_txs_job chaindata_two (mkNode [] [tx_record 5] [] []) in
  out.1 = Res.ok tt
  ∧ PendingTX out.2 = []
  ∧ (PendingMessage out.2).*2
    = [ pending_of_tx sample_context {[ "a"%string := PInt 1 ]};
        pending_of_tx sample_context {[ "a"%string := PInt 2 ]} ]
  ∧ gathered out.2 = [1%nat].
Proof. split_and!; vm_compute; reflexivity. Qed.

Example handle_pending_tx_unavailable :
  handle_pending_tx chaindata_unavailable (tx_record 5)
    (mkTxs [] (mkNode [] [tx_record 5] [] []))
  = (Res.ok tt, mkTxs [] (mkNode [] [tx_record 5] [] [])).
Proof. reflexivity. Qed.

Lemma unknown_chain_stays_pending_witness :
  handle_pending_message incoming_handled
    (record_of_chain (Some "DOT"%string) 1) (fresh_retry_state mixed_node)
  = (Res.raise (KeyError "DOT"), fresh_retry_state mixed_node)
  ∧ record_of_chain (Some "DOT"%string) 1
    ∈ PendingMessage (after_sweeps incoming_handled 3 mixed_node).
Proof.
  destruct (unknown_chain_stays_pending incoming_handled
              (record_of_chain (Some "DOT"%string) 1) mixed_node)
    as [Hraise Hstay].
  - intros k [= <-]. apply (bool_decide_unpack _). vm_compute; exact I.
  - apply elem_of_cons. by left.
  - apply (bool_decide_unpack _). vm_compute; exact I.
  - split.
    + apply Hraise. apply (bool_decide_unpack _). vm_compute; exact I.
    + apply Hstay.
Defined.

(** ** The jobs on the event loop *)

(** The exceptions of the tasks are logged, never unlogged. *)
Lemma exceptions_task_turn {S P} n (l : event_loop S P) :
  exceptions (task_turn n l) = [] → exceptions l = [].
Proof.
  unfold task_turn. destruct (in_flight l !! n) as [t|]; [|done].
  destruct (body t (shared l)) as [s [r|resume]]; simpl; [|done].
  by intros [? _]%app_eq_nil.
Qed.

Lemma exceptions_run_loop {S P} (job_turn : event_loop S P → event_loop S P)
    schedule l :
  (∀ l, exceptions (job_turn l) = exceptions l) →
  exceptions (run_loop job_turn schedule l) = [] → exceptions l = [].
Proof.
  intros Hjob. revert l.
  induction schedule as [|t schedule IH]; intros l; [done|].
  simpl. intros H%IH. destruct t; simpl in H.
  - by rewrite Hjob in H.
  - by apply exceptions_task_turn in H.
Qed.

(** A gather whose tasks are all awaited and none of which has raised is
    over when they have all ended. *)
Lemma gather_over_all_ended {S P} (l : event_loop S P) :
  raised l = false →
  Forall (λ t, awaited t = true) (in_flight l) →
  gather_over l = true → in_flight l = [].
Proof.
  intros Hr Hall. unfold gather_over. rewrite Hr. simpl.
  intros [_ H]%andb_prop. destruct (in_flight l) as [|t ts]; [done|].
  simpl in H. apply Forall_cons in Hall as [Haw _]. by rewrite Haw in H.
Qed.

Section sweep_facts.
Context {R S : Type}.
Variable bound : Z.
Variable handler : R → routine S.
Variable note : nat → S → S.
Variable has_actions : S → bool.
Variable write_actions : S → S.
Variable clear_actions : S → S.
Hypothesis bound_pos : 0 ≤ bound.

Local Abbreviation turn_of_job :=
  (job_turn bound handler note has_actions write_actions clear_actions).

Lemma exceptions_job_turn (l : event_loop S (job_at R S)) :
  exceptions (turn_of_job l) = exceptions l.
Proof.
  unfold job_turn.
  destruct (job l) as [[|p cursor] tasks i|rest|rest|]; try done.
  - by destruct (bound <? i + 1).
  - destruct (gather_over l); [|done]. by destruct (has_actions _).
Qed.

Lemma calm_task_turn n (l : event_loop S (job_at R S)) :
  calm bound l → exceptions (task_turn n l) = [] →
  calm bound (task_turn n l).
Proof.
  intros (Hr & Hall & Hjob). unfold task_turn.
  destruct (in_flight l !! n) as [t|] eqn:Hn; [|done].
  assert (Hne : in_flight l ≠ []) by (by intros E; rewrite E in Hn).
  pose proof (Forall_lookup_1 _ _ _ _ Hall Hn) as Haw.
  destruct (body t (shared l)) as [s c].
  destruct (job l) as [cursor tasks i|rest|rest|] eqn:Hj;
    [by destruct Hjob as [Hnil _]| |done|done].
  destruct c as [r|resume]; simpl; intros Hex; unfold calm; simpl.
  - apply app_eq_nil in Hex as [_ Hex].
    assert (is_exception r = false) as -> by by destruct r.
    rewrite Hr, Haw. split_and!; [done|by apply Forall_delete|].
    rewrite length_delete by eauto. lia.
  - split_and!; [done|by apply Forall_insert|].
    by rewrite length_insert.
Qed.

Lemma calm_job_turn (l : event_loop S (job_at R S)) :
  calm bound l → calm bound (turn_of_job l).
Proof.
  intros (Hr & Hall & Hjob). unfold job_turn.
  destruct (job l) as [[|p cursor] tasks i|rest|rest|] eqn:Hj.
  - destruct Hjob as (Hnil & Hi & Hle).
    unfold gather, calm. simpl. rewrite Hnil. simpl.
    split_and!; [done|by apply Forall_fmap, Forall_true|].
    rewrite length_map. lia.
  - destruct Hjob as (Hnil & Hi & Hle).
    destruct (bound <? i + 1) eqn:Hb.
    + unfold gather, calm. simpl. rewrite Hnil. simpl.
      split_and!; [done|by apply Forall_fmap, Forall_true|].
      rewrite length_map, length_app. simpl. lia.
    + apply Z.ltb_ge in Hb. unfold calm. simpl.
      split_and!; try done. rewrite length_app. simpl. lia.
  - destruct (gather_over l) eqn:Hg; [|by unfold calm; rewrite Hj].
    pose proof (gather_over_all_ended l Hr Hall Hg) as Hnil.
    destruct (has_actions (shared l)); unfold calm; simpl; rewrite Hnil;
      simpl; [done|].
    split_and!; try done. destruct rest; simpl; [|done]. by split_and!.
  - unfold calm. simpl. rewrite Hjob.
    split_and!; try done. destruct rest; simpl; [|done]. by split_and!.
  - unfold calm. by rewrite Hj.
Qed.

Lemma calm_run schedule (l : event_loop S (job_at R S)) :
  calm bound l →
  exceptions (run_loop turn_of_job schedule l) = [] →
  calm bound (run_loop turn_of_job schedule l).
Proof.
  revert l. induction schedule as [|t schedule IH]; intros l Hl Hex; [done|].
  simpl in *. apply IH; [|done].
  apply exceptions_run_loop in Hex; [|apply exceptions_job_turn].
  destruct t; [by apply calm_job_turn|by apply calm_task_turn].
Qed.

Lemma calm_in_flight (l : event_loop S (job_at R S)) :
  calm bound l → Z.of_nat (length (in_flight l)) ≤ bound + 1.
Proof.
  intros (_ & _ & Hjob).
  destruct (job l); [destruct Hjob as [-> _]|done
                    |rewrite Hjob|rewrite Hjob]; simpl; lia.
Qed.

End sweep_facts.

Section jobs_on_the_loop_facts.
Variable incoming :
  msg → option string → option string → option Z → list pyval →
  bool → bool → Res.t pyval * list pyval.
Variable get_chaindata_messages :
  pyval → tx_context → Res.t (option chaindata).

(** C4, as amended: as long as no handler has raised, the tasks in flight
    are those of the gather under way, at most 201 for [retry_messages_job]
    and at most 101 for [handle_txs_job], whatever the order in which the
    event loop runs the job and its tasks. *)
Theorem in_flight_bounds nd schedule schedule' :
  exceptions (retry_messages_run incoming schedule nd) = [] →
  exceptions (handle_txs_run get_chaindata_messages schedule' nd) = [] →
  (length (in_flight (retry_messages_run incoming schedule nd)) ≤ 201)%nat
  ∧ (length (in_flight
               (handle_txs_run get_chaindata_messages schedule' nd))
     ≤ 101)%nat.
Proof.
  intros Hm Ht. split.
  - enough (calm 200 (retry_messages_run incoming schedule nd)) as H
      by (apply calm_in_flight in H; lia).
    apply calm_run; [lia| |done]. unfold calm. simpl. by split_and!.
  - enough (calm 100 (handle_txs_run get_chaindata_messages schedule' nd))
      as H by (apply calm_in_flight in H; lia).
    apply calm_run; [lia| |done]. unfold calm. simpl. by split_and!.
Qed.

End jobs_on_the_loop_facts.

(** C4, counterexamples: with 1000 records in the queue and no exception,
    the first gather of the message job has 201 tasks suspended in
    [incoming], the first gather of the transaction job 101 suspended in
    the extractor; and when the first task of a gather raises, the job goes
    on while the 200 others are suspended, and launches the next gather on
    top of them. *)
Lemma in_flight_exceeds_bounds :
  (length (in_flight messages_launched) = 201%nat
   ∧ forallb started (in_flight messages_launched) = true
   ∧ exceptions messages_launched = [])
  ∧ (length (in_flight txs_launched) = 101%nat
     ∧ forallb started (in_flight txs_launched) = true
     ∧ exceptions txs_launched = [])
  ∧ (length (in_flight messages_piled_up) = 401%nat
     ∧ forallb started (take 200 (in_flight messages_piled_up)) = true
     ∧ exceptions messages_piled_up = [KeyError "DOT"]).
Proof. repeat split; vm_compute; reflexivity. Qed.

Lemma in_flight_bounds_witness :
  (length (in_flight messages_launched) ≤ 201)%nat
  ∧ (length (in_flight txs_launched) ≤ 101)%nat.
Proof.
  apply (in_flight_bounds incoming_handled chaindata_two busy_node);
    vm_compute; reflexivity.
Defined.

(** * Further properties *)

(** ** Message admission *)

(** Membership of a literal in a literal list, by computation. *)
Ltac in_list := apply (bool_decide_unpack _); vm_compute; exact I.

Lemma project_lookup m k :
  project m !! k
  = if bool_decide (k ∈ INCOMING_MESSAGE_AUTHORIZED_FIELDS) then m !! k
    else None.
Proof.
  unfold project. case_bool_decide as Hk.
  - destruct (m !! k) as [v|] eqn:E.
    + by apply map_lookup_filter_Some.
    + apply map_lookup_filter_None. left. done.
  - apply map_lookup_filter_None. right. intros v _. done.
Qed.

Lemma project_idemp m : project (project m) = project m.
Proof.
  apply map_eq. intros k. rewrite !project_lookup.
  by case_bool_decide.
Qed.

Lemma project_insert_item_type m t :
  project (<["item_type"%string := PItem t]> m)
  = <["item_type"%string := PItem t]> (project m).
Proof.
  apply map_eq. intros k. rewrite project_lookup.
  destruct (decide (k = "item_type"%string)) as [->|Hne].
  - rewrite !lookup_insert_eq. rewrite bool_decide_true; [done|in_list].
  - rewrite !lookup_insert_ne by done. by rewrite project_lookup.
Qed.

Lemma type_guards_required m :
  type_guards m = true → has_required_fields m.
Proof.
  unfold type_guards, is_string_field, has_required_fields, required_fields.
  rewrite !andb_true_iff, !bool_decide_eq_true.
  intros ((((H1 & H2) & _) & H3) & H4).
  repeat apply Forall_cons_2; [..|apply Forall_nil_2].
  all: match goal with
       | H : is_Some (?m !! ?k ≫= as_str) |- is_Some (?m !! ?k) =>
           destruct (m !! k); [eauto|by destruct H]
       end.
Qed.

Section network_more.
Variable VERIFIER_REGISTER : gmap string verifier.
Variable from_hash : string → option ItemType.
Variable get_sha256 : pyval → Res.t string.

Local Abbreviation check :=
  (check_message VERIFIER_REGISTER from_hash get_sha256).

Lemma check_message_run m fc fn tr h :
  type_guards m = true → m !! "item_hash"%string = Some (PStr h) →
  check m fc fn tr
  = check_content VERIFIER_REGISTER from_hash get_sha256 m h tr.
Proof.
  intros Hg Hh. rewrite check_message_unfold by by apply type_guards_required.
  by rewrite Hh, Hg.
Qed.

Lemma verify_untrusted_run m chain :
  m !! "chain"%string = Some (PStr chain) →
  verify_untrusted VERIFIER_REGISTER m
  = verdict VERIFIER_REGISTER chain (project m).
Proof.
  intros Hc. unfold verify_untrusted, verdict, get_or_none.
  fold (project m). rewrite project_lookup.
  rewrite bool_decide_true by in_list.
  rewrite Hc. simpl. by destruct (VERIFIER_REGISTER !! chain).
Qed.

Lemma type_guards_chain m :
  type_guards m = true → ∃ chain, m !! "chain"%string = Some (PStr chain).
Proof.
  unfold type_guards, is_string_field.
  rewrite !andb_true_iff, !bool_decide_eq_true.
  intros ((((_ & H2) & _) & _) & _).
  destruct (m !! "chain"%string) as [[]|]; simpl in H2; try by destruct H2.
  eauto.
Qed.

Lemma type_guards_item_hash m :
  type_guards m = true → ∃ h, m !! "item_hash"%string = Some (PStr h).
Proof.
  unfold type_guards, is_string_field.
  rewrite !andb_true_iff, !bool_decide_eq_true.
  intros ((((H1 & _) & _) & _) & _).
  destruct (m !! "item_hash"%string) as [[]|]; simpl in H1; try by destruct H1.
  eauto.
Qed.

Lemma settled_message_lookup m h k :
  k ≠ "item_type"%string →
  settled_message from_hash h m !! k = m !! k.
Proof.
  intros Hk. unfold settled_message, classified.
  repeat case_match; by rewrite ?lookup_insert_ne.
Qed.

Lemma check_content_accepts_exact m h tr r :
  check_content VERIFIER_REGISTER from_hash get_sha256 m h tr
  = Res.ok (Some r) →
  finish_check VERIFIER_REGISTER (settled_message from_hash h m) tr
  = Res.ok (Some r).
Proof.
  unfold check_content, settled_message, classified, Res.bind.
  repeat case_match; done.
Qed.

Lemma check_message_accepts_exact m fc fn tr r :
  check m fc fn tr = Res.ok (Some r) →
  ∃ h chain,
    type_guards m = true
    ∧ m !! "item_hash"%string = Some (PStr h)
    ∧ m !! "chain"%string = Some (PStr chain)
    ∧ finish_check VERIFIER_REGISTER (settled_message from_hash h m) tr
      = Res.ok (Some r).
Proof.
  intros Hrun.
  destruct (check_message_accepts _ _ _ _ _ _ _ _ Hrun) as (Hg & _).
  destruct (type_guards_chain m Hg) as [chain Hc],
    (type_guards_item_hash m Hg) as [h Hh].
  exists h, chain. split_and!; try done.
  rewrite (check_message_run m fc fn tr h Hg Hh) in Hrun.
  by apply check_content_accepts_exact.
Qed.

Lemma finish_check_untrusted_inv m' chain r :
  m' !! "chain"%string = Some (PStr chain) →
  finish_check VERIFIER_REGISTER m' false = Res.ok (Some r) →
  r = project m'
  ∧ ∃ signer, VERIFIER_REGISTER !! chain = Some signer
              ∧ signer r = Res.ok true.
Proof.
  intros Hc Hfin. unfold finish_check in Hfin.
  rewrite (verify_untrusted_run _ chain Hc) in Hfin.
  unfold verdict in Hfin.
  destruct (VERIFIER_REGISTER !! chain) as [signer|] eqn:Hs; [|done].
  destruct (signer _) as [[]|[]] eqn:Hsig; try done.
  injection Hfin as <-. eauto.
Qed.

(** X1: an untrusted message is accepted only with the approval of the
    verifier registered for its chain, and what is returned holds
    authorized fields only. *)
Theorem check_message_untrusted_sound m fc fn r :
  check m fc fn false = Res.ok (Some r) →
  (∀ k, is_Some (r !! k) → k ∈ INCOMING_MESSAGE_AUTHORIZED_FIELDS)
  ∧ ∃ chain signer,
      m !! "chain"%string = Some (PStr chain)
      ∧ VERIFIER_REGISTER !! chain = Some signer
      ∧ signer r = Res.ok true.
Proof.
  intros (h & chain & Hg & Hh & Hc & Hfin)%check_message_accepts_exact.
  apply (finish_check_untrusted_inv _ chain) in Hfin
    as (-> & signer & Hs & Hsig); [|by rewrite settled_message_lookup].
  split.
  - intros k [v Hv]. rewrite project_lookup in Hv. by case_bool_decide.
  - eauto.
Qed.

Lemma check_content_inline m h tr content n :
  m !! "item_content"%string = Some content →
  py_len content = Res.ok n → n ≤ MAX_INLINE_SIZE →
  m !! "hash_type"%string = None
  ∨ m !! "hash_type"%string = Some (PStr "sha256") →
  (tr = false → get_sha256 content = Res.ok h) →
  check_content VERIFIER_REGISTER from_hash get_sha256 m h tr
  = finish_check VERIFIER_REGISTER
      (<["item_type"%string := PItem Inline]> m) tr.
Proof.
  intros Hc Hlen Hn Hty Hsha. unfold check_content, getitem, get_or_none.
  rewrite Hc. simpl.
  assert (is_not_none content = true) as ->.
  { destruct content; done. }
  rewrite Hlen. simpl.
  rewrite (proj2 (Z.ltb_ge _ _) Hn).
  assert (py_eq_str (default (PStr "sha256") (m !! "hash_type"%string))
            "sha256" = true) as ->.
  { by destruct Hty as [-> | ->]. }
  destruct tr; [done|]. rewrite Hsha by done. simpl.
  by rewrite bool_decide_false by (intros ?; done).
Qed.

Lemma check_content_plain m h tr :
  is_not_none (get_or_none m "item_content") = false →
  check_content VERIFIER_REGISTER from_hash get_sha256 m h tr
  = finish_check VERIFIER_REGISTER (classified from_hash h m) tr.
Proof.
  intros Hc. unfold check_content, classified. rewrite Hc.
  by destruct (from_hash h).
Qed.

Lemma check_content_inline_inv m h r :
  is_not_none (get_or_none m "item_content") = true →
  check_content VERIFIER_REGISTER from_hash get_sha256 m h false
  = Res.ok (Some r) →
  ∃ content n,
    m !! "item_content"%string = Some content
    ∧ py_len content = Res.ok n ∧ n ≤ MAX_INLINE_SIZE
    ∧ py_eq_str (default (PStr "sha256") (m !! "hash_type"%string)) "sha256"
      = true
    ∧ get_sha256 content = Res.ok h.
Proof.
  intros Hc. unfold check_content, getitem, get_or_none in *. rewrite Hc.
  destruct (m !! "item_content"%string) as [content|]; [|done]. simpl.
  destruct (py_len content) as [|n] eqn:Hlen; [done|]. simpl.
  destruct (MAX_INLINE_SIZE <? n) eqn:Hn; [done|].
  destruct (py_eq_str _ _) eqn:Hty; [|done].
  destruct (get_sha256 content) as [|computed] eqn:Hsha; [done|]. simpl.
  case_bool_decide as Hne; [done|]. subst computed.
  intros _. exists content, n. split_and!; try done.
  by apply Z.ltb_ge.
Qed.

(** X2: an untrusted message with inline content that is within the size
    limit and hashes to its [item_hash] is decided by the verifier of its
    chain alone: accepted when it answers true, null when it answers false,
    raises [ValueError] or is not registered, and any other exception of the
    verifier goes to the caller. *)
Theorem check_message_inline_verdict m fc fn content n h chain :
  type_guards m = true →
  m !! "item_hash"%string = Some (PStr h) →
  m !! "chain"%string = Some (PStr chain) →
  m !! "item_content"%string = Some content →
  py_len content = Res.ok n → n ≤ MAX_INLINE_SIZE →
  m !! "hash_type"%string = None
  ∨ m !! "hash_type"%string = Some (PStr "sha256") →
  get_sha256 content = Res.ok h →
  check m fc fn false
  = verdict VERIFIER_REGISTER chain
      (project (<["item_type"%string := PItem Inline]> m)).
Proof.
  intros Hg Hh Hc Hcontent Hlen Hn Hty Hsha.
  rewrite (check_message_run m fc fn false h Hg Hh).
  rewrite (check_content_inline m h false content n) by done.
  unfold finish_check. apply verify_untrusted_run.
  by rewrite lookup_insert_ne.
Qed.

(** X3: a trusted message that passes the type guards and the size limit is
    returned whole, with its item type settled: neither its hash nor its
    signature is looked at. *)
Theorem check_message_trusted_unverified m fc fn h :
  type_guards m = true →
  m !! "item_hash"%string = Some (PStr h) →
  is_not_none (get_or_none m "item_content") = false
  ∨ (∃ content n,
       m !! "item_content"%string = Some content
       ∧ py_len content = Res.ok n ∧ n ≤ MAX_INLINE_SIZE
       ∧ (m !! "hash_type"%string = None
          ∨ m !! "hash_type"%string = Some (PStr "sha256"))) →
  check m fc fn true = Res.ok (Some (settled_message from_hash h m)).
Proof.
  intros Hg Hh Hcontent.
  rewrite (check_message_run m fc fn true h Hg Hh).
  unfold settled_message.
  destruct Hcontent as [Hnone | (content & n & Hc & Hlen & Hn & Hty)].
  - rewrite Hnone. by rewrite check_content_plain.
  - rewrite (check_content_inline m h true content n) by done.
    unfold get_or_none. rewrite Hc. simpl.
    assert (is_not_none content = true) as ->; [by destruct content|done].
Qed.

(** X4: without inline content, the item type of an accepted message is the
    one its hash gives; when the hash gives none, it is the one the message
    declared, or stays absent. *)
Theorem check_message_item_type_of_hash m fc fn tr r h :
  check m fc fn tr = Res.ok (Some r) →
  is_not_none (get_or_none m "item_content") = false →
  m !! "item_hash"%string = Some (PStr h) →
  r !! "item_type"%string
  = match from_hash h with
    | Some t => Some (PItem t)
    | None => m !! "item_type"%string
    end.
Proof.
  intros (h' & chain & Hg & Hh & Hc & Hfin)%check_message_accepts_exact
    Hnone Hh'.
  assert (h' = h) as -> by congruence.
  apply finish_check_accepts in Hfin.
  assert (r !! "item_type"%string
          = settled_message from_hash h m !! "item_type"%string) as ->.
  { subst r. destruct tr; [done|]. rewrite project_lookup.
    rewrite bool_decide_true; [done|in_list]. }
  unfold settled_message, classified. rewrite Hnone.
  destruct (from_hash h); [apply lookup_insert_eq|done].
Qed.

Lemma type_guards_ext m1 m2 :
  (∀ k, k ∈ INCOMING_MESSAGE_AUTHORIZED_FIELDS → k ≠ "item_type"%string →
        m1 !! k = m2 !! k) →
  type_guards m1 = type_guards m2.
Proof.
  intros Hext. unfold type_guards, is_string_field, channel_ok.
  rewrite !(Hext "item_hash"%string), !(Hext "chain"%string),
    !(Hext "channel"%string), !(Hext "sender"%string),
    !(Hext "signature"%string); try done; in_list.
Qed.

(** X5: checking again a message that was accepted as untrusted accepts it
    again and gives it back unchanged. *)
Theorem check_message_idempotent m fc fn fc' fn' r :
  check m fc fn false = Res.ok (Some r) →
  check r fc' fn' false = Res.ok (Some r).
Proof.
  intros Hrun.
  destruct (check_message_accepts_exact _ _ _ _ _ Hrun)
    as (h & chain & Hg & Hh & Hc & Hfin).
  assert (Hr : r = project (settled_message from_hash h m)).
  { by apply finish_check_accepts in Hfin. }
  assert (Hlook : ∀ k, k ∈ INCOMING_MESSAGE_AUTHORIZED_FIELDS →
                       k ≠ "item_type"%string → r !! k = m !! k).
  { intros k Hk Hne. rewrite Hr, project_lookup, bool_decide_true by done.
    by apply settled_message_lookup. }
  assert (Hverdict : verdict VERIFIER_REGISTER chain r = Res.ok (Some r)).
  { unfold finish_check in Hfin.
    rewrite (verify_untrusted_run _ chain) in Hfin
      by by rewrite settled_message_lookup.
    by rewrite <- Hr in Hfin. }
  assert (Hg' : type_guards r = true).
  { rewrite <- Hg. apply type_guards_ext. intros k Hk Hne.
    by apply Hlook. }
  assert (Hrh : r !! "item_hash"%string = m !! "item_hash"%string).
  { apply Hlook; [in_list|done]. }
  assert (Hrc : r !! "chain"%string = m !! "chain"%string).
  { apply Hlook; [in_list|done]. }
  assert (Hrco : r !! "item_content"%string = m !! "item_content"%string).
  { apply Hlook; [in_list|done]. }
  rewrite (check_message_run r fc' fn' false h Hg') by by rewrite Hrh.
  assert (Hproj : project r = r) by (rewrite Hr; apply project_idemp).
  assert (Hchain : r !! "chain"%string = Some (PStr chain)).
  { by rewrite Hrc. }
  destruct (is_not_none (get_or_none m "item_content")) eqn:Hcontent.
  - rewrite (check_message_run m fc fn false h Hg Hh) in Hrun.
    destruct (check_content_inline_inv m h r Hcontent Hrun)
      as (content & n & Hco & Hlen & Hn & Hty & Hsha).
    rewrite (check_content_inline r h false content n); try done.
    + unfold finish_check.
      rewrite (verify_untrusted_run _ chain) by by rewrite lookup_insert_ne.
      assert (<["item_type"%string := PItem Inline]> r = r) as ->; [|by rewrite Hproj].
      rewrite Hr. unfold settled_message. rewrite Hcontent.
      by rewrite project_insert_item_type, insert_insert_eq.
    + by rewrite Hrco.
    + left. rewrite Hr, project_lookup.
      rewrite bool_decide_false; [done|in_list].
  - rewrite check_content_plain
      by (unfold get_or_none in *; by rewrite Hrco).
    unfold finish_check.
    assert (classified from_hash h r = r) as ->.
    { rewrite Hr. unfold settled_message, classified. rewrite Hcontent.
      destruct (from_hash h); [|done].
      by rewrite project_insert_item_type, insert_insert_eq. }
    rewrite (verify_untrusted_run _ chain) by done.
    by rewrite Hproj.
Qed.

Section entry.
Variable decode_utf8 : list Byte.byte → option string.
Variable unquote : string → string.
Variable json_loads : pyval → Res.t (option pyval).

(** X6: what [incoming_check] returns for a frame of the pubsub channel
    was decoded from a JSON object, holds authorized fields only and was
    approved by the verifier registered for its chain. *)
Theorem incoming_check_admits frame r :
  incoming_check VERIFIER_REGISTER from_hash get_sha256 decode_utf8 unquote
    json_loads frame = Res.ok (Some r) →
  (∃ data items,
     decode_utf8 (default [] (frame !! "data"%string)) = Some data
     ∧ json_loads (PStr (unquote data)) = Res.ok (Some (PDict items)))
  ∧ (∀ k, is_Some (r !! k) → k ∈ INCOMING_MESSAGE_AUTHORIZED_FIELDS)
  ∧ ∃ chain signer,
      r !! "chain"%string = Some (PStr chain)
      ∧ VERIFIER_REGISTER !! chain = Some signer
      ∧ signer r = Res.ok true.
Proof.
  unfold incoming_check.
  destruct (decode_utf8 _) as [data|] eqn:Hd; [|done].
  destruct (json_loads _) as [e|[v|]] eqn:Hj; [done| |done].
  destruct v; try done.
  intros (h & chain & Hg & Hh & Hc & Hfin)%check_message_accepts_exact.
  apply (finish_check_untrusted_inv _ chain) in Hfin
    as (-> & signer & Hs & Hsig); [|by rewrite settled_message_lookup].
  split_and!; [eauto| |].
  - intros k [v Hv]. rewrite project_lookup in Hv. by case_bool_decide.
  - exists chain, signer. split_and!; [|done|done].
    rewrite project_lookup, bool_decide_true by in_list.
    by rewrite settled_message_lookup.
Qed.

End entry.

End network_more.

(** ** Content resolution *)

Section storage_more.
Variable ipfs_enabled : bool.
Variable enabled_clients : list string.
Variable streamer_request_hash : string → Res.t (option (list Byte.byte)).
Variable p2p_http_request_hash : string → Z → Res.t (option (list Byte.byte)).
Variable ipfs_get_content : string → Z → Z → Res.t (option (list Byte.byte)).
Variable add_ipfs_bytes : list Byte.byte → Z → Res.t string.
Variable get_sha256 : pyval → Res.t string.
Variable set_value_error : string → list Byte.byte → option exc.

Local Abbreviation verify :=
  (verify_content_hash ipfs_enabled add_ipfs_bytes get_sha256).
Local Abbreviation fetch :=
  (fetch_content_from_network ipfs_enabled enabled_clients
     streamer_request_hash p2p_http_request_hash add_ipfs_bytes get_sha256).
Local Abbreviation resolve :=
  (get_hash_content ipfs_enabled enabled_clients streamer_request_hash
     p2p_http_request_hash ipfs_get_content add_ipfs_bytes get_sha256
     set_value_error).
Local Abbreviation overlay :=
  (overlay_yields enabled_clients ipfs_enabled streamer_request_hash
     p2p_http_request_hash add_ipfs_bytes get_sha256).
Local Abbreviation distributed := (ipfs_yields ipfs_enabled ipfs_get_content).
Local Abbreviation recomputed :=
  (recomputed_hash ipfs_enabled add_ipfs_bytes get_sha256).

Local Ltac run :=
  unfold St.bind, St.ret, St.raise, St.lift, St.gets, St.modify,
    St.try_except, Res.ok, Res.raise in *; simpl in *.

(** The hash check, run: the call it makes and what it answers. *)
Lemma verify_content_hash_run content engine expected w :
  verify content engine expected w
  = (match recomputed engine content expected with
     | None => Res.raise ValueError
     | Some (inr computed) =>
         if bool_decide (computed ≠ expected)
         then Res.raise InvalidContent else Res.ok tt
     | Some (inl e) =>
         if bool_decide (engine = IPFS) && ipfs_enabled
         then if is_timeout e then Res.raise ContentCurrentlyUnavailable
              else Res.raise e
         else Res.raise e
     end,
     mkWorld (filestore w)
       (calls w ++ verify_calls ipfs_enabled engine content expected)).
Proof.
  unfold verify_content_hash, recomputed_hash, verify_calls, cid_version_of,
    compute_content_hash_ipfs, compute_content_hash_sha256, add_bytes,
    log_call. run.
  destruct (bool_decide (engine = IPFS) && ipfs_enabled); run.
  - destruct (add_ipfs_bytes _ _) as [e|computed]; run.
    + by destruct (is_timeout e).
    + by destruct (bool_decide (computed ≠ expected)).
  - rewrite app_nil_r. destruct w as [fs cs].
    destruct (bool_decide (engine = Storage)); run; [|done].
    destruct (get_sha256 _) as [e|computed]; run; [done|].
    by destruct (bool_decide (computed ≠ expected)).
Qed.

(** X7: the hash check passes exactly when the hash computed for the engine
    is the expected one: SHA-256 for [Storage], the identifier that the IPFS
    daemon gives (version 1 for an expected hash of 58 characters or more,
    version 0 otherwise) for [IPFS] when the subsystem is enabled. *)
Theorem verify_content_hash_passes content engine expected w :
  (verify content engine expected w).1 = Res.ok tt
  ↔ recomputed engine content expected = Some (Res.ok expected).
Proof.
  rewrite verify_content_hash_run. simpl.
  unfold recomputed_hash.
  destruct (bool_decide (engine = IPFS) && ipfs_enabled).
  - destruct (add_ipfs_bytes _ _) as [e|computed].
    + split; [|done]. by destruct (is_timeout e).
    + case_bool_decide as Hne; split; try done.
      * intros [= ->]. done.
      * intros _. by subst.
  - destruct (bool_decide (engine = Storage)); [|done].
    destruct (get_sha256 _) as [e|computed]; [done|].
    case_bool_decide as Hne; split; try done.
    + intros [= ->]. done.
    + intros _. by subst.
Qed.

(** X8: how the hash check fails: [ValueError] for an engine it has no hash
    for (inline, or IPFS with the subsystem disabled), before anything is
    computed; [InvalidContent] for a hash that differs;
    [ContentCurrentlyUnavailable] when the IPFS daemon times out. *)
Theorem verify_content_hash_failures content engine expected w :
  (recomputed engine content expected = None →
     verify content engine expected w = (Res.raise ValueError, w))
  ∧ (∀ computed,
       recomputed engine content expected = Some (Res.ok computed) →
       computed ≠ expected →
       (verify content engine expected w).1 = Res.raise InvalidContent)
  ∧ (engine = IPFS → ipfs_enabled = true →
     add_ipfs_bytes content (cid_version_of expected) = Res.raise TimeoutError →
     (verify content engine expected w).1
     = Res.raise ContentCurrentlyUnavailable).
Proof.
  rewrite verify_content_hash_run. split_and!.
  - intros Hnone. rewrite Hnone. unfold verify_calls.
    unfold recomputed_hash in Hnone.
    destruct (bool_decide (engine = IPFS) && ipfs_enabled); [done|].
    rewrite app_nil_r. by destruct w.
  - intros computed -> Hne. simpl. by rewrite bool_decide_true.
  - intros -> -> Htime. unfold recomputed_hash. simpl. rewrite Htime. done.
Qed.

Local Abbreviation answer :=
  (overlay_answer enabled_clients streamer_request_hash p2p_http_request_hash).

(** [fetch_content_from_network], run: the answer of the clients, then the
    hash check on the bytes they gave. *)
Lemma fetch_content_from_network_run h engine timeout w :
  fetch h engine timeout w
  = let '(found, asked) := answer h timeout in
    let w1 := mkWorld (filestore w) (calls w ++ asked) in
    match found with
    | inr (Some content) =>
        (Res.bind (verify content engine h w1).1 (λ _, Res.ok (Some content)),
         (verify content engine h w1).2)
    | _ => (found, w1)
    end.
Proof.
  unfold fetch_content_from_network, overlay_answer, request_hash,
    http_request_hash, log_call. run.
  destruct (bool_decide ("protocol"%string ∈ enabled_clients)); run.
  - destruct (streamer_request_hash h) as [e|[c|]]; run; [done| |].
    + by destruct (verify _ _ _ _) as [[e|[]] w'].
    + destruct (bool_decide ("http"%string ∈ enabled_clients)); run; [|done].
      rewrite <- app_assoc. simpl.
      destruct (p2p_http_request_hash h timeout) as [e|[c|]]; run;
        [done| |done].
      by destruct (verify _ _ _ _) as [[e|[]] w'].
  - destruct (bool_decide ("http"%string ∈ enabled_clients)); run.
    + destruct (p2p_http_request_hash h timeout) as [e|[c|]]; run;
        [done| |done].
      by destruct (verify _ _ _ _) as [[e|[]] w'].
    + rewrite app_nil_r. by destruct w.
Qed.

Lemma new_calls_app w fs l : new_calls w (mkWorld fs (calls w ++ l)) = l.
Proof. unfold new_calls. simpl. by rewrite drop_app_length. Qed.

(** The state after [fetch_content_from_network]: the store is the same and
    the log has grown by the calls to the clients and to the hash check. *)
Lemma fetch_content_from_network_world h engine timeout w :
  ∃ checked,
    (fetch h engine timeout w).2
    = mkWorld (filestore w) (calls w ++ (answer h timeout).2 ++ checked)
    ∧ (checked = [] ∨ ∃ content, checked = verify_calls ipfs_enabled engine content h).
Proof.
  rewrite fetch_content_from_network_run.
  destruct (answer h timeout) as [[e|[c|]] asked]; simpl.
  - exists []. rewrite app_nil_r. auto.
  - rewrite verify_content_hash_run. simpl. eexists.
    rewrite <- app_assoc. eauto.
  - exists []. rewrite app_nil_r. auto.
Qed.

(** X9: the HTTP client of the overlay is asked exactly when it is enabled
    and the stream client is disabled or answered that it has nothing; bytes
    or an exception of the stream client end the fetch without it. *)
Theorem fetch_content_from_network_http_fallback h engine timeout w :
  Exists (λ c, is_http_call c = true)
    (new_calls w (fetch h engine timeout w).2)
  ↔ "http"%string ∈ enabled_clients
    ∧ ("protocol"%string ∉ enabled_clients
       ∨ streamer_request_hash h = Res.ok None).
Proof.
  destruct (fetch_content_from_network_world h engine timeout w)
    as (checked & -> & Hchecked).
  rewrite new_calls_app, Exists_app.
  assert (Hno : ¬ Exists (λ c, is_http_call c = true) checked).
  { destruct Hchecked as [-> | [content ->]]; [by intros ?%Exists_nil|].
    unfold verify_calls. case_match; [|by intros ?%Exists_nil].
    intros [?|?%Exists_nil]%Exists_cons; done. }
  unfold overlay_answer.
  destruct (bool_decide_reflect ("protocol"%string ∈ enabled_clients))
    as [Hp|Hp]; simpl.
  - destruct (streamer_request_hash h) as [e|[c|]] eqn:Hs; simpl.
    + split.
      * intros [[?|?%Exists_nil]%Exists_cons|?]; done.
      * intros [_ [?|?]]; done.
    + split.
      * intros [[?|?%Exists_nil]%Exists_cons|?]; done.
      * intros [_ [?|?]]; done.
    + destruct (bool_decide_reflect ("http"%string ∈ enabled_clients))
        as [Hh|Hh]; simpl.
      * split; [auto|]. intros _. left. apply Exists_cons. right.
        apply Exists_cons. by left.
      * split.
        -- intros [[?|?%Exists_nil]%Exists_cons|?]; done.
        -- intros [? _]; done.
  - destruct (bool_decide_reflect ("http"%string ∈ enabled_clients))
      as [Hh|Hh]; simpl.
    + split; [auto|]. intros _. left. apply Exists_cons. by left.
    + split.
      * intros [?%Exists_nil|?]; done.
      * intros [? _]; done.
Qed.

Lemma overlay_answer_calls h timeout :
  Forall (λ c, is_overlay_call c = true) (answer h timeout).2.
Proof.
  unfold overlay_answer.
  repeat case_match; simplify_eq/=; repeat constructor.
Qed.

(** The state after the overlay has been given its turn. *)
Lemma overlay_yields_world un h engine timeout w :
  ∃ asked,
    (overlay un h engine timeout w).2
    = mkWorld (filestore w) (calls w ++ asked)
    ∧ (un = false → asked = [])
    ∧ (ipfs_enabled = false ∨ engine ≠ IPFS →
       Forall (λ c, is_ipfs_call c = false) asked).
Proof.
  unfold overlay_yields. destruct un.
  - destruct (fetch_content_from_network_world h engine timeout w)
      as (checked & -> & Hchecked).
    eexists. split_and!; [done|done|].
    intros Hoff. apply Forall_app. split.
    + eapply Forall_impl; [apply overlay_answer_calls|].
      by intros [] ?.
    + destruct Hchecked as [-> | [content ->]]; [done|].
      unfold verify_calls.
      destruct Hoff as [-> | Hne].
      * by rewrite andb_false_r.
      * by rewrite bool_decide_false.
  - exists []. simpl. rewrite app_nil_r. by destruct w.
Qed.

(** The state after [get_hash_content]: what was asked, in order, and what
    became of the local store. *)
Lemma get_hash_content_world h engine timeout tries un ui sv w :
  ∃ asked rest fs,
    (resolve h engine timeout tries un ui sv w).2
    = mkWorld fs (calls w ++ [CallGetValue h] ++ asked ++ rest)
    ∧ (un = false → asked = [])
    ∧ (ipfs_enabled = false ∨ engine ≠ IPFS →
       Forall (λ c, is_ipfs_call c = false) asked ∧
       Forall (λ c, ∃ b, c = CallSetValue h b) rest)
    ∧ Forall (λ c, is_overlay_call c = false) rest
    ∧ (fs = filestore w
       ∨ ∃ b, fs = <[h := b]> (filestore w)
              ∧ sv = true ∧ filestore w !! h = None).
Proof.
  rewrite get_hash_content_run.
  destruct (filestore w !! h) as [b|] eqn:Hdb.
  { exists [], [], (filestore w). simpl. split_and!; auto. }
  destruct (overlay_yields_world un h engine timeout (asked_store h w))
    as (asked & Hw2 & Hun & Hoff).
  destruct (overlay _ _ _ _ _) as [found w2]. simpl in Hw2. subst w2.
  assert (Hcache : ∀ src b w1 extra,
    calls w1 = calls w ++ [CallGetValue h] ++ asked ++ extra →
    filestore w1 = filestore w →
    (ipfs_enabled = false ∨ engine ≠ IPFS → extra = []) →
    Forall (λ c, is_overlay_call c = false) extra →
    ∃ rest fs,
      (cache_and_return set_value_error sv h src b w1).2
      = mkWorld fs (calls w ++ [CallGetValue h] ++ asked ++ rest)
      ∧ (ipfs_enabled = false ∨ engine ≠ IPFS →
         Forall (λ c, ∃ b, c = CallSetValue h b) rest)
      ∧ Forall (λ c, is_overlay_call c = false) rest
      ∧ (fs = filestore w
         ∨ ∃ b, fs = <[h := b]> (filestore w)
                ∧ sv = true ∧ filestore w !! h = None)).
  { intros src b w1 extra Hcalls Hfs Hextra Hov. unfold cache_and_return.
    destruct sv; [destruct (set_value_error h b)|]; simpl.
    - exists (extra ++ [CallSetValue h b]), (filestore w).
      rewrite Hcalls, Hfs, <- !app_assoc. split_and!; auto.
      + intros Hoff'. rewrite (Hextra Hoff'). repeat constructor. eauto.
      + apply Forall_app. split; [done|]. by repeat constructor.
    - exists (extra ++ [CallSetValue h b]), (<[h:=b]> (filestore w)).
      rewrite Hcalls, Hfs, <- !app_assoc. split_and!; eauto.
      + intros Hoff'. rewrite (Hextra Hoff'). repeat constructor. eauto.
      + apply Forall_app. split; [done|]. by repeat constructor.
    - exists extra, (filestore w). destruct w1 as [fs1 cs1]. simpl in *.
      subst. split_and!; auto.
      intros Hoff'. by rewrite (Hextra Hoff'). }
  destruct found as [e|[b|]].
  - exists asked, [], (filestore w). simpl. rewrite app_nil_r, <- app_assoc.
    split_and!; auto.
  - destruct (Hcache P2P b
                (mkWorld (filestore (asked_store h w))
                         (calls (asked_store h w) ++ asked)) [])
      as (rest & fs & Hw & H1 & H2 & H3); simpl;
      [by rewrite app_nil_r, <- app_assoc|done|done|done|].
    exists asked, rest, fs. split_and!; [exact Hw|auto..].
    destruct H3 as [?|(? & ? & ? & ?)]; eauto 6.
  - unfold ipfs_yields.
    destruct (ipfs_enabled && bool_decide (engine = IPFS) && ui) eqn:Hcond.
    + assert (Hon : ¬ (ipfs_enabled = false ∨ engine ≠ IPFS)).
      { apply andb_true_iff in Hcond as [Hcond _].
        apply andb_true_iff in Hcond as [-> Heng%bool_decide_eq_true].
        intros [?|?]; done. }
      destruct (ipfs_get_content h timeout tries) as [e|[b|]].
      * exists asked, [CallGetIpfsContent h timeout tries], (filestore w).
        unfold asked_ipfs. simpl. rewrite <- !app_assoc. simpl.
        split_and!; auto; first [by intros ?|by repeat constructor].
      * destruct (Hcache SRC_IPFS b
                    (asked_ipfs h timeout tries
                       (mkWorld (filestore (asked_store h w))
                                (calls (asked_store h w) ++ asked)))
                    [CallGetIpfsContent h timeout tries])
          as (rest & fs & Hw & H1 & H2 & H3); simpl;
          [by rewrite <- !app_assoc|done|by intros ?|by repeat constructor|].
        exists asked, rest, fs. split_and!; [exact Hw|auto|by intros ?|auto..].
        destruct H3 as [?|(? & ? & ? & ?)]; eauto 6.
      * exists asked, [CallGetIpfsContent h timeout tries], (filestore w).
        unfold asked_ipfs. simpl. rewrite <- !app_assoc. simpl.
        split_and!; auto; first [by intros ?|by repeat constructor].
    + simpl. exists asked, [], (filestore w).
      rewrite app_nil_r, <- app_assoc. split_and!; auto.
Qed.

(** X10: a resolve never removes nor replaces an entry of the local store;
    the only key it can write is the hash it resolves, and it writes nothing
    when [store_value] is off. *)
Theorem get_hash_content_store_frame h engine timeout tries un ui sv w :
  let w' :=
    (get_hash_content ipfs_enabled enabled_clients streamer_request_hash
       p2p_http_request_hash ipfs_get_content add_ipfs_bytes get_sha256
       set_value_error h engine timeout tries un ui sv w).2 in
  (∀ k b, filestore w !! k = Some b → filestore w' !! k = Some b)
  ∧ (∀ k, k ≠ h → filestore w' !! k = filestore w !! k)
  ∧ (sv = false → filestore w' = filestore w).
Proof.
  destruct (get_hash_content_world h engine timeout tries un ui sv w)
    as (asked & rest & fs & -> & _ & _ & _ & Hfs).
  simpl. destruct Hfs as [-> | (b' & -> & -> & Hmiss)]; [done|].
  split_and!; [|by intros k ?; rewrite lookup_insert_ne|done].
  intros k b Hk. rewrite lookup_insert_ne; [done|]. by intros ->; simplify_eq.
Qed.

(** X11: a resolve asks the peer overlay nothing when [use_network] is off,
    and asks the IPFS daemon nothing, neither for content nor for a hash,
    when the subsystem is disabled or the engine is not IPFS. *)
Theorem get_hash_content_contacts h engine timeout tries un ui sv w :
  let w' :=
    (get_hash_content ipfs_enabled enabled_clients streamer_request_hash
       p2p_http_request_hash ipfs_get_content add_ipfs_bytes get_sha256
       set_value_error h engine timeout tries un ui sv w).2 in
  calls w' = calls w ++ new_calls w w'
  ∧ (un = false → Forall (λ c, is_overlay_call c = false) (new_calls w w'))
  ∧ (ipfs_enabled = false ∨ engine ≠ IPFS →
     Forall (λ c, is_ipfs_call c = false) (new_calls w w')).
Proof.
  destruct (get_hash_content_world h engine timeout tries un ui sv w)
    as (asked & rest & fs & -> & Hun & Hoff & Hrest & _).
  simpl. rewrite new_calls_app. split_and!; [done| |].
  - intros Hno. rewrite (Hun Hno). simpl. by constructor.
  - intros Hno. destruct (Hoff Hno) as [Ha Hr]. constructor; [done|].
    apply Forall_app. split; [done|].
    eapply Forall_impl; [exact Hr|]. by intros c [b ->].
Qed.

End storage_more.

(** ** JSON documents, and adding content *)

Section storage_documents_facts.
Variable ipfs_enabled : bool.
Variable enabled_clients : list string.
Variable streamer_request_hash : string → Res.t (option (list Byte.byte)).
Variable p2p_http_request_hash : string → Z → Res.t (option (list Byte.byte)).
Variable ipfs_get_content : string → Z → Z → Res.t (option (list Byte.byte)).
Variable add_ipfs_bytes : list Byte.byte → Z → Res.t string.
Variable get_sha256 : pyval → Res.t string.
Variable set_value_error : string → list Byte.byte → option exc.
Variable json_loads : pyval → Res.t (option pyval).
Variable json_dumps : pyval → Res.t string.
Variable encode_utf8 : string → list Byte.byte.
Variable sha256_hexdigest : list Byte.byte → string.
Variable item_type_of_string : string → option ItemType.
Variable default_cid_version : Z.
Variable ipfs_add_file :
  fileobj → option string → Res.t (gmap string string) * nat.
(** [get_json] on a [content_hash] that is not a string, against its
    annotation: the value goes as it is to the file store and to the network
    clients, and what they make of such a key is theirs. *)
Variable get_json_of_value :
  pyval → ItemType → Z → Z → St.t world JsonContent.

Local Abbreviation resolve :=
  (get_hash_content ipfs_enabled enabled_clients streamer_request_hash
     p2p_http_request_hash ipfs_get_content add_ipfs_bytes get_sha256
     set_value_error).
Local Abbreviation json :=
  (get_json ipfs_enabled enabled_clients streamer_request_hash
     p2p_http_request_hash ipfs_get_content add_ipfs_bytes get_sha256
     set_value_error json_loads).
Local Abbreviation message_content :=
  (get_message_content ipfs_enabled enabled_clients streamer_request_hash
     p2p_http_request_hash ipfs_get_content add_ipfs_bytes get_sha256
     set_value_error json_loads item_type_of_string get_json_of_value).
Local Abbreviation put_json :=
  (add_json add_ipfs_bytes set_value_error json_dumps encode_utf8
     sha256_hexdigest default_cid_version).
Local Abbreviation put_file :=
  (add_file set_value_error sha256_hexdigest ipfs_add_file).

Local Ltac run :=
  unfold St.bind, St.ret, St.raise, St.lift, St.gets, St.modify,
    St.try_except, Res.ok, Res.raise in *; simpl in *.

(** With [store_value] on, the bytes that a resolve returns are in the
    local store when it returns. *)
Lemma get_hash_content_stored h engine timeout tries un ui w c w' :
  resolve h engine timeout tries un ui true w = (Res.ok c, w') →
  hash c = h ∧ filestore w' !! h = Some (value c).
Proof.
  rewrite get_hash_content_run.
  destruct (filestore w !! h) as [b|] eqn:Hdb; [by intros [= <- <-]|].
  destruct (overlay_yields _ _ _ _ _ _ _ _ _ _ _) as [[e|[b|]] w2]; [done| |].
  - unfold cache_and_return. destruct (set_value_error h b); [done|].
    intros [= <- <-]. split; [done|apply lookup_insert_eq].
  - destruct (ipfs_yields _ _ _ _ _ _ _) as [e|[b|]]; [done| |done].
    unfold cache_and_return. destruct (set_value_error h b); [done|].
    intros [= <- <-]. split; [done|apply lookup_insert_eq].
Qed.

(** X12: a document that [get_json] returns is the decoding of bytes that
    are, when it returns, in the local store under the hash asked for. *)
Theorem get_json_result h engine timeout tries w r w' :
  json h engine timeout tries w = (Res.ok r, w') →
  ∃ b, j_hash r = PStr h
       ∧ raw_content r = PBytes b
       ∧ json_loads (PBytes b) = Res.ok (Some (j_value r))
       ∧ filestore w' !! h = Some b.
Proof.
  unfold get_json, json_async_loads. run.
  destruct (resolve _ _ _ _ _ _ _ _) as [[e|c] w1] eqn:Hres; [done|].
  apply get_hash_content_stored in Hres as [Hh Hst].
  destruct (json_loads _) as [e|[j|]] eqn:Hj; [done| |done].
  intros [= <- <-]. exists (value c). simpl. by rewrite Hh.
Qed.

(** X13: once the bytes are resolved, [json.loads] alone decides what
    [get_json] does: its [JSONDecodeError] becomes [InvalidContent], any
    other exception of it (the [UnicodeDecodeError] of bytes that are not
    UTF-8 is one) leaves [get_json] as it is, and a decoded value is
    returned.  In each case the bytes are in the local store. *)
Theorem get_json_undecodable h engine timeout tries w c w' :
  resolve h engine timeout tries true true true w = (Res.ok c, w') →
  json h engine timeout tries w
  = (match json_loads (PBytes (value c)) with
     | inr None => Res.raise InvalidContent
     | inl e => Res.raise e
     | inr (Some v) =>
         Res.ok (mkJsonContent (PStr h) (source c) v (PBytes (value c)))
     end, w')
  ∧ filestore w' !! h = Some (value c).
Proof.
  intros Hres.
  destruct (get_hash_content_stored _ _ _ _ _ _ _ _ _ Hres) as [Hh Hst].
  split; [|done].
  unfold get_json, json_async_loads. run. rewrite Hres, Hh.
  by destruct (json_loads _) as [e|[v|]].
Qed.

(** X14: the content of an inline message is read from the message alone:
    neither the local store nor any network is touched, the document
    returned is the decoding of [item_content], and a message without
    [item_content] is refused with [InvalidContent]. *)
Theorem get_message_content_inline m w hv :
  as_item_type item_type_of_string
    (default (PItem IPFS) (m !! "item_type"%string)) = Some Inline →
  m !! "item_hash"%string = Some hv →
  (message_content m w).2 = w
  ∧ (∀ r, (message_content m w).1 = Res.ok r →
       j_hash r = hv ∧ j_source r = Some INLINE
       ∧ m !! "item_content"%string = Some (raw_content r)
       ∧ json_loads (raw_content r) = Res.ok (Some (j_value r)))
  ∧ (m !! "item_content"%string = None →
     (message_content m w).1 = Res.raise InvalidContent).
Proof.
  intros Hty Hh. unfold get_message_content, getitem, json_async_loads.
  rewrite Hh. run. rewrite Hty.
  destruct (m !! "item_content"%string) as [content|]; run; [|done].
  destruct (json_loads content) as [e|[j|]] eqn:Hj; run.
  - by destruct (is_key_error e).
  - split_and!; [done| |done]. by intros r [= <-].
  - done.
Qed.

Lemma get_hash_content_hit h engine timeout tries un ui sv w b :
  filestore w !! h = Some b →
  resolve h engine timeout tries un ui sv w
  = (Res.ok (mkRawContent h (Some DB) b), asked_store h w).
Proof. intros Hdb. by rewrite get_hash_content_run, Hdb. Qed.

(** [add_json], run. *)
Lemma add_json_run v engine w :
  put_json v engine w
  = match json_dumps v with
    | inl e => (Res.raise e, w)
    | inr s =>
        let content := encode_utf8 s in
        let '(chash, w1) :=
          match engine with
          | IPFS =>
              (add_ipfs_bytes content default_cid_version,
               mkWorld (filestore w)
                 (calls w ++ [CallAddIpfsBytes content default_cid_version]))
          | Storage => (Res.ok (sha256_hexdigest content), w)
          | Inline => (Res.raise (OtherError "NotImplementedError"), w)
          end in
        match chash with
        | inl e => (Res.raise e, w1)
        | inr chash =>
            let w2 := mkWorld (filestore w1)
                        (calls w1 ++ [CallSetValue chash content]) in
            match set_value_error chash content with
            | Some e => (Res.raise e, w2)
            | None =>
                (Res.ok chash,
                 mkWorld (<[chash := content]> (filestore w1)) (calls w2))
            end
        end
    end.
Proof.
  unfold add_json, add_bytes, set_value, log_call. run.
  destruct (json_dumps v) as [e|s]; run; [done|].
  destruct engine; run; [done| |].
  - by destruct (set_value_error _ _).
  - destruct (add_ipfs_bytes _ _) as [e|chash]; run; [done|].
    by destruct (set_value_error _ _).
Qed.

(** X15: what [add_json] stores, [get_hash_content] gives back: after a
    successful [add_json] the serialized value is in the local store under
    the hash returned, which for the [Storage] engine is its SHA-256, and any
    resolve of that hash returns these bytes from the local store. *)
Theorem add_json_round_trip v engine w h w' :
  put_json v engine w = (Res.ok h, w') →
  ∃ s, json_dumps v = Res.ok s
       ∧ (engine = Storage → h = sha256_hexdigest (encode_utf8 s))
       ∧ ∀ engine' timeout tries un ui sv,
           resolve h engine' timeout tries un ui sv w'
           = (Res.ok (mkRawContent h (Some DB) (encode_utf8 s)),
              asked_store h w').
Proof.
  rewrite add_json_run.
  destruct (json_dumps v) as [e|s]; [done|]. simpl.
  intros Hrun. exists s. split; [done|].
  destruct engine; simpl in Hrun; [done| |].
  - destruct (set_value_error _ _); [done|]. injection Hrun as <- <-.
    split; [done|]. intros. apply get_hash_content_hit. simpl.
    apply lookup_insert_eq.
  - destruct (add_ipfs_bytes _ _) as [e|chash]; [done|].
    destruct (set_value_error _ _); [done|]. injection Hrun as <- <-.
    split; [done|]. intros. apply get_hash_content_hit. simpl.
    apply lookup_insert_eq.
Qed.

(** X16: an [add_json] that raises leaves the local store as it was, and
    the inline engine always raises: the error of the serialization, or
    [NotImplementedError]. *)
Theorem add_json_failure v engine w :
  (∀ e w', put_json v engine w = (Res.raise e, w') →
     filestore w' = filestore w)
  ∧ (engine = Inline →
     put_json v engine w
     = (match json_dumps v with
        | inl e => Res.raise e
        | inr _ => Res.raise (OtherError "NotImplementedError")
        end, w)).
Proof.
  rewrite add_json_run. split.
  - intros e w'. destruct (json_dumps v) as [e'|s]; [by intros [= <- <-]|].
    simpl. destruct engine; simpl.
    + by intros [= <- <-].
    + destruct (set_value_error _ _); [|done]. by intros [= <- <-].
    + destruct (add_ipfs_bytes _ _) as [e'|chash]; [by intros [= <- <-]|].
      destruct (set_value_error _ _); [|done]. by intros [= <- <-].
  - intros ->. by destruct (json_dumps v).
Qed.

(** X17: when [get_sha256] computes the SHA-256 that [hashlib] computes,
    what [add_json] stores with the [Storage] engine passes the hash check of
    the resolver against the hash returned. *)
Theorem add_json_storage_verifies v w h w' s :
  (∀ b, get_sha256 (PBytes b) = Res.ok (sha256_hexdigest b)) →
  put_json v Storage w = (Res.ok h, w') →
  json_dumps v = Res.ok s →
  ∀ w0, (verify_content_hash ipfs_enabled add_ipfs_bytes get_sha256
           (encode_utf8 s) Storage h w0).1 = Res.ok tt.
Proof.
  intros Hagree Hrun Hs w0.
  rewrite add_json_run, Hs in Hrun. simpl in Hrun.
  destruct (set_value_error _ _); [done|]. injection Hrun as <- <-.
  rewrite verify_content_hash_run. unfold recomputed_hash. simpl.
  rewrite Hagree. unfold Res.ok. simpl. by case_bool_decide.
Qed.

(** X18: [add_file] stores, under the hash it returns, the bytes of the
    file object from its position on with the [Storage] engine, the hash
    being their SHA-256, and the whole file, whatever the position, with the
    [IPFS] engine, the hash being the ["Hash"] of the IPFS answer; the file
    object is left at its end.  The inline engine raises [ValueError]. *)
Theorem add_file_stores f name w :
  (∀ h f' w', put_file f name Storage w = (Res.ok (h, f'), w') →
     h = sha256_hexdigest (drop (f_pos f) (f_data f))
     ∧ filestore w' !! h = Some (drop (f_pos f) (f_data f))
     ∧ f' = mkFile (f_data f) (Nat.max (f_pos f) (length (f_data f))))
  ∧ (∀ h f' w', put_file f name IPFS w = (Res.ok (h, f'), w') →
       (∃ output, (ipfs_add_file f name).1 = Res.ok output
                  ∧ output !! "Hash"%string = Some h)
       ∧ filestore w' !! h = Some (f_data f)
       ∧ f' = mkFile (f_data f) (length (f_data f)))
  ∧ put_file f name Inline w = (Res.raise ValueError, w).
Proof.
  unfold add_file, set_value, log_call, file_read, file_seek. split_and!.
  - intros h f' w'. run. destruct (set_value_error _ _); [done|].
    intros [= <- <- <-]. split_and!; [done| |done]. simpl.
    apply lookup_insert_eq.
  - intros h f' w'. run.
    destruct (ipfs_add_file f name) as [[e|output] pos]; run; [done|].
    destruct (output !! "Hash"%string) as [file_hash|] eqn:Hhash; run;
      [|done].
    destruct (set_value_error _ _); [done|].
    intros [= <- <- <-]. split_and!; [eauto| |done]. simpl.
    apply lookup_insert_eq.
  - by run.
Qed.

End storage_documents_facts.

(** ** The pending jobs *)

Lemma bulk_write_deletes_sublist {D} acts (c : collection D) :
  Forall is_delete acts → bulk_write acts c `sublist_of` c.
Proof.
  unfold bulk_write. intros Hacts. revert c.
  induction Hacts as [|op acts [id ->] _ IH]; intros c; simpl; [done|].
  etrans; [apply IH|apply delete_one_sublist].
Qed.

Lemma delete_one_gone {D} id (c : collection D) :
  NoDup c.*1 → id ∉ (delete_one id c).*1.
Proof.
  induction c as [|d c IH]; simpl; [by intros _ ?%elem_of_nil|].
  intros [Hd Hc]%NoDup_cons. case_bool_decide as Heq.
  - by rewrite <- Heq.
  - simpl. intros [?|?]%elem_of_cons; [done|]. by apply IH.
Qed.

Lemma bulk_write_deletes_gone {D} id acts (c : collection D) :
  Forall is_delete acts → NoDup c.*1 →
  id ∉ c.*1 ∨ DeleteOne id ∈ acts →
  id ∉ (bulk_write acts c).*1.
Proof.
  unfold bulk_write. intros Hacts. revert c.
  induction Hacts as [|op acts [id' ->] Hacts IH]; intros c Hnd Hid; simpl.
  - destruct Hid as [?|?%elem_of_nil]; done.
  - apply IH.
    + eapply sublist_NoDup; [exact Hnd|].
      apply fmap_sublist, delete_one_sublist.
    + destruct Hid as [Hout|[Heq|Hin]%elem_of_cons].
      * left. intros Hin. apply Hout.
        eapply elem_of_sublist; [exact Hin|].
        apply fmap_sublist, delete_one_sublist.
      * injection Heq as <-. left. by apply delete_one_gone.
      * by right.
Qed.

Lemma bulk_write_inserts_prefix {D} (docs : list D) (c : collection D) :
  c `prefix_of` bulk_write (map InsertOne docs) c.
Proof.
  unfold bulk_write. revert c.
  induction docs as [|d docs IH]; intros c; simpl; [done|].
  etrans; [|apply IH]. by apply prefix_app_r.
Qed.

Section jobs_more.
Variable incoming :
  msg → option string → option string → option Z → list pyval →
  bool → bool → Res.t pyval * list pyval.
Variable get_chaindata_messages :
  pyval → tx_context → Res.t (option chaindata).

Local Abbreviation handle_tx := (handle_pending_tx get_chaindata_messages).
Local Abbreviation handle_msg := (handle_pending_message incoming).

Local Ltac run :=
  unfold St.bind, St.ret, St.raise, St.lift, St.gets, St.modify,
    St.try_except, Res.ok, Res.raise in *; simpl in *.

(** [handle_pending_message] on a record of a chain that [seen_ids] knows. *)
Lemma handle_pending_message_run (p : oid * pending_message) s chain seen :
  src_chain_name (pm_source p.2) = Some chain →
  seen_ids s !! chain = Some seen →
  let src := pm_source p.2 in
  let out := incoming (pm_message p.2) (Some chain) (src_tx_hash src)
               (src_height src) seen
               (default true (src_check_message src)) true in
  handle_msg p s
  = (Res.bind out.1 (λ _, Res.ok tt),
     mkRetry (<[chain := out.2]> (seen_ids s))
             (actions s ++ delete_if (is_true out.1) p.1)
             (mkNode (PendingMessage (retry_node s))
                     (PendingTX (retry_node s))
                     (gathered (retry_node s))
                     (incoming_calls (retry_node s) ++ [pm_message p.2]))).
Proof.
  intros Hc Hs. unfold handle_pending_message. run. rewrite Hc. simpl.
  rewrite Hs. simpl.
  destruct (incoming _ _ _ _ _ _ _) as [[e|result] seen']; run.
  - by rewrite app_nil_r.
  - destruct result as [|[]| | | | | | |]; simpl; by rewrite ?app_nil_r.
Qed.

(** X19: the handler of a pending message schedules the delete of its
    record exactly when [incoming] returns the boolean [True]: no other
    value and no exception does; the list of seen identifiers of the chain
    is kept as [incoming] left it in every case. *)
Theorem handle_pending_message_outcome
    (p : oid * pending_message) s chain seen :
  src_chain_name (pm_source p.2) = Some chain →
  seen_ids s !! chain = Some seen →
  let src := pm_source p.2 in
  let out := incoming (pm_message p.2) (Some chain) (src_tx_hash src)
               (src_height src) seen
               (default true (src_check_message src)) true in
  actions (handle_msg p s).2 = actions s ++ delete_if (is_true out.1) p.1
  ∧ seen_ids (handle_msg p s).2 = <[chain := out.2]> (seen_ids s)
  ∧ PendingMessage (retry_node (handle_msg p s).2)
    = PendingMessage (retry_node s).
Proof.
  intros Hc Hs. simpl. by rewrite (handle_pending_message_run p s chain seen).
Qed.

(** X20: the handler of a pending transaction schedules the delete of the
    transaction exactly when the extractor answers something that is not
    null, be it a list or not, and touches the pending message queue only
    for a list that is not empty; an exception of the extractor changes
    nothing. *)
Theorem handle_pending_tx_outcome (p : oid * pending_tx) s :
  let messages :=
    get_chaindata_messages (ptx_content p.2) (ptx_context p.2) in
  tx_actions (handle_tx p s).2
  = tx_actions s ++ delete_if (is_answer messages) p.1
  ∧ PendingTX (txs_node (handle_tx p s).2) = PendingTX (txs_node s)
  ∧ ((∀ l, messages = Res.ok (Some (Messages l)) → l = []) →
     PendingMessage (txs_node (handle_tx p s).2)
     = PendingMessage (txs_node s))
  ∧ (∀ e, messages = Res.raise e → handle_tx p s = (Res.raise e, s)).
Proof.
  simpl. unfold handle_pending_tx. run.
  destruct (get_chaindata_messages _ _) as [e|[[l|v]|]] eqn:Hm; run.
  - rewrite app_nil_r. split_and!; try done. by intros e' [= ->].
  - case_bool_decide as Hne; run.
    + split_and!; try done. intros Hl. by rewrite (Hl l eq_refl) in Hne.
    + split_and!; done.
  - split_and!; done.
  - rewrite app_nil_r. split_and!; done.
Qed.

(** What a handler of a pending message can change. *)
Lemma handle_pending_message_effect (p : oid * pending_message) s :
  PendingMessage (retry_node (handle_msg p s).2)
  = PendingMessage (retry_node s)
  ∧ PendingTX (retry_node (handle_msg p s).2) = PendingTX (retry_node s)
  ∧ dom (seen_ids (handle_msg p s).2) = dom (seen_ids s)
  ∧ (actions (handle_msg p s).2 = actions s
     ∨ actions (handle_msg p s).2 = actions s ++ [DeleteOne p.1]).
Proof.
  destruct (src_chain_name (pm_source p.2)) as [chain|] eqn:Hc.
  - destruct (seen_ids s !! chain) as [seen|] eqn:Hs.
    + rewrite (handle_pending_message_run p s chain seen Hc Hs). simpl.
      split_and!; [done|done| |].
      * apply dom_insert_lookup_L. eauto.
      * unfold delete_if. destruct (is_true _); [by right|left].
        by rewrite app_nil_r.
    + unfold handle_pending_message. run. rewrite Hc. simpl. rewrite Hs.
      simpl. auto.
  - unfold handle_pending_message. run. rewrite Hc. simpl. auto.
Qed.

(** X21: a sweep of the pending messages ends without raising, whatever its
    handlers raise; it only deletes: what is left of the queue is a sublist
    of what it was, and the queue of pending transactions is not touched. *)
Theorem retry_messages_job_only_deletes nd :
  (retry_messages_job incoming nd).1 = Res.ok tt
  ∧ PendingMessage (retry_messages_job incoming nd).2
    `sublist_of` PendingMessage nd
  ∧ PendingTX (retry_messages_job incoming nd).2 = PendingTX nd.
Proof.
  destruct (retry_messages_job_inv incoming
    (λ s, PendingMessage (retry_node s) `sublist_of` PendingMessage nd
          ∧ PendingTX (retry_node s) = PendingTX nd
          ∧ Forall is_delete (actions s)) nd)
    as (s & (Hsub & Htx & _) & ->); [| | | |done].
  - intros q s _ (Hsub & Htx & Hacts).
    destruct (handle_pending_message_effect q s) as (-> & -> & _ & Ha).
    split_and!; [done|done|].
    destruct Ha as [-> | ->]; [done|].
    apply Forall_app. split; [done|]. apply Forall_singleton. by eexists.
  - by intros n s _ ?.
  - intros s (Hsub & Htx & Hacts). unfold flush_retry.
    case_bool_decide; [|done]. simpl. split_and!; [|done|done].
    etrans; [by apply bulk_write_deletes_sublist|done].
  - done.
Qed.

(** What a handler of a pending transaction can change. *)
Lemma handle_pending_tx_effect (p : oid * pending_tx) s :
  PendingMessage (txs_node s)
  `prefix_of` PendingMessage (txs_node (handle_tx p s).2)
  ∧ PendingTX (txs_node (handle_tx p s).2) = PendingTX (txs_node s)
  ∧ (tx_actions (handle_tx p s).2 = tx_actions s
     ∨ tx_actions (handle_tx p s).2 = tx_actions s ++ [DeleteOne p.1]).
Proof.
  unfold handle_pending_tx. run.
  destruct (get_chaindata_messages _ _) as [e|[[l|v]|]]; run; auto.
  case_bool_decide; run; [|auto].
  split_and!; [|done|auto].
  rewrite <- (map_map _ InsertOne). apply bulk_write_inserts_prefix.
Qed.

(** X22: a sweep of the pending transactions ends without raising; it only
    deletes transactions and only appends to the queue of pending
    messages. *)
Theorem handle_txs_job_monotone nd :
  (handle_txs_job get_chaindata_messages nd).1 = Res.ok tt
  ∧ PendingTX (handle_txs_job get_chaindata_messages nd).2
    `sublist_of` PendingTX nd
  ∧ PendingMessage nd
    `prefix_of` PendingMessage (handle_txs_job get_chaindata_messages nd).2.
Proof.
  destruct (handle_txs_job_inv get_chaindata_messages
    (λ s, PendingTX (txs_node s) `sublist_of` PendingTX nd
          ∧ PendingMessage nd `prefix_of` PendingMessage (txs_node s)
          ∧ Forall is_delete (tx_actions s)) nd)
    as (s & (Hsub & Hpre & _) & ->); [| | | |done].
  - intros q s (Hsub & Hpre & Hacts).
    destruct (handle_pending_tx_effect q s) as (Hp & -> & Ha).
    split_and!; [done|by etrans|].
    destruct Ha as [-> | ->]; [done|].
    apply Forall_app. split; [done|]. apply Forall_singleton. by eexists.
  - by intros n s _ ?.
  - intros s (Hsub & Hpre & Hacts). unfold flush_txs.
    case_bool_decide; [|done]. simpl. split_and!; [|done|done].
    etrans; [by apply bulk_write_deletes_sublist|done].
  - done.
Qed.

End jobs_more.

(** ** The jobs on the event loop: runs and schedules *)

Lemma coro_induction {S} (P : coro S → Prop) :
  (∀ r, P (Ret r)) →
  (∀ resume, (∀ s, P (resume s).2) → P (Await resume)) →
  ∀ c, P c.
Proof.
  intros HR HA. fix IH 1. intros [r|resume].
  - apply HR.
  - apply HA. intros s. apply IH.
Qed.

Lemma run_loop_app {S P} (job_turn : event_loop S P → event_loop S P)
    s1 s2 l :
  run_loop job_turn (s1 ++ s2) l
  = run_loop job_turn s2 (run_loop job_turn s1 l).
Proof. apply foldl_app. Qed.

(** The task at the head of the loop, run turn after turn to its end. *)
Lemma task_runs_to_end {S P} (job_turn : event_loop S P → event_loop S P)
    (rest : list (task S)) (p : P) (c : coro S) :
  ∀ (f : routine S) s0 s st b xs,
    f s0 = (s, c) →
    ∃ n, run_loop job_turn (replicate n (TaskTurn 0))
           (mkLoop s0 (mkTask true st f :: rest) b xs p)
         = mkLoop (complete c s).2 rest
                  (b || is_exception (complete c s).1)
                  (xs ++ exception_of (complete c s).1) p.
Proof.
  induction c as [r|resume IH] using coro_induction;
    intros f s0 s st b xs Hf.
  - exists 1%nat. simpl. unfold task_turn. simpl. by rewrite Hf.
  - destruct (resume s) as [s' c'] eqn:Hres.
    specialize (IH s). rewrite Hres in IH. simpl in IH.
    destruct (IH resume s s' true b xs Hres) as [n Hn].
    exists (Datatypes.S n). simpl. unfold task_turn at 1. simpl. rewrite Hf. simpl.
    rewrite Hn. by rewrite Hres.
Qed.

(** The tasks of a gather, each run to its end before the next starts:
    what [run_all] makes of them. *)
Lemma gather_runs_to_end {S P} (job_turn : event_loop S P → event_loop S P)
    (p : P) (tasks : list (routine S)) :
  ∀ s b xs,
    ∃ n xs',
      run_loop job_turn (replicate n (TaskTurn 0))
        (mkLoop s (map (mkTask true false) tasks) b xs p)
      = mkLoop (run_all (map run_routine tasks) s).2 []
               (b || is_exception (run_all (map run_routine tasks) s).1)
               xs' p.
Proof.
  induction tasks as [|f tasks IH]; intros s b xs.
  - exists 0%nat, xs. simpl. by rewrite orb_false_r.
  - simpl. destruct (f s) as [s1 c] eqn:Hf.
    destruct (task_runs_to_end job_turn (map (mkTask true false) tasks) p c
                f s s1 false b xs Hf) as [n1 H1].
    destruct (IH (complete c s1).2 (b || is_exception (complete c s1).1)
                (xs ++ exception_of (complete c s1).1))
      as (n2 & xs' & H2).
    exists (n1 + n2)%nat, xs'.
    rewrite replicate_add, run_loop_app, H1, H2.
    assert (Hrun : run_routine f s = complete c s1).
    { unfold run_routine. by rewrite Hf. }
    rewrite Hrun.
    destruct (complete c s1) as [r s2]. simpl.
    destruct (run_all _ s2) as [r' s3]. simpl.
    f_equal. destruct b, r, r'; reflexivity.
Qed.

Lemma run_all_ext {S} (fs gs : list (St.t S unit)) :
  Forall2 (λ f g, ∀ s, f s = g s) fs gs → ∀ s, run_all fs s = run_all gs s.
Proof.
  induction 1 as [|f g fs gs Hfg _ IH]; intros s; [done|].
  simpl. rewrite Hfg. destruct (g s) as [r s']. by rewrite IH.
Qed.

Section atomic_runs.
Variable incoming :
  msg → option string → option string → option Z → list pyval →
  bool → bool → Res.t pyval * list pyval.
Variable get_chaindata_messages :
  pyval → tx_context → Res.t (option chaindata).

Lemma handle_pending_message_task_run p s :
  run_routine (handle_pending_message_task incoming p) s
  = handle_pending_message incoming p s.
Proof.
  unfold run_routine, handle_pending_message_task, handle_pending_message,
    incoming_returns.
  unfold St.bind, St.gets, St.modify, St.lift, St.raise, St.ret. simpl.
  destruct (src_chain_name (pm_source p.2)) as [k|]; simpl; [|done].
  destruct (seen_ids s !! k) as [seen|] eqn:E; simpl; [|done].
  rewrite E. simpl.
  destruct (incoming _ _ _ _ _ _ _) as [[e|r] seen']; simpl; [done|].
  destruct r as [|[]| | | | | | |]; done.
Qed.

Lemma handle_pending_tx_task_run p s :
  run_routine (handle_pending_tx_task get_chaindata_messages p) s
  = handle_pending_tx get_chaindata_messages p s.
Proof.
  unfold run_routine, handle_pending_tx_task, handle_pending_tx,
    chaindata_returns.
  unfold St.bind, St.gets, St.modify, St.lift, St.raise, St.ret. simpl.
  destruct (get_chaindata_messages _ _) as [e|[[l|v]|]]; simpl; try done.
  case_bool_decide; simpl; done.
Qed.

(** A join of the message job when the loop takes the tasks of the gather
    one after the other, each to its end. *)
Lemma retry_join_run tasks ts s rest xs at0 :
  Forall2 (λ f g, ∀ s, run_routine f s = g s) tasks ts →
  ∃ schedule xs',
    run_loop (retry_messages_turn incoming) schedule
      (gather tasks (Gathering rest)
         (mkLoop (note_retry (length tasks) s) [] false xs at0))
    = mkLoop (flush_retry (run_all ts (note_retry (length ts) s)).2)
             [] false xs' (after_join rest).
Proof.
  intros Hts.
  assert (Hlen : length tasks = length ts) by by eapply Forall2_length.
  assert (Hall : ∀ s, run_all (map run_routine tasks) s = run_all ts s).
  { apply run_all_ext. by apply Forall2_fmap_l. }
  destruct (gather_runs_to_end (retry_messages_turn incoming)
              (Gathering rest) tasks (note_retry (length tasks) s) false xs)
    as (n & xs' & Hn).
  unfold gather. simpl. rewrite Hall, Hlen in Hn. rewrite Hlen.
  set (s1 := (run_all ts (note_retry (length ts) s)).2) in *.
  destruct (bool_decide (length (actions s1) ≠ 0%nat)) eqn:Hact.
  - exists (replicate n (TaskTurn 0) ++ [JobTurn; JobTurn]), xs'.
    rewrite run_loop_app, Hn. simpl.
    unfold retry_messages_turn, job_turn at 2. simpl.
    unfold gather_over. simpl. rewrite orb_true_r, Hact.
    unfold job_turn. simpl. unfold flush_retry. by rewrite Hact.
  - exists (replicate n (TaskTurn 0) ++ [JobTurn]), xs'.
    rewrite run_loop_app, Hn. simpl.
    unfold retry_messages_turn, job_turn. simpl.
    unfold gather_over. simpl. rewrite orb_true_r, Hact.
    unfold flush_retry. by rewrite Hact.
Qed.

Lemma retry_messages_loop_run cursor :
  ∀ tasks ts i s xs,
    Forall2 (λ f g, ∀ s, run_routine f s = g s) tasks ts →
    ∃ schedule xs',
      run_loop (retry_messages_turn incoming) schedule
        (mkLoop s [] false xs (Iterating cursor tasks i))
      = mkLoop
          ((do ts' <- retry_messages_loop incoming cursor ts i;
            join_pending_message_tasks ts') s).2
          [] false xs' Returned.
Proof.
  induction cursor as [|p cursor IH]; intros tasks ts i s xs Hts.
  - destruct (retry_join_run tasks ts s None xs (Iterating [] tasks i) Hts)
      as (schedule & xs' & Hs).
    exists (JobTurn :: schedule), xs'. etrans; [exact Hs|].
    unfold St.bind, St.ret. simpl.
    by rewrite join_pending_message_tasks_run.
  - assert (Hts' : Forall2 (λ f g, ∀ s, run_routine f s = g s)
                     (tasks ++ [handle_pending_message_task incoming p])
                     (ts ++ [handle_pending_message incoming p])).
    { apply Forall2_app; [done|]. constructor; [|done].
      apply handle_pending_message_task_run. }
    assert (Hold :
      (do ts' <- retry_messages_loop incoming (p :: cursor) ts i;
       join_pending_message_tasks ts') s
      = if 200 <? i + 1 then
          (do_ join_pending_message_tasks
                 (ts ++ [handle_pending_message incoming p]);
           do ts' <- retry_messages_loop incoming cursor [] 0;
           join_pending_message_tasks ts') s
        else
          (do ts' <- retry_messages_loop incoming cursor
                       (ts ++ [handle_pending_message incoming p]) (i + 1);
           join_pending_message_tasks ts') s).
    { simpl. destruct (200 <? i + 1); [|done]. unfold St.bind.
      by destruct (join_pending_message_tasks _ s) as [[e|[]] s']. }
    assert (Hnew :
      retry_messages_turn incoming
        (mkLoop s [] false xs (Iterating (p :: cursor) tasks i))
      = if 200 <? i + 1 then
          gather (tasks ++ [handle_pending_message_task incoming p])
            (Gathering (Some cursor))
            (mkLoop
               (note_retry
                  (length (tasks ++ [handle_pending_message_task incoming p]))
                  s)
               [] false xs (Iterating (p :: cursor) tasks i))
        else
          mkLoop s [] false xs
            (Iterating cursor
               (tasks ++ [handle_pending_message_task incoming p]) (i + 1)))
      by reflexivity.
    rewrite Hold. clear Hold.
    destruct (200 <? i + 1) eqn:Hi.
    + destruct (retry_join_run _ _ s (Some cursor) xs
                  (Iterating (p :: cursor) tasks i) Hts')
        as (s1 & xs1 & H1).
      destruct (IH [] [] 0
                  (flush_retry
                     (run_all (ts ++ [handle_pending_message incoming p])
                        (note_retry
                           (length
                              (ts ++ [handle_pending_message incoming p]))
                           s)).2)
                  xs1 ltac:(constructor)) as (s2 & xs2 & H2).
      exists (JobTurn :: s1 ++ s2), xs2. rewrite bind_join.
      etrans; [|exact H2].
      change (run_loop (retry_messages_turn incoming) (JobTurn :: s1 ++ s2)
                (mkLoop s [] false xs (Iterating (p :: cursor) tasks i)))
        with (run_loop (retry_messages_turn incoming) (s1 ++ s2)
                (retry_messages_turn incoming
                   (mkLoop s [] false xs
                      (Iterating (p :: cursor) tasks i)))).
      rewrite Hnew, run_loop_app. f_equal. exact H1.
    + destruct (IH _ _ (i + 1) s xs Hts') as (s2 & xs2 & H2).
      exists (JobTurn :: s2), xs2. etrans; [|exact H2].
      change (run_loop (retry_messages_turn incoming) (JobTurn :: s2)
                (mkLoop s [] false xs (Iterating (p :: cursor) tasks i)))
        with (run_loop (retry_messages_turn incoming) s2
                (retry_messages_turn incoming
                   (mkLoop s [] false xs
                      (Iterating (p :: cursor) tasks i)))).
      by rewrite Hnew.
Qed.

(** A join of the transaction job when the loop takes the tasks of the gather
    one after the other, each to its end. *)
Lemma txs_join_run tasks ts s rest xs at0 :
  Forall2 (λ f g, ∀ s, run_routine f s = g s) tasks ts →
  ∃ schedule xs',
    run_loop (handle_txs_turn get_chaindata_messages) schedule
      (gather tasks (Gathering rest)
         (mkLoop (note_txs (length tasks) s) [] false xs at0))
    = mkLoop (flush_txs (run_all ts (note_txs (length ts) s)).2)
             [] false xs' (after_join rest).
Proof.
  intros Hts.
  assert (Hlen : length tasks = length ts) by by eapply Forall2_length.
  assert (Hall : ∀ s, run_all (map run_routine tasks) s = run_all ts s).
  { apply run_all_ext. by apply Forall2_fmap_l. }
  destruct (gather_runs_to_end (handle_txs_turn get_chaindata_messages)
              (Gathering rest) tasks (note_txs (length tasks) s) false xs)
    as (n & xs' & Hn).
  unfold gather. simpl. rewrite Hall, Hlen in Hn. rewrite Hlen.
  set (s1 := (run_all ts (note_txs (length ts) s)).2) in *.
  destruct (bool_decide (length (tx_actions s1) ≠ 0%nat)) eqn:Hact.
  - exists (replicate n (TaskTurn 0) ++ [JobTurn; JobTurn]), xs'.
    rewrite run_loop_app, Hn. simpl.
    unfold handle_txs_turn, job_turn at 2. simpl.
    unfold gather_over. simpl. rewrite orb_true_r, Hact.
    unfold job_turn. simpl. unfold flush_txs. by rewrite Hact.
  - exists (replicate n (TaskTurn 0) ++ [JobTurn]), xs'.
    rewrite run_loop_app, Hn. simpl.
    unfold handle_txs_turn, job_turn. simpl.
    unfold gather_over. simpl. rewrite orb_true_r, Hact.
    unfold flush_txs. by rewrite Hact.
Qed.

Lemma handle_txs_loop_run cursor :
  ∀ tasks ts i s xs,
    Forall2 (λ f g, ∀ s, run_routine f s = g s) tasks ts →
    ∃ schedule xs',
      run_loop (handle_txs_turn get_chaindata_messages) schedule
        (mkLoop s [] false xs (Iterating cursor tasks i))
      = mkLoop
          ((do ts' <- handle_txs_loop get_chaindata_messages cursor ts i;
            join_pending_txs_tasks ts') s).2
          [] false xs' Returned.
Proof.
  induction cursor as [|p cursor IH]; intros tasks ts i s xs Hts.
  - destruct (txs_join_run tasks ts s None xs (Iterating [] tasks i) Hts)
      as (schedule & xs' & Hs).
    exists (JobTurn :: schedule), xs'. etrans; [exact Hs|].
    unfold St.bind, St.ret. simpl.
    by rewrite join_pending_txs_tasks_run.
  - assert (Hts' : Forall2 (λ f g, ∀ s, run_routine f s = g s)
                     (tasks ++ [handle_pending_tx_task get_chaindata_messages p])
                     (ts ++ [handle_pending_tx get_chaindata_messages p])).
    { apply Forall2_app; [done|]. constructor; [|done].
      apply handle_pending_tx_task_run. }
    assert (Hold :
      (do ts' <- handle_txs_loop get_chaindata_messages (p :: cursor) ts i;
       join_pending_txs_tasks ts') s
      = if 100 <? i + 1 then
          (do_ join_pending_txs_tasks
                 (ts ++ [handle_pending_tx get_chaindata_messages p]);
           do ts' <- handle_txs_loop get_chaindata_messages cursor [] 0;
           join_pending_txs_tasks ts') s
        else
          (do ts' <- handle_txs_loop get_chaindata_messages cursor
                       (ts ++ [handle_pending_tx get_chaindata_messages p]) (i + 1);
           join_pending_txs_tasks ts') s).
    { simpl. destruct (100 <? i + 1); [|done]. unfold St.bind.
      by destruct (join_pending_txs_tasks _ s) as [[e|[]] s']. }
    assert (Hnew :
      handle_txs_turn get_chaindata_messages
        (mkLoop s [] false xs (Iterating (p :: cursor) tasks i))
      = if 100 <? i + 1 then
          gather (tasks ++ [handle_pending_tx_task get_chaindata_messages p])
            (Gathering (Some cursor))
            (mkLoop
               (note_txs
                  (length (tasks ++ [handle_pending_tx_task get_chaindata_messages p]))
                  s)
               [] false xs (Iterating (p :: cursor) tasks i))
        else
          mkLoop s [] false xs
            (Iterating cursor
               (tasks ++ [handle_pending_tx_task get_chaindata_messages p]) (i + 1)))
      by reflexivity.
    rewrite Hold. clear Hold.
    destruct (100 <? i + 1) eqn:Hi.
    + destruct (txs_join_run _ _ s (Some cursor) xs
                  (Iterating (p :: cursor) tasks i) Hts')
        as (s1 & xs1 & H1).
      destruct (IH [] [] 0
                  (flush_txs
                     (run_all (ts ++ [handle_pending_tx get_chaindata_messages p])
                        (note_txs
                           (length
                              (ts ++ [handle_pending_tx get_chaindata_messages p]))
                           s)).2)
                  xs1 ltac:(constructor)) as (s2 & xs2 & H2).
      exists (JobTurn :: s1 ++ s2), xs2. rewrite bind_join_txs.
      etrans; [|exact H2].
      change (run_loop (handle_txs_turn get_chaindata_messages) (JobTurn :: s1 ++ s2)
                (mkLoop s [] false xs (Iterating (p :: cursor) tasks i)))
        with (run_loop (handle_txs_turn get_chaindata_messages) (s1 ++ s2)
                (handle_txs_turn get_chaindata_messages
                   (mkLoop s [] false xs
                      (Iterating (p :: cursor) tasks i)))).
      rewrite Hnew, run_loop_app. f_equal. exact H1.
    + destruct (IH _ _ (i + 1) s xs Hts') as (s2 & xs2 & H2).
      exists (JobTurn :: s2), xs2. etrans; [|exact H2].
      change (run_loop (handle_txs_turn get_chaindata_messages) (JobTurn :: s2)
                (mkLoop s [] false xs (Iterating (p :: cursor) tasks i)))
        with (run_loop (handle_txs_turn get_chaindata_messages) s2
                (handle_txs_turn get_chaindata_messages
                   (mkLoop s [] false xs
                      (Iterating (p :: cursor) tasks i)))).
      by rewrite Hnew.
Qed.

(** The embedding of a job with tasks that do not suspend gives one run
    of its event loop: the run in which the loop takes the tasks of each
    gather one after the other, each to its end. *)
Lemma retry_messages_job_run nd :
  ∃ schedule,
    job (retry_messages_run incoming schedule nd) = Returned
    ∧ in_flight (retry_messages_run incoming schedule nd) = []
    ∧ retry_node (shared (retry_messages_run incoming schedule nd))
      = (retry_messages_job incoming nd).2.
Proof.
  destruct (retry_messages_loop_run
              (find_sorted_limit pm_time 1000 (PendingMessage nd)) [] [] 0
              (mkRetry
                 (<["NULS" := []]> (<["ETH" := []]> (<["BNB" := []]> ∅)))%string
                 [] nd) [] ltac:(constructor)) as (schedule & xs & Hs).
  exists schedule. unfold retry_messages_run, retry_messages_start.
  rewrite Hs. simpl. split_and!; [done|done|].
  unfold retry_messages_job. by destruct (St.bind _ _ _).
Qed.

Lemma handle_txs_job_run nd :
  ∃ schedule,
    job (handle_txs_run get_chaindata_messages schedule nd) = Returned
    ∧ in_flight (handle_txs_run get_chaindata_messages schedule nd) = []
    ∧ txs_node (shared (handle_txs_run get_chaindata_messages schedule nd))
      = (handle_txs_job get_chaindata_messages nd).2.
Proof.
  destruct (handle_txs_loop_run
              (find_sorted_limit ptx_time 1000 (PendingTX nd)) [] [] 0
              (mkTxs [] nd) [] ltac:(constructor)) as (schedule & xs & Hs).
  exists schedule. unfold handle_txs_run, handle_txs_start.
  rewrite Hs. simpl. split_and!; [done|done|].
  unfold handle_txs_job. by destruct (St.bind _ _ _).
Qed.

End atomic_runs.

Section deletes.
Variable incoming :
  msg → option string → option string → option Z → list pyval →
  bool → bool → Res.t pyval * list pyval.

(** One step of the handler of [p]. *)
Lemma handles_turn p f s :
  handles incoming p f → deletes_only s →
  ∃ s' c,
    f s = (s', c) ∧ deletes_only s'
    ∧ PendingMessage (retry_node s') = PendingMessage (retry_node s)
    ∧ (actions s' = actions s ∨ actions s' = actions s ++ [DeleteOne p.1])
    ∧ match c with
      | Ret (inl e) => True
      | Ret (inr _) => always_handled incoming p → DeleteOne p.1 ∈ actions s'
      | Await resume => handles incoming p resume ∧ actions s' = actions s
      end.
Proof.
  intros Hf [Hnd Hacts].
  destruct Hf as [->|[chain ->]].
  - unfold handle_pending_message_task.
    destruct (src_chain_name (pm_source p.2) ≫= _) as [[chain seen]|];
      eexists _, _; (split; [reflexivity|]); simpl.
    + split_and!; [done|done|by left|by right; exists chain|done].
    + split_and!; [done|done|by left|done].
  - unfold incoming_returns.
    assert (Hh : always_handled incoming p →
                 (incoming (pm_message p.2) (src_chain_name (pm_source p.2))
                    (src_tx_hash (pm_source p.2))
                    (src_height (pm_source p.2))
                    (default [] (seen_ids s !! chain))
                    (default true (src_check_message (pm_source p.2)))
                    true).1 = Res.ok (PBool true)) by (intros H; apply H).
    destruct (incoming _ _ _ _ _ _ _) as [[e|r] seen']; simpl in Hh.
    { eexists _, _. split; [reflexivity|]. simpl.
      split_and!; [done|done|by left|done]. }
    destruct r as [|[]| | | | | | |]; simpl; eexists _, _;
      (split; [reflexivity|]); simpl;
      (split_and!;
       [split;
        [done
        |first [done
               |apply Forall_app; split; [done|];
                apply Forall_singleton; by eexists]]
       |done
       |first [by left|by right]
       |intros H; specialize (Hh H);
        first [done
              |apply elem_of_app; right; by apply list_elem_of_singleton]]).
Qed.

Section handled.
Variable q : oid * pending_message.
Hypothesis q_handled : always_handled incoming q.

Lemma tracked_task_turn n l :
  tracked incoming q l → exceptions (task_turn n l) = [] →
  tracked incoming q (task_turn n l).
Proof.
  intros (Hs & Hr & Hall & Hjob). unfold task_turn.
  destruct (in_flight l !! n) as [t|] eqn:Hn; [|done].
  assert (Hne : in_flight l ≠ []) by (by intros E; rewrite E in Hn).
  destruct (Forall_lookup_1 _ _ _ _ Hall Hn) as (Haw & p & Hh).
  destruct (handles_turn p (body t) (shared l) Hh Hs)
    as (s' & c & Hstep & Hs' & Hpm & Hact & Hc).
  rewrite Hstep.
  destruct (job l) as [cursor tasks i|rest|rest|] eqn:Hj;
    [by destruct Hjob as [Hnil _]| |by destruct Hjob as [Hnil _]
    |by destruct Hjob as [Hnil _]].
  rename Hjob into Hq.
  assert (Hsettled : settled_record q.1 (shared l) → settled_record q.1 s').
  { unfold settled_record. rewrite Hpm. intros [?|Hin]; [by left|right].
    destruct Hact as [-> | ->]; [done|]. apply elem_of_app. by left. }
  destruct c as [[e|[]]|resume]; simpl; intros Hex.
  - by apply app_eq_nil in Hex as [_ ?].
  - unfold tracked. simpl. rewrite Hr, Haw. simpl.
    split_and!; [done|done|by apply Forall_delete|].
    destruct Hq as [?|[(m & t' & Hm & Hq)|?]]; [by left| |by auto].
    destruct (decide (n = m)) as [->|Hnm].
    + right. right. rewrite Hn in Hm. injection Hm as <-.
      destruct (handles_turn q (body t) (shared l) Hq Hs)
        as (s'' & c'' & Hstep' & _ & _ & _ & Hc').
      rewrite Hstep in Hstep'. injection Hstep' as <- <-.
      right. by apply Hc'.
    + right. left. destruct (decide (m < n)%nat).
      * exists m, t'. split; [|done]. by rewrite list_lookup_delete_lt.
      * exists (pred m), t'. split; [|done].
        rewrite list_lookup_delete_ge by lia.
        by replace (Datatypes.S (pred m)) with m by lia.
  - destruct Hc as [Hres Hsame]. unfold tracked. simpl.
    split_and!; [done|done| |].
    + apply Forall_insert; [done|]. split; [done|]. by exists p.
    + destruct Hq as [?|[(m & t' & Hm & Hq)|?]]; [by left| |by auto].
      right. left. destruct (decide (n = m)) as [->|Hnm].
      * rewrite Hn in Hm. injection Hm as <-.
        destruct (handles_turn q (body t) (shared l) Hq Hs)
          as (s'' & c'' & Hstep' & _ & _ & _ & Hc').
        rewrite Hstep in Hstep'. injection Hstep' as <- <-.
        destruct Hc' as [Hres' _].
        exists m, (mkTask (awaited t) true resume). split; [|done].
        apply list_lookup_insert_eq. by eapply lookup_lt_Some.
      * exists m, t'. split; [|done]. by rewrite list_lookup_insert_ne.
Qed.

Lemma tracked_gather tasks rest l :
  deletes_only (shared l) → in_flight l = [] →
  Forall (λ f, ∃ p, f = handle_pending_message_task incoming p) tasks →
  q ∈ default [] rest
  ∨ handle_pending_message_task incoming q ∈ tasks
  ∨ q.1 ∉ (PendingMessage (retry_node (shared l))).*1 →
  tracked incoming q
    (gather tasks (Gathering rest)
       (mkLoop (note_retry (length tasks) (shared l)) (in_flight l)
               (raised l) (exceptions l) (job l))).
Proof.
  intros Hs Hnil Htasks Hq. unfold tracked, gather. simpl.
  rewrite Hnil. simpl. split_and!; [done|done| |].
  - apply Forall_fmap. eapply Forall_impl; [exact Htasks|].
    intros f [p ->]. simpl. split; [done|]. exists p. by left.
  - destruct Hq as [?|[Hin|?]]; [by left| |right; right; by left].
    right. left. apply list_elem_of_lookup in Hin as [n Hn].
    exists n, (mkTask true false (handle_pending_message_task incoming q)).
    split; [|by left]. by rewrite list_lookup_fmap, Hn.
Qed.

Lemma tracked_job_turn l :
  tracked incoming q l → tracked incoming q (retry_messages_turn incoming l).
Proof.
  intros (Hs & Hr & Hall & Hjob). unfold retry_messages_turn, job_turn.
  destruct (job l) as [[|p cursor] tasks i|rest|rest|] eqn:Hj.
  - destruct Hjob as (Hnil & Htasks & Hq).
    rewrite <- Hj. by apply (tracked_gather tasks None).
  - destruct Hjob as (Hnil & Htasks & Hq).
    assert (Htasks' :
      Forall (λ f, ∃ p, f = handle_pending_message_task incoming p)
             (tasks ++ [handle_pending_message_task incoming p])).
    { apply Forall_app. split; [done|]. apply Forall_singleton. eauto. }
    assert (Hq' :
      q ∈ cursor
      ∨ handle_pending_message_task incoming q
        ∈ tasks ++ [handle_pending_message_task incoming p]
      ∨ q.1 ∉ (PendingMessage (retry_node (shared l))).*1).
    { destruct Hq as [[->|?]%elem_of_cons|[?|?]]; auto.
      - right. left. apply elem_of_app. right.
        by apply list_elem_of_singleton.
      - right. left. apply elem_of_app. by left. }
    destruct (200 <? i + 1).
    + rewrite <- Hj.
      by apply (tracked_gather
                  (tasks ++ [handle_pending_message_task incoming p])
                  (Some cursor)).
    + unfold tracked. simpl. by split_and!.
  - rename Hjob into Hq.
    destruct (gather_over l) eqn:Hg;
      [|by unfold tracked; rewrite Hj].
    assert (Hnil : in_flight l = []).
    { apply gather_over_all_ended; [done| |done].
      eapply Forall_impl; [exact Hall|]. by intros t [? _]. }
    assert (Hq' : q ∈ default [] rest ∨ settled_record q.1 (shared l)).
    { destruct Hq as [?|[(n & t & Hn & _)|?]]; [by left| |by right].
      by rewrite Hnil in Hn. }
    assert (Hwritten :
      deletes_only
        (mkRetry (seen_ids (shared l)) (actions (shared l))
           (mkNode (bulk_write (actions (shared l))
                      (PendingMessage (retry_node (shared l))))
                   (PendingTX (retry_node (shared l)))
                   (gathered (retry_node (shared l)))
                   (incoming_calls (retry_node (shared l)))))).
    { destruct Hs as (Hnd & Hacts). split; simpl; [|done].
      eapply sublist_NoDup; [exact Hnd|].
      by apply fmap_sublist, bulk_write_deletes_sublist. }
    case_bool_decide as Hlen; unfold tracked; simpl; rewrite Hnil; simpl.
    + split; [exact Hwritten|]. split_and!; try done.
      destruct Hq' as [?|Hq']; [by left|right].
      destruct Hs as (Hnd & Hacts).
      by apply bulk_write_deletes_gone.
    + assert (Hgone : q ∈ default [] rest
                      ∨ q.1 ∉ (PendingMessage (retry_node (shared l))).*1).
      { destruct Hq' as [?|[?|Hin]]; [by left|by right|].
        destruct (actions (shared l)); [by apply elem_of_nil in Hin|].
        simpl in Hlen. lia. }
      split; [exact Hs|].
      destruct rest as [cursor|]; simpl in *.
      * split_and!; try done. destruct Hgone; auto.
      * split_and!; try done. destruct Hgone as [?%elem_of_nil|?]; done.
  - destruct Hjob as (Hnil & Hq).
    assert (Hcleared :
      deletes_only (mkRetry (seen_ids (shared l)) [] (retry_node (shared l)))).
    { destruct Hs as (Hnd & Hacts). by split. }
    unfold tracked. simpl. rewrite Hnil. split; [exact Hcleared|].
    destruct rest as [cursor|]; simpl in *.
    + split_and!; try done. destruct Hq; auto.
    + split_and!; try done. destruct Hq as [?%elem_of_nil|?]; done.
  - unfold tracked. by rewrite Hj.
Qed.

Lemma tracked_run schedule l :
  tracked incoming q l →
  exceptions (run_loop (retry_messages_turn incoming) schedule l) = [] →
  tracked incoming q (run_loop (retry_messages_turn incoming) schedule l).
Proof.
  revert l. induction schedule as [|t schedule IH]; intros l Hl Hex; [done|].
  simpl in *. apply IH; [|done].
  apply exceptions_run_loop in Hex; [|apply exceptions_job_turn].
  destruct t; [by apply tracked_job_turn|by apply tracked_task_turn].
Qed.

End handled.

(** X23: in a sweep of a queue with distinct identifiers in which no task
    has raised, a record that the cursor yields and for which [incoming]
    returns [True] is gone from the queue when the job has returned,
    whatever the order in which the event loop ran the job and its tasks. *)
Theorem retry_messages_job_deletes_handled nd schedule q :
  NoDup (PendingMessage nd).*1 →
  q ∈ find_sorted_limit pm_time 1000 (PendingMessage nd) →
  always_handled incoming q →
  exceptions (retry_messages_run incoming schedule nd) = [] →
  job (retry_messages_run incoming schedule nd) = Returned →
  q.1 ∉ (PendingMessage
           (retry_node (shared (retry_messages_run incoming schedule nd)))).*1.
Proof.
  intros Hnd Hq Hhandled Hex Hret.
  assert (H : tracked incoming q (retry_messages_run incoming schedule nd)).
  { apply tracked_run; [done| |done].
    unfold tracked, retry_messages_start. simpl.
    split_and!; try done. by left. }
  destruct H as (_ & _ & _ & Hjob). rewrite Hret in Hjob. by destruct Hjob.
Qed.

End deletes.

(** A delete can be lost: the task of the third record of [mixed_node]
    appends it after the job, woken by the exception of the first, has
    found no action to write and returned.  When the task ends before the
    job resumes, the record is deleted. *)
Example sweep_can_lose_a_delete :
  (job sweep_with_late_task = Returned
   ∧ (PendingMessage (retry_node (shared sweep_with_late_task))).*1
     = [1%N; 2%N; 3%N]
   ∧ actions (shared sweep_with_late_task) = [DeleteOne 3%N])
  ∧ (job sweep_with_prompt_task = Returned
     ∧ (PendingMessage (retry_node (shared sweep_with_prompt_task))).*1
       = [1%N; 2%N]).
Proof. repeat split; vm_compute; reflexivity. Qed.

Section steady_facts.
Context {R S : Type}.
Variable bound : Z.
Variable handler : R → routine S.
Variable note : nat → S → S.
Variable has_actions : S → bool.
Variable write_actions : S → S.
Variable clear_actions : S → S.
Variable I : S → Prop.
Hypothesis note_keeps : ∀ n s, I s → I (note n s).
Hypothesis write_keeps : ∀ s, I s → I (write_actions s).
Hypothesis clear_keeps : ∀ s, I s → I (clear_actions s).

Local Abbreviation turn_of_job :=
  (job_turn bound handler note has_actions write_actions clear_actions).

Lemma steady_task_turn n (l : event_loop S (job_at R S)) :
  steady I handler l → steady I handler (task_turn n l).
Proof.
  intros (HI & Hall & Hjob). unfold task_turn.
  destruct (in_flight l !! n) as [t|] eqn:Hn; [|done].
  pose proof (Forall_lookup_1 _ _ _ _ Hall Hn _ HI) as Ht.
  destruct (body t (shared l)) as [s c]. simpl in Ht. destruct Ht as [Hs Hc].
  destruct c as [r|resume]; unfold steady; simpl.
  - split_and!; [done|by apply Forall_delete|done].
  - split_and!; [done|by apply Forall_insert|done].
Qed.

Lemma steady_job_turn (l : event_loop S (job_at R S)) :
  steady I handler l → steady I handler (turn_of_job l).
Proof.
  intros (HI & Hall & Hjob). unfold job_turn.
  assert (Horphans : Forall (λ t, keeps I (Await (body t)))
                       (map orphan (in_flight l))).
  { apply Forall_fmap. eapply Forall_impl; [exact Hall|]. done. }
  assert (Hafter : ∀ rest,
    Forall (λ p, keeps I (Await (handler p))) (default [] rest) →
    match after_join rest with
    | Iterating cursor tasks i =>
        Forall (λ f, keeps I (Await f)) tasks
        ∧ Forall (λ p, keeps I (Await (handler p))) cursor
    | Gathering rest | Writing rest =>
        Forall (λ p, keeps I (Await (handler p))) (default [] rest)
    | Returned => True
    end).
  { intros [cursor|] H; simpl; [|done]. by split. }
  destruct (job l) as [[|p cursor] tasks i|rest|rest|] eqn:Hj.
  - destruct Hjob as [Htasks _]. unfold gather, steady. simpl.
    split_and!; [by apply note_keeps| |done].
    apply Forall_app. split; [done|]. apply Forall_fmap.
    eapply Forall_impl; [exact Htasks|]. done.
  - destruct Hjob as [Htasks [Hp Hcur]%Forall_cons].
    assert (Htasks' : Forall (λ f, keeps I (Await f))
                        (tasks ++ [handler p])).
    { apply Forall_app. split; [done|]. by apply Forall_singleton. }
    destruct (bound <? i + 1); unfold gather, steady; simpl.
    + split_and!; [by apply note_keeps| |done].
      apply Forall_app. split; [done|]. apply Forall_fmap.
      eapply Forall_impl; [exact Htasks'|]. done.
    + by split_and!.
  - destruct (gather_over l); [|by unfold steady; rewrite Hj].
    destruct (has_actions (shared l)); unfold steady; simpl.
    + split_and!; [by apply write_keeps|done|done].
    + split_and!; [done|done|by apply Hafter].
  - unfold steady. simpl.
    split_and!; [by apply clear_keeps|done|by apply Hafter].
  - unfold steady. by rewrite Hj.
Qed.

Lemma steady_run schedule (l : event_loop S (job_at R S)) :
  steady I handler l → steady I handler (run_loop turn_of_job schedule l).
Proof.
  revert l. induction schedule as [|t schedule IH]; intros l Hl; [done|].
  simpl. apply IH.
  destruct t; [by apply steady_job_turn|by apply steady_task_turn].
Qed.

End steady_facts.

Section every_schedule.
Variable incoming :
  msg → option string → option string → option Z → list pyval →
  bool → bool → Res.t pyval * list pyval.
Variable get_chaindata_messages :
  pyval → tx_context → Res.t (option chaindata).

(** X25: whatever the order in which the event loop runs the job and its
    tasks, and whatever the tasks raise, [retry_messages_job] only deletes
    from the queue of pending messages and leaves the queue of pending
    transactions alone. *)
Theorem retry_messages_run_only_deletes nd schedule :
  PendingMessage (retry_node (shared (retry_messages_run incoming schedule nd)))
  `sublist_of` PendingMessage nd
  ∧ PendingTX (retry_node (shared (retry_messages_run incoming schedule nd)))
    = PendingTX nd.
Proof.
  set (I := λ s : retry_state,
         PendingMessage (retry_node s) `sublist_of` PendingMessage nd
         ∧ PendingTX (retry_node s) = PendingTX nd
         ∧ Forall is_delete (actions s)).
  assert (Hreturns : ∀ q chain,
            keeps I (Await (incoming_returns incoming q chain))).
  { intros q chain s (Hsub & Htx & Hacts). unfold incoming_returns.
    destruct (incoming _ _ _ _ _ _ _) as [[e|r] seen']; [done|].
    destruct r as [|[]| | | | | | |]; simpl; split; try done.
    split_and!; [done|done|]. apply Forall_app. split; [done|].
    apply Forall_singleton. by eexists. }
  assert (Hhandler : ∀ q,
            keeps I (Await (handle_pending_message_task incoming q))).
  { intros q s HI. unfold handle_pending_message_task.
    destruct (src_chain_name (pm_source q.2) ≫= _) as [[chain seen]|];
      simpl; [|done].
    split; [exact HI|apply Hreturns]. }
  enough (steady I (handle_pending_message_task incoming)
            (retry_messages_run incoming schedule nd)) as ((? & ? & _) & _)
    by done.
  apply steady_run.
  - by intros n s.
  - intros s (Hsub & Htx & Hacts). split_and!; simpl; [|done|done].
    etrans; [by apply bulk_write_deletes_sublist|done].
  - intros s (Hsub & Htx & Hacts). by split_and!.
  - unfold steady, retry_messages_start. simpl. split_and!; try done.
    apply Forall_forall. intros q _. apply Hhandler.
Qed.

Lemma retry_messages_run_keeps_pending p nd schedule :
  unknown_chain p.2 → p ∈ PendingMessage nd → NoDup (PendingMessage nd).*1 →
  keeps_pending p (shared (retry_messages_run incoming schedule nd)).
Proof.
  intros Hp Hin Hnd.
  assert (Hreturns : ∀ q chain,
            q.1 ≠ p.1 → chain ∈ well_known_chains →
            keeps (keeps_pending p)
              (Await (incoming_returns incoming q chain))).
  { intros q chain Hne Hchain s (Hdom & Hacts & Hin' & Hnd').
    unfold incoming_returns.
    assert (Hdom' : ∀ seen', dom (<[chain := seen']> (seen_ids s))
                             = well_known_chains).
    { intros seen'. rewrite dom_insert_lookup_L; [done|].
      apply elem_of_dom. by rewrite Hdom. }
    destruct (incoming _ _ _ _ _ _ _) as [r seen'].
    assert (keeps_pending p
              (mkRetry (<[chain := seen']> (seen_ids s)) (actions s)
                       (retry_node s)))
      by (unfold keeps_pending; simpl; split_and!; [apply Hdom'|done..]).
    destruct r as [e|[|[]| | | | | | |]]; simpl; split; try done.
    unfold keeps_pending. simpl. split_and!; [apply Hdom'| |done|done].
    apply Forall_app. split; [done|].
    apply Forall_singleton. by exists q.1. }
  assert (Hhandler : ∀ q,
            handled_beside p q →
            keeps (keeps_pending p)
              (Await (handle_pending_message_task incoming q))).
  { intros q Hq s HI. unfold handle_pending_message_task.
    destruct (src_chain_name (pm_source q.2)) as [k|] eqn:Hk; simpl; [|done].
    destruct (seen_ids s !! k) as [seen|] eqn:Hseen; simpl; [|done].
    assert (Hwk : k ∈ well_known_chains).
    { destruct HI as (Hdom & _). rewrite <- Hdom. apply elem_of_dom. eauto. }
    split; [exact HI|]. apply Hreturns; [|done].
    intros Heq. by apply (Hq Heq k Hk). }
  enough (steady (keeps_pending p) (handle_pending_message_task incoming)
            (retry_messages_run incoming schedule nd)) as [? _] by done.
  apply steady_run.
  - by intros n s.
  - intros s (Hdom & Hacts & Hin' & Hnd').
    destruct (bulk_write_deletes_keep p _ _ Hacts Hin' Hnd').
    by split_and!.
  - intros s (Hdom & Hacts & Hin' & Hnd'). by split_and!.
  - assert (Hstart : keeps_pending p (fresh_retry_state nd)).
    { unfold keeps_pending, fresh_retry_state. simpl.
      split_and!; [|done|done|done].
      rewrite !dom_insert_L, dom_empty_L. unfold well_known_chains.
      set_solver. }
    unfold steady, retry_messages_start. simpl.
    split; [exact Hstart|]. split_and!; try done.
    apply Forall_forall. intros q Hq. apply Hhandler.
    intros Heq. unfold find_sorted_limit in Hq. apply subseteq_take in Hq.
    rewrite merge_sort_Permutation in Hq.
    by rewrite (NoDup_fst_inj _ q p Hnd Hq Hin Heq).
Qed.

(** X26: whatever the order in which the event loop runs the job and its
    tasks, a record whose chain is not one of NULS, ETH, BNB is in the
    queue all along a sweep, and all along any number of sweeps. *)
Theorem unknown_chain_stays_pending_on_the_loop p nd schedules schedule :
  unknown_chain p.2 → p ∈ PendingMessage nd → NoDup (PendingMessage nd).*1 →
  p ∈ PendingMessage
        (retry_node
           (shared
              (retry_messages_run incoming schedule
                 (after_runs incoming schedules nd)))).
Proof.
  intros Hp Hin Hnd.
  enough (p ∈ PendingMessage (after_runs incoming schedules nd)
          ∧ NoDup (PendingMessage (after_runs incoming schedules nd)).*1)
    as [Hin' Hnd'].
  { by destruct (retry_messages_run_keeps_pending p _ schedule Hp Hin' Hnd')
      as (_ & _ & ? & _). }
  unfold after_runs.
  induction schedules as [|s schedules IH] using rev_ind; [done|].
  rewrite foldl_app. simpl. destruct IH as [Hin' Hnd'].
  by destruct (retry_messages_run_keeps_pending p _ s Hp Hin' Hnd')
    as (_ & _ & ? & ?).
Qed.

(** X27: whatever the order in which the event loop runs the job and its
    tasks, and whatever the tasks raise, [handle_txs_job] only deletes from
    the queue of pending transactions and only appends to the queue of
    pending messages. *)
Theorem handle_txs_run_monotone nd schedule :
  PendingTX
    (txs_node (shared (handle_txs_run get_chaindata_messages schedule nd)))
  `sublist_of` PendingTX nd
  ∧ PendingMessage nd
    `prefix_of`
    PendingMessage
      (txs_node (shared (handle_txs_run get_chaindata_messages schedule nd))).
Proof.
  set (I := λ s : txs_state,
         PendingTX (txs_node s) `sublist_of` PendingTX nd
         ∧ PendingMessage nd `prefix_of` PendingMessage (txs_node s)
         ∧ Forall is_delete (tx_actions s)).
  assert (Hdelete : ∀ s id,
            I s → I (mkTxs (tx_actions s ++ [DeleteOne id]) (txs_node s))).
  { intros s id (Hsub & Hpre & Hacts). split_and!; [done|done|].
    apply Forall_app. split; [done|]. apply Forall_singleton. by eexists. }
  assert (Hhandler : ∀ q,
            keeps I
              (Await (handle_pending_tx_task get_chaindata_messages q))).
  { intros q s HI. unfold handle_pending_tx_task. simpl.
    split; [exact HI|]. intros s1 HI1. unfold chaindata_returns.
    destruct (get_chaindata_messages _ _) as [e|[[l|v]|]];
      simpl; [done| |by split; [apply Hdelete|]|done].
    case_bool_decide; simpl; [|by split; [apply Hdelete|]].
    split; [exact HI1|]. intros s2 (Hsub & Hpre & Hacts). simpl.
    split; [|done]. split_and!; simpl; [done| |].
    + etrans; [exact Hpre|].
      rewrite <- (map_map _ InsertOne). apply bulk_write_inserts_prefix.
    + apply Forall_app. split; [done|]. apply Forall_singleton.
      by eexists. }
  enough (steady I (handle_pending_tx_task get_chaindata_messages)
            (handle_txs_run get_chaindata_messages schedule nd))
    as ((? & ? & _) & _) by done.
  apply steady_run.
  - by intros n s.
  - intros s (Hsub & Hpre & Hacts). split_and!; simpl; [|done|done].
    etrans; [by apply bulk_write_deletes_sublist|done].
  - intros s (Hsub & Hpre & Hacts). by split_and!.
  - unfold steady, handle_txs_start. simpl. split_and!; try done.
    apply Forall_forall. intros q _. apply Hhandler.
Qed.

End every_schedule.

(** ** From admission to content *)

Section admission_to_content.
Variable VERIFIER_REGISTER : gmap string verifier.
Variable from_hash : string → option ItemType.
Variable ipfs_enabled : bool.
Variable enabled_clients : list string.
Variable streamer_request_hash : string → Res.t (option (list Byte.byte)).
Variable p2p_http_request_hash : string → Z → Res.t (option (list Byte.byte)).
Variable ipfs_get_content : string → Z → Z → Res.t (option (list Byte.byte)).
Variable add_ipfs_bytes : list Byte.byte → Z → Res.t string.
Variable get_sha256 : pyval → Res.t string.
Variable set_value_error : string → list Byte.byte → option exc.
Variable json_loads : pyval → Res.t (option pyval).
Variable item_type_of_string : string → option ItemType.
Variable get_json_of_value :
  pyval → ItemType → Z → Z → St.t world JsonContent.

(** X24: for a message that [check_message] accepted with inline content,
    [get_message_content] reads the content from the message: it decodes
    [item_content] and touches neither the local store nor any network. *)
Theorem accepted_inline_content_is_local m fc fn r w :
  check_message VERIFIER_REGISTER from_hash get_sha256 m fc fn false
  = Res.ok (Some r) →
  is_not_none (get_or_none m "item_content") = true →
  ∃ h content,
    r !! "item_hash"%string = Some (PStr h)
    ∧ r !! "item_content"%string = Some content
    ∧ get_message_content ipfs_enabled enabled_clients streamer_request_hash
        p2p_http_request_hash ipfs_get_content add_ipfs_bytes get_sha256
        set_value_error json_loads item_type_of_string get_json_of_value
        r w
      = (match json_loads content with
         | inr (Some v) =>
             Res.ok (mkJsonContent (PStr h) (Some INLINE) v content)
         | inr None => Res.raise InvalidContent
         | inl e =>
             if is_key_error e then Res.raise InvalidContent
             else Res.raise e
         end, w).
Proof.
  intros (h & chain & Hg & Hh & Hc & Hfin)%check_message_accepts_exact Hco.
  apply finish_check_accepts in Hfin. subst r.
  unfold settled_message. rewrite Hco.
  assert (∃ content, m !! "item_content"%string = Some content)
    as [content Hcontent].
  { unfold get_or_none in Hco. destruct (m !! "item_content"%string); eauto.
    done. }
  exists h, content.
  assert (Hlook : ∀ k v, k ∈ INCOMING_MESSAGE_AUTHORIZED_FIELDS →
    <["item_type"%string := PItem Inline]> m !! k = Some v →
    project (<["item_type"%string := PItem Inline]> m) !! k = Some v).
  { intros k v Hk Hv. by rewrite project_lookup, bool_decide_true. }
  assert (H1 := Hlook "item_hash"%string (PStr h) ltac:(in_list)
                  ltac:(by rewrite lookup_insert_ne)).
  assert (H2 := Hlook "item_content"%string content ltac:(in_list)
                  ltac:(by rewrite lookup_insert_ne)).
  assert (H3 := Hlook "item_type"%string (PItem Inline) ltac:(in_list)
                  ltac:(by rewrite lookup_insert_eq)).
  split_and!; [done|done|].
  unfold get_message_content, getitem, json_async_loads.
  rewrite H1, H2, H3. simpl.
  unfold St.bind, St.lift, St.try_except, St.ret, St.raise, Res.ok,
    Res.raise. simpl.
  destruct (json_loads content) as [e|[v|]]; simpl; try done.
  by destruct (is_key_error e).
Qed.

End admission_to_content.

(** ** The further properties, run *)

Lemma check_message_untrusted_sound_witness :
  on_accept (sample_check (msg_inline (PStr "hi")) false true false)
    (λ r, (∀ k, is_Some (r !! k) → k ∈ INCOMING_MESSAGE_AUTHORIZED_FIELDS)
          ∧ ∃ chain signer,
              msg_inline (PStr "hi") !! "chain"%string = Some (PStr chain)
              ∧ sample_register !! chain = Some signer
              ∧ signer r = Res.ok true).
Proof.
  assert (A : accepts (sample_check (msg_inline (PStr "hi")) false true false)
              = true) by (vm_compute; reflexivity).
  unfold sample_check in *.
  destruct (check_message _ _ _ _ _ _ _) as [e|[r|]] eqn:E;
    [discriminate A| |discriminate A].
  simpl. exact (check_message_untrusted_sound _ _ _ _ _ _ _ E).
Defined.

Lemma check_message_inline_verdict_witness :
  sample_check (msg_inline (PStr "hi")) false true false
  = verdict sample_register "ETH"
      (project (<["item_type"%string := PItem Inline]>
                  (msg_inline (PStr "hi")))).
Proof.
  unfold sample_check.
  eapply (check_message_inline_verdict _ _ _ _ _ _ (PStr "hi") 2 "sha256:hi").
  - vm_compute; reflexivity.
  - vm_compute; reflexivity.
  - vm_compute; reflexivity.
  - vm_compute; reflexivity.
  - reflexivity.
  - vm_compute; discriminate.
  - left. vm_compute; reflexivity.
  - reflexivity.
Defined.

Lemma check_message_trusted_unverified_witness :
  sample_check (msg_inline (PStr "hi!")) false false true
  = Res.ok (Some (settled_message no_classifier "sha256:hi"
                    (msg_inline (PStr "hi!")))).
Proof.
  unfold sample_check. eapply check_message_trusted_unverified.
  - vm_compute; reflexivity.
  - vm_compute; reflexivity.
  - right. exists (PStr "hi!"), 3. split_and!.
    + vm_compute; reflexivity.
    + reflexivity.
    + vm_compute; discriminate.
    + left. vm_compute; reflexivity.
Defined.

Lemma check_message_item_type_of_hash_witness :
  on_accept
    (check_message sample_register storage_classifier toy_sha256 msg_stored
       false true false)
    (λ r, r !! "item_type"%string = Some (PItem Storage)).
Proof.
  assert (A : accepts
                (check_message sample_register storage_classifier toy_sha256
                   msg_stored false true false) = true)
    by (vm_compute; reflexivity).
  destruct (check_message _ _ _ _ _ _ _) as [e|[r|]] eqn:E;
    [discriminate A| |discriminate A].
  simpl.
  refine (check_message_item_type_of_hash _ _ _ _ _ _ _ r "sha256:payload"
            E _ _); vm_compute; reflexivity.
Defined.

Lemma check_message_idempotent_witness :
  on_accept (sample_check (msg_inline (PStr "hi")) false true false)
    (λ r, sample_check r true false false = Res.ok (Some r)).
Proof.
  assert (A : accepts (sample_check (msg_inline (PStr "hi")) false true false)
              = true) by (vm_compute; reflexivity).
  unfold sample_check in *.
  destruct (check_message _ _ _ (msg_inline _) _ _ _) as [e|[r|]] eqn:E;
    [discriminate A| |discriminate A].
  simpl. exact (check_message_idempotent _ _ _ _ _ _ _ _ _ E).
Defined.

Lemma incoming_check_admits_witness :
  on_accept (sample_incoming_check sample_frame)
    (λ r, (∀ k, is_Some (r !! k) → k ∈ INCOMING_MESSAGE_AUTHORIZED_FIELDS)
          ∧ ∃ chain signer,
              r !! "chain"%string = Some (PStr chain)
              ∧ sample_register !! chain = Some signer
              ∧ signer r = Res.ok true).
Proof.
  assert (A : accepts (sample_incoming_check sample_frame) = true)
    by (vm_compute; reflexivity).
  unfold sample_incoming_check in *.
  destruct (incoming_check _ _ _ _ _ _ _) as [e|[r|]] eqn:E;
    [discriminate A| |discriminate A].
  simpl. exact (proj2 (incoming_check_admits _ _ _ _ _ _ _ _ E)).
Defined.

Lemma verify_content_hash_passes_witness :
  (sample_verify payload Storage "sha256:payload" empty_world).1 = Res.ok tt.
Proof.
  apply verify_content_hash_passes. vm_compute; reflexivity.
Defined.

Lemma verify_content_hash_failures_witness :
  sample_verify pwned Inline "sha256:payload" empty_world
  = (Res.raise ValueError, empty_world)
  ∧ (sample_verify pwned Storage "sha256:payload" empty_world).1
    = Res.raise InvalidContent.
Proof.
  split.
  - eapply (proj1 (verify_content_hash_failures _ _ _ _ _ _ _)).
    vm_compute; reflexivity.
  - eapply (proj1 (proj2 (verify_content_hash_failures _ _ _ _ _ _ _))).
    + vm_compute; reflexivity.
    + vm_compute; discriminate.
Defined.

Lemma fetch_content_from_network_http_fallback_witness :
  Exists (λ c, is_http_call c = true)
    (new_calls empty_world
       (sample_fetch ["protocol"; "http"]%string None (Some payload)
          "sha256:payload" Storage 2 empty_world).2)
  ∧ ¬ Exists (λ c, is_http_call c = true)
        (new_calls empty_world
           (sample_fetch ["protocol"; "http"]%string (Some payload) None
              "sha256:payload" Storage 2 empty_world).2).
Proof.
  unfold sample_fetch. split.
  - apply fetch_content_from_network_http_fallback. split.
    + in_list.
    + by right.
  - intros [_ [Hoff|Hnone]]%fetch_content_from_network_http_fallback.
    + apply Hoff. in_list.
    + discriminate.
Defined.

Lemma get_hash_content_store_frame_witness :
  filestore
    (sample_resolve (Some payload) None None
       "sha256:payload" Storage 2 1 true true false empty_world).2
  = filestore empty_world.
Proof.
  unfold sample_resolve.
  apply (get_hash_content_store_frame true ["protocol"%string]
           (λ _, Res.ok (Some payload)) (λ _ _, Res.ok None)
           (λ _ _ _, Res.ok None) toy_cid toy_digest (λ _ _, None)
           "sha256:payload" Storage 2 1 true true false empty_world).
  reflexivity.
Defined.

Lemma get_hash_content_contacts_witness :
  Forall (λ c, is_overlay_call c = false)
    (new_calls empty_world
       (sample_resolve (Some payload) None None
          "sha256:payload" Storage 2 1 false true true empty_world).2)
  ∧ Forall (λ c, is_ipfs_call c = false)
      (new_calls empty_world
         (sample_resolve (Some payload) (Some payload) None
            "sha256:payload" Storage 2 1 true true true empty_world).2).
Proof.
  unfold sample_resolve. split.
  - apply (get_hash_content_contacts true ["protocol"%string]
             (λ _, Res.ok (Some payload)) (λ _ _, Res.ok None)
             (λ _ _ _, Res.ok None) toy_cid toy_digest (λ _ _, None)
             "sha256:payload" Storage 2 1 false true true empty_world).
    reflexivity.
  - apply (get_hash_content_contacts true ["protocol"%string]
             (λ _, Res.ok (Some payload)) (λ _ _, Res.ok None)
             (λ _ _ _, Res.ok (Some payload)) toy_cid toy_digest (λ _ _, None)
             "sha256:payload" Storage 2 1 true true true empty_world).
    by right.
Defined.

Lemma get_json_result_witness :
  ∃ b, PStr "sha256:payload" = PStr "sha256:payload"
       ∧ PBytes payload = PBytes b
       ∧ sample_loads (PBytes b) = Res.ok (Some (PInt 7))
       ∧ filestore
           (sample_get_json (Some payload) "sha256:payload" Storage 2 1
              empty_world).2 !! "sha256:payload"%string = Some b.
Proof.
  unfold sample_get_json.
  apply (get_json_result true ["protocol"%string]
           (λ _, Res.ok (Some payload)) (λ _ _, Res.ok None)
           (λ _ _ _, Res.ok None) toy_cid toy_digest (λ _ _, None)
           sample_loads "sha256:payload" Storage 2 1 empty_world
           (mkJsonContent (PStr "sha256:payload") (Some P2P) (PInt 7)
              (PBytes payload))).
  apply run_eq. vm_compute; reflexivity.
Defined.

Lemma get_json_undecodable_witness :
  sample_get_json (Some pwned) "sha256:pwned" Storage 2 1 empty_world
  = (Res.raise InvalidContent,
     (sample_resolve (Some pwned) None None
        "sha256:pwned" Storage 2 1 true true true empty_world).2)
  ∧ filestore
      (sample_resolve (Some pwned) None None
         "sha256:pwned" Storage 2 1 true true true empty_world).2
    !! "sha256:pwned"%string = Some pwned.
Proof.
  unfold sample_get_json, sample_resolve.
  apply (get_json_undecodable true ["protocol"%string]
           (λ _, Res.ok (Some pwned)) (λ _ _, Res.ok None)
           (λ _ _ _, Res.ok None) toy_cid toy_digest (λ _ _, None)
           sample_loads "sha256:pwned" Storage 2 1 empty_world
           (mkRawContent "sha256:pwned" (Some P2P) pwned)).
  apply run_eq. vm_compute; reflexivity.
Defined.

Lemma get_message_content_inline_witness :
  (sample_message_content
     (<["item_type"%string := PStr "inline"]> (msg_inline (PStr "hi")))
     empty_world).2 = empty_world.
Proof.
  unfold sample_message_content.
  eapply (proj1 (get_message_content_inline true ["protocol"%string]
            (λ _, Res.ok None) (λ _ _, Res.ok None) (λ _ _ _, Res.ok None)
            toy_cid toy_digest (λ _ _, None) sample_loads sample_item_type
            sample_get_json_of_value
            _ empty_world (PStr "sha256:hi") _ _)).
  Unshelve.
  - vm_compute; reflexivity.
  - vm_compute; reflexivity.
Defined.

Lemma add_json_round_trip_witness :
  ∃ s, sample_dumps (PStr "payload") = Res.ok s
       ∧ (Storage = Storage
          → "sha256:payload"%string
            = sample_hexdigest (String.list_byte_of_string s))
       ∧ ∀ engine' timeout tries un ui sv,
           sample_resolve None None None "sha256:payload" engine' timeout tries
             un ui sv
             (sample_add_json (PStr "payload") Storage empty_world).2
           = (Res.ok (mkRawContent "sha256:payload" (Some DB)
                        (String.list_byte_of_string s)),
              asked_store "sha256:payload"
                (sample_add_json (PStr "payload") Storage empty_world).2).
Proof.
  unfold sample_resolve, sample_add_json.
  apply (add_json_round_trip true ["protocol"%string]
           (λ _, Res.ok None) (λ _ _, Res.ok None) (λ _ _ _, Res.ok None)
           toy_cid toy_digest (λ _ _, None) sample_dumps
           String.list_byte_of_string sample_hexdigest 0
           (PStr "payload") Storage empty_world).
  apply run_eq. vm_compute; reflexivity.
Defined.

Lemma add_json_failure_witness :
  sample_add_json (PStr "payload") Inline empty_world
  = (Res.raise (OtherError "NotImplementedError"), empty_world).
Proof.
  unfold sample_add_json.
  exact (proj2 (add_json_failure toy_cid (λ _ _, None) sample_dumps
                  String.list_byte_of_string sample_hexdigest 0
                  (PStr "payload") Inline empty_world) eq_refl).
Defined.

Lemma add_json_storage_verifies_witness :
  (sample_verify (String.list_byte_of_string "payload") Storage
     "sha256:payload" empty_world).1 = Res.ok tt.
Proof.
  unfold sample_verify.
  apply (add_json_storage_verifies true toy_cid toy_digest (λ _ _, None)
           sample_dumps String.list_byte_of_string sample_hexdigest 0
           (PStr "payload") empty_world "sha256:payload"
           (sample_add_json (PStr "payload") Storage empty_world).2
           "payload").
  - intros b. reflexivity.
  - apply run_eq. vm_compute; reflexivity.
  - reflexivity.
Defined.

Lemma add_file_stores_witness :
  "sha256:load"%string = sample_hexdigest (drop 3 payload)
  ∧ filestore (sample_add_file (mkFile payload 3) None Storage empty_world).2
    !! "sha256:load"%string = Some (drop 3 payload)
  ∧ mkFile payload 7 = mkFile payload (Nat.max 3 (length payload)).
Proof.
  unfold sample_add_file.
  apply (proj1 (add_file_stores (λ _ _, None) sample_hexdigest
                  sample_ipfs_add_file (mkFile payload 3) None empty_world)
           "sha256:load" (mkFile payload 7)).
  apply run_eq. vm_compute; reflexivity.
Defined.

Lemma handle_pending_message_outcome_witness :
  actions
    (handle_pending_message incoming_handled
       (record_of_chain (Some "ETH"%string) 3)
       (fresh_retry_state mixed_node)).2
  = [DeleteOne 3%N].
Proof.
  refine (proj1 (handle_pending_message_outcome incoming_handled
                   (record_of_chain (Some "ETH"%string) 3)
                   (fresh_retry_state mixed_node) "ETH" [] eq_refl _)).
  vm_compute; reflexivity.
Defined.

Lemma handle_pending_tx_outcome_witness :
  tx_actions
    (handle_pending_tx chaindata_bogus (tx_record 5)
       (mkTxs [] (mkNode [] [tx_record 5] [] []))).2
  = [DeleteOne 5%N]
  ∧ PendingMessage
      (txs_node
         (handle_pending_tx chaindata_bogus (tx_record 5)
            (mkTxs [] (mkNode [] [tx_record 5] [] []))).2)
    = [].
Proof.
  destruct (handle_pending_tx_outcome chaindata_bogus (tx_record 5)
              (mkTxs [] (mkNode [] [tx_record 5] [] [])))
    as (H1 & _ & H3 & _).
  split; [exact H1|]. apply H3. intros l Hl. discriminate Hl.
Defined.


Lemma accepted_inline_content_is_local_witness :
  on_accept (sample_check (msg_inline (PStr "hi")) false true false)
    (λ r, ∃ h content,
       r !! "item_hash"%string = Some (PStr h)
       ∧ r !! "item_content"%string = Some content
       ∧ get_message_content true ["protocol"%string]
           (λ _, Res.ok None) (λ _ _, Res.ok None) (λ _ _ _, Res.ok None)
           toy_cid toy_sha256 (λ _ _, None) sample_loads sample_item_type
           sample_get_json_of_value r empty_world
         = (match sample_loads content with
            | inr (Some v) =>
                Res.ok (mkJsonContent (PStr h) (Some INLINE) v content)
            | inr None => Res.raise InvalidContent
            | inl e =>
                if is_key_error e then Res.raise InvalidContent
                else Res.raise e
            end, empty_world)).
Proof.
  assert (A : accepts (sample_check (msg_inline (PStr "hi")) false true false)
              = true) by (vm_compute; reflexivity).
  unfold sample_check in *.
  destruct (check_message _ _ _ _ _ _ _) as [e|[r|]] eqn:E;
    [discriminate A| |discriminate A].
  simpl.
  refine (accepted_inline_content_is_local sample_register no_classifier
            true ["protocol"%string] (λ _, Res.ok None) (λ _ _, Res.ok None)
            (λ _ _ _, Res.ok None) toy_cid toy_sha256 (λ _ _, None)
            sample_loads sample_item_type sample_get_json_of_value
            (msg_inline (PStr "hi")) false true r empty_world E _).
  vm_compute; reflexivity.
Defined.

Lemma retry_messages_job_deletes_handled_witness :
  1%N ∉ (PendingMessage (retry_node (shared known_node_swept))).*1.
Proof.
  apply (retry_messages_job_deletes_handled incoming_handled known_node
           (replicate 3 JobTurn
            ++ [TaskTurn 0; TaskTurn 1; TaskTurn 1; TaskTurn 0]
            ++ [JobTurn; JobTurn])
           (record_of_chain (Some "ETH"%string) 1)).
  - apply (bool_decide_unpack _). vm_compute; exact I.
  - apply (list_elem_of_lookup_2 _ 0%nat). vm_compute; reflexivity.
  - intros seen. reflexivity.
  - vm_compute; reflexivity.
  - vm_compute; reflexivity.
Defined.

Lemma unknown_chain_stays_pending_on_the_loop_witness :
  record_of_chain (Some "DOT"%string) 1
  ∈ PendingMessage (retry_node (shared sweep_with_late_task)).
Proof.
  apply (unknown_chain_stays_pending_on_the_loop incoming_handled
           (record_of_chain (Some "DOT"%string) 1) mixed_node []).
  - intros k [= <-]. apply (bool_decide_unpack _). vm_compute; exact I.
  - apply elem_of_cons. by left.
  - apply (bool_decide_unpack _). vm_compute; exact I.
Defined.
